(** * carscan: plate detection and OCR decoding pipeline

    A shallow embedding of the pure core of [src/app/page.tsx]
    (letterbox preprocessing, detector decoding with non-maximum
    suppression, inverse coordinate mapping, OCR grid decoding, plate
    text extraction) and of the status/timer protocol of
    [handleDetectPlate] / [runOcr]; further, the frame capture, the
    plate crop and the pixel buffers of the two preprocessors, the page
    reset of [handleResumeCamera], and the vehicle lookup of
    [handleLookup] with the route [src/app/api/dvla/route.ts].

    JavaScript numbers are modelled through the interface [JsNum]; the
    source functions are translated once, over any implementation of that
    interface.  Two implementations are given, both with NaN and the two
    infinities but without rounding, overflow or signed zeros: exact
    rationals (which compute) and real numbers (which have [exp]).
    Where a double rounds, a value computed here can differ from the
    one the browser computes, by a rounding error or, where the value
    is then rounded to a whole number, by one; the properties of the
    letterbox and of the crop are therefore stated as bounds that hold
    on either side, or in the operations of [JsNum]. *)

From Stdlib Require Import List ZArith QArith Qround Qminmax Qabs Qfield.
From Stdlib Require Import Reals Lra Lqa Lia Bool Arith String Ascii NArith Sorted.
Import ListNotations.

Close Scope Q_scope.
Open Scope nat_scope.

Set Implicit Arguments.

Ltac qlra := Lqa.lra.
Ltac rlra := Lra.lra.
Ltac rnra := Lra.nra.

(* ================================================================== *)
(** * JavaScript numbers *)
(* ================================================================== *)

(** The operations of the Number type that the pipeline uses.  [ltb] and
    [leb] are the relational operators [<] and [<=] (false as soon as an
    operand is NaN), [truthy] is ToBoolean, [max]/[min] are the binary
    [Math.max]/[Math.min], [lit] reads a decimal literal or an integer. *)
Class JsNum (F : Type) : Type := {
  nan : F;
  infinity : F;
  lit : Q -> F;
  add : F -> F -> F;
  sub : F -> F -> F;
  mul : F -> F -> F;
  div : F -> F -> F;
  neg : F -> F;
  ltb : F -> F -> bool;
  leb : F -> F -> bool;
  truthy : F -> bool;
  max : F -> F -> F;
  min : F -> F -> F;
  abs : F -> F;
  floor : F -> F;
  round : F -> F;
  exp : F -> F
}.

Declare Scope js_scope.
Delimit Scope js_scope with js.
Notation "a + b" := (add a b) : js_scope.
Notation "a - b" := (sub a b) : js_scope.
Notation "a * b" := (mul a b) : js_scope.
Notation "a / b" := (div a b) : js_scope.
Notation "- a" := (neg a) : js_scope.
Notation "a <? b" := (ltb a b) : js_scope.
Notation "a <=? b" := (leb a b) : js_scope.
Notation "a >? b" := (ltb b a) : js_scope.

(** Integers that the code mixes into arithmetic (array lengths, tensor
    dimensions, pixel sizes). *)
Definition of_Z {F} `{JsNum F} (z : Z) : F := lit (inject_Z z).
Definition of_nat {F} `{JsNum F} (n : nat) : F := of_Z (Z.of_nat n).

(** ** Extended numbers over a scalar field

    [ext K] adds NaN and the infinities to a field of scalars [K]; the
    arithmetic follows IEEE 754 on the special values and is exact on
    the finite ones.  Zero is unsigned: [x / 0] takes the sign of [x]. *)

Inductive ext (K : Type) : Type :=
| NaN : ext K
| NegInf : ext K
| PosInf : ext K
| Fin : K -> ext K.

Arguments NaN {K}.
Arguments NegInf {K}.
Arguments PosInf {K}.
Arguments Fin {K} _.

Class Scalar (K : Type) : Type := {
  s_lit : Q -> K;
  s_add : K -> K -> K;
  s_mul : K -> K -> K;
  s_opp : K -> K;
  s_inv : K -> K;
  s_ltb : K -> K -> bool;
  s_floor : K -> Z;
  s_exp : K -> K
}.

Section Extended.
Context {K : Type} `{Scalar K}.

Definition s_sgn (k : K) : comparison :=
  if s_ltb (s_lit 0) k then Gt else if s_ltb k (s_lit 0) then Lt else Eq.

Definition x_neg (a : ext K) : ext K :=
  match a with
  | NaN => NaN
  | NegInf => PosInf
  | PosInf => NegInf
  | Fin x => Fin (s_opp x)
  end.

Definition x_add (a b : ext K) : ext K :=
  match a, b with
  | NaN, _ | _, NaN => NaN
  | PosInf, NegInf | NegInf, PosInf => NaN
  | PosInf, _ | _, PosInf => PosInf
  | NegInf, _ | _, NegInf => NegInf
  | Fin x, Fin y => Fin (s_add x y)
  end.

Definition x_sub (a b : ext K) : ext K := x_add a (x_neg b).

Definition x_mul (a b : ext K) : ext K :=
  match a, b with
  | NaN, _ | _, NaN => NaN
  | Fin x, Fin y => Fin (s_mul x y)
  | Fin x, PosInf | PosInf, Fin x =>
      match s_sgn x with Eq => NaN | Gt => PosInf | Lt => NegInf end
  | Fin x, NegInf | NegInf, Fin x =>
      match s_sgn x with Eq => NaN | Gt => NegInf | Lt => PosInf end
  | PosInf, PosInf | NegInf, NegInf => PosInf
  | PosInf, NegInf | NegInf, PosInf => NegInf
  end.

Definition x_div (a b : ext K) : ext K :=
  match a, b with
  | NaN, _ | _, NaN => NaN
  | Fin x, Fin y =>
      match s_sgn y with
      | Eq => match s_sgn x with Eq => NaN | Gt => PosInf | Lt => NegInf end
      | _ => Fin (s_mul x (s_inv y))
      end
  | Fin _, _ => Fin (s_lit 0)
  | PosInf, Fin y => match s_sgn y with Lt => NegInf | _ => PosInf end
  | NegInf, Fin y => match s_sgn y with Lt => PosInf | _ => NegInf end
  | _, _ => NaN
  end.

Definition x_ltb (a b : ext K) : bool :=
  match a, b with
  | NaN, _ | _, NaN => false
  | _, NegInf => false
  | NegInf, _ => true
  | PosInf, _ => false
  | _, PosInf => true
  | Fin x, Fin y => s_ltb x y
  end.

Definition x_leb (a b : ext K) : bool :=
  match a, b with
  | NaN, _ | _, NaN => false
  | NegInf, _ => true
  | _, PosInf => true
  | _, NegInf => false
  | PosInf, _ => false
  | Fin x, Fin y => negb (s_ltb y x)
  end.

Definition x_truthy (a : ext K) : bool :=
  match a with
  | NaN => false
  | Fin x => match s_sgn x with Eq => false | _ => true end
  | _ => true
  end.

Definition x_max (a b : ext K) : ext K :=
  match a, b with
  | NaN, _ | _, NaN => NaN
  | _, _ => if x_ltb a b then b else a
  end.

Definition x_min (a b : ext K) : ext K :=
  match a, b with
  | NaN, _ | _, NaN => NaN
  | _, _ => if x_ltb b a then b else a
  end.

Definition x_abs (a : ext K) : ext K :=
  match a with
  | NaN => NaN
  | Fin x => if s_ltb x (s_lit 0) then Fin (s_opp x) else Fin x
  | _ => PosInf
  end.

Definition x_floor (a : ext K) : ext K :=
  match a with
  | Fin x => Fin (s_lit (inject_Z (s_floor x)))
  | _ => a
  end.

(** [Math.round] rounds half-way cases towards +Infinity. *)
Definition x_round (a : ext K) : ext K :=
  x_floor (x_add a (Fin (s_lit (1 # 2)))).

Definition x_exp (a : ext K) : ext K :=
  match a with
  | NaN => NaN
  | NegInf => Fin (s_lit 0)
  | PosInf => PosInf
  | Fin x => Fin (s_exp x)
  end.

#[export] Instance ext_JsNum : JsNum (ext K) := {|
  nan := NaN;
  infinity := PosInf;
  lit := fun q => Fin (s_lit q);
  add := x_add;
  sub := x_sub;
  mul := x_mul;
  div := x_div;
  neg := x_neg;
  ltb := x_ltb;
  leb := x_leb;
  truthy := x_truthy;
  max := x_max;
  min := x_min;
  abs := x_abs;
  floor := x_floor;
  round := x_round;
  exp := x_exp
|}.
End Extended.

(** ** Exact rationals

    [Math.exp] is implementation-approximated in ECMAScript; on the
    rationals it is the degree-12 Taylor polynomial, which is there
    only so that the decoders compute on examples.  No property below
    rests on its values: what is proved about [exp] is proved over
    the reals. *)

Fixpoint q_exp_series (n : nat) (x term acc : Q) (k : Z) : Q :=
  match n with
  | O => acc
  | S n' =>
      let term' := Qred (term * x / inject_Z k) in
      q_exp_series n' x term' (Qred (acc + term')) (k + 1)
  end.

Definition q_exp (x : Q) : Q := q_exp_series 12 x 1 1 1.

Definition q_ltb (x y : Q) : bool := negb (Qle_bool y x).

#[export] Instance Q_Scalar : Scalar Q := {|
  s_lit := fun q => q;
  s_add := Qplus;
  s_mul := Qmult;
  s_opp := Qopp;
  s_inv := Qinv;
  s_ltb := q_ltb;
  s_floor := Qfloor;
  s_exp := q_exp
|}.

(** ** Real numbers *)

Definition r_ltb (x y : R) : bool := if Rlt_dec x y then true else false.

Definition r_floor (x : R) : Z := (up x - 1)%Z.

#[export] Instance R_Scalar : Scalar R := {|
  s_lit := Q2R;
  s_add := Rplus;
  s_mul := Rmult;
  s_opp := Ropp;
  s_inv := Rinv;
  s_ltb := r_ltb;
  s_floor := r_floor;
  s_exp := Rtrigo_def.exp
|}.

(** Numeric agreement of two rational results. *)
Definition qnum_eq (a b : ext Q) : Prop :=
  match a, b with
  | NaN, NaN | NegInf, NegInf | PosInf, PosInf => True
  | Fin x, Fin y => (x == y)%Q
  | _, _ => False
  end.

(* ================================================================== *)
(** * Detector decoder: [iou], [nms], [parseDetectorOutput] *)
(* ================================================================== *)

Section Detector.
Context {F : Type} `{JsNum F}.
Local Open Scope js_scope.

(** [a[i]] on a numeric array.  A read past the end yields [undefined],
    which every arithmetic operation, [Math.abs], [Math.max] and the
    comparisons treat as NaN. *)
Definition at_ (a : list F) (i : nat) : F := nth i a nan.

Definition sigmoid (value : F) : F := lit 1 / (lit 1 + exp (- value)).

Definition iou (a b : list F) : F :=
  let x1 := max (at_ a 0) (at_ b 0) in
  let y1 := max (at_ a 1) (at_ b 1) in
  let x2 := min (at_ a 2) (at_ b 2) in
  let y2 := min (at_ a 3) (at_ b 3) in
  let interArea := max (lit 0) (x2 - x1) * max (lit 0) (y2 - y1) in
  let boxAArea :=
    max (lit 0) (at_ a 2 - at_ a 0) * max (lit 0) (at_ a 3 - at_ a 1) in
  let boxBArea :=
    max (lit 0) (at_ b 2 - at_ b 0) * max (lit 0) (at_ b 3 - at_ b 1) in
  interArea / max (lit 1) (boxAArea + boxBArea - interArea).

Record Candidate : Type := mkCandidate { box : list F; score : F }.

(** [Array.prototype.sort] with a comparator.  ECMAScript requires the
    sort to be stable, so for a comparator that is consistent on the
    elements of the array the result is the one of insertion sort: each
    element goes in front of the first earlier one that the comparator
    orders after it.  For a comparator that is not consistent there
    (scores that include [NaN] beside two different numbers) ECMAScript
    leaves the order to the implementation; [sortBy] is then one of the
    orders an engine may produce, and [conformingSort] below ranges
    over all of them. *)
Fixpoint insertBy {A} (cmp : A -> A -> F) (x : A) (l : list A) : list A :=
  match l with
  | [] => [x]
  | y :: l' => if cmp y x >? lit 0 then x :: l else y :: insertBy cmp x l'
  end.

Definition sortBy {A} (cmp : A -> A -> F) (l : list A) : list A :=
  fold_left (fun acc x => insertBy cmp x acc) l [].

(** The comparator [(a, b) => b.score - a.score]. *)
Definition byScoreDesc (a b : Candidate) : F := score b - score a.

(** The inner [for] loop of [nms]: it walks [sorted] from the back and
    splices out every entry that overlaps [current] too much, which
    keeps the others in order. *)
Definition suppress (threshold : F) (current : Candidate)
    (sorted : list Candidate) : list Candidate :=
  filter (fun c => negb (iou (box current) (box c) >? threshold)) sorted.

(** The [while (sorted.length)] loop; every turn shifts one entry out
    of [sorted], so [length sorted] turns are enough. *)
Fixpoint nms_loop (fuel : nat) (threshold : F)
    (sorted selected : list Candidate) : list Candidate :=
  match fuel with
  | O => selected
  | S fuel' =>
      match sorted with
      | [] => selected
      | current :: rest =>
          nms_loop fuel' threshold (suppress threshold current rest)
                   (selected ++ [current])
      end
  end.

Definition nms (boxes : list Candidate) (threshold : F) : list Candidate :=
  let sorted := sortBy byScoreDesc boxes in
  nms_loop (List.length sorted) threshold sorted [].

(** [a] is ordered after [b] by the comparator: [b.score - a.score]
    is positive. *)
Definition sortsAfter (a b : Candidate) : bool :=
  byScoreDesc a b >? lit 0.

Definition inOrder (a b : Candidate) : Prop := sortsAfter a b = false.

Definition overlaps (threshold : F) (a b : Candidate) : bool :=
  iou (box a) (box b) >? threshold.

Definition apart (threshold : F) (a b : Candidate) : Prop :=
  overlaps threshold a b = false.

(** The comparator is consistent when "has a greater score" is a
    strict order on the scores. *)
Definition consistentScores : Prop :=
  (forall a : F, (a - a >? lit 0) = false) /\
  (forall a b c : F,
      (b - a >? lit 0) = true -> (c - b >? lit 0) = true ->
      (c - a >? lit 0) = true).

(** The three outcomes of the comparator on two candidates, as
    ECMAScript names them: [a <CF b], [a =CF b] and [a >CF b] say that
    [comparefn(a, b)] is negative, zero, positive. *)
Definition lessCF (a b : Candidate) : bool := byScoreDesc a b <? lit 0.

Definition equalCF (a b : Candidate) : bool :=
  (byScoreDesc a b <=? lit 0) && (lit 0 <=? byScoreDesc a b).

Definition greaterCF (a b : Candidate) : bool := sortsAfter a b.

Definition exactlyOne (x y z : bool) : Prop :=
  (x = true /\ y = false /\ z = false) \/
  (x = false /\ y = true /\ z = false) \/
  (x = false /\ y = false /\ z = true).

(** The comparator is a consistent comparison function for the
    candidates of a list, as ECMAScript defines it for the values
    being sorted: its value is a number and not [NaN], so that exactly
    one of the three outcomes holds; [=CF] is reflexive, symmetric and
    transitive; [<CF] and [>CF] are transitive.  A score [NaN] breaks
    the first condition. *)
Definition consistentOn (l : list Candidate) : Prop :=
  forall a b c, In a l -> In b l -> In c l ->
    exactlyOne (lessCF a b) (equalCF a b) (greaterCF a b) /\
    equalCF a a = true /\
    (equalCF a b = true -> equalCF b a = true) /\
    (equalCF a b = true -> equalCF b c = true -> equalCF a c = true) /\
    (lessCF a b = true -> lessCF b c = true -> lessCF a c = true) /\
    (greaterCF a b = true -> greaterCF b c = true -> greaterCF a c = true).

(** What ECMAScript guarantees of [boxes.sort((a, b) => b.score -
    a.score)] in any engine: on a list on which the comparator is
    consistent, the result is the stable sorted arrangement, which is
    the one [sortBy] computes.  On any other list the order is
    implementation-defined, and nothing is asked. *)
Definition conformingSort (sort : list Candidate -> list Candidate) : Prop :=
  forall l, consistentOn l -> sort l = sortBy byScoreDesc l.

(** [nms] run with the [sort] of a given engine. *)
Definition nmsWith (sort : list Candidate -> list Candidate)
    (boxes : list Candidate) (threshold : F) : list Candidate :=
  let sorted := sort boxes in
  nms_loop (List.length sorted) threshold sorted [].

(** A sort as merge sorts that look for runs do it: an array in which
    no element is ordered after its right neighbour is taken to be
    sorted already and is returned as it is; any other array is sorted
    by insertion. *)
Fixpoint isRun (l : list Candidate) : bool :=
  match l with
  | a :: (b :: _) as l' => negb (sortsAfter a b) && isRun l'
  | _ => true
  end.

Definition runSort (l : list Candidate) : list Candidate :=
  if isRun l then l else sortBy byScoreDesc l.

(** [Math.max(maxCoord, |a|, |b|, |c|, |d|)]. *)
Definition max5 (m a b c d : F) : F := max (max (max (max m a) b) c) d.

(** One turn of the decoding loop, given the four raw coordinates and
    the raw objectness / class entries of a candidate. *)
Definition decodeCandidate (channels : nat) (normalized : bool)
    (inputWidth inputHeight scoreThreshold : F)
    (x y w h rawObj rawCls : F) (candidates : list Candidate)
    : list Candidate :=
  let obj := if (4 <? channels)%nat then sigmoid rawObj else lit 1 in
  let cls := if (5 <? channels)%nat then sigmoid rawCls else lit 1 in
  let score := obj * cls in
  if score <? scoreThreshold then candidates
  else
    let scaleX := if normalized then inputWidth else lit 1 in
    let scaleY := if normalized then inputHeight else lit 1 in
    let cx := x * scaleX in
    let cy := y * scaleY in
    let bw := w * scaleX in
    let bh := h * scaleY in
    candidates ++
      [ {| box := [cx - bw / lit 2; cy - bh / lit 2;
                   cx + bw / lit 2; cy + bh / lit 2];
           score := score |} ].

(** The branch for [dims[2] <= 10]: one row of [channels] per box. *)
Definition candidatesBoxesFirst (data : list F) (boxes channels : nat)
    (inputWidth inputHeight scoreThreshold : F) : list Candidate :=
  let maxCoord :=
    fold_left
      (fun maxCoord i =>
         let base := (i * channels)%nat in
         max5 maxCoord (abs (at_ data base)) (abs (at_ data (base + 1)))
              (abs (at_ data (base + 2))) (abs (at_ data (base + 3))))
      (seq 0 (Nat.min boxes 50)) (lit 0) in
  let normalized := maxCoord <=? lit (3 # 2) in
  fold_left
    (fun candidates i =>
       let base := (i * channels)%nat in
       decodeCandidate channels normalized
         inputWidth inputHeight scoreThreshold
         (at_ data base) (at_ data (base + 1))
         (at_ data (base + 2)) (at_ data (base + 3))
         (at_ data (base + 4)) (at_ data (base + 5)) candidates)
    (seq 0 boxes) [].

(** The other branch: one row of [boxes] per channel. *)
Definition candidatesChannelsFirst (data : list F) (channels boxes : nat)
    (inputWidth inputHeight scoreThreshold : F) : list Candidate :=
  let maxCoord :=
    fold_left
      (fun maxCoord i =>
         max5 maxCoord (abs (at_ data i)) (abs (at_ data (i + boxes)))
              (abs (at_ data (i + 2 * boxes)))
              (abs (at_ data (i + 3 * boxes))))
      (seq 0 (Nat.min boxes 50)) (lit 0) in
  let normalized := maxCoord <=? lit (3 # 2) in
  fold_left
    (fun candidates i =>
       decodeCandidate channels normalized
         inputWidth inputHeight scoreThreshold
         (at_ data i) (at_ data (i + boxes))
         (at_ data (i + 2 * boxes)) (at_ data (i + 3 * boxes))
         (at_ data (i + 4 * boxes)) (at_ data (i + 5 * boxes)) candidates)
    (seq 0 boxes) [].

(** [output.dims] holds the non-negative integer axis lengths of the
    tensor, [output.data] its flat buffer. *)
Definition parseDetectorOutput (data : list F) (dims : list nat)
    (inputWidth inputHeight scoreThreshold : F) : list Candidate :=
  match dims with
  | [_; d1; d2] =>
      if (d2 <=? 10)%nat
      then nms (candidatesBoxesFirst data d1 d2
                  inputWidth inputHeight scoreThreshold) (lit (2 # 5))
      else nms (candidatesChannelsFirst data d1 d2
                  inputWidth inputHeight scoreThreshold) (lit (2 # 5))
  | _ => []
  end.

(** The two flat layouts of one table [m] of [boxes] rows and
    [channels] columns: [boxes, channels] row by row, and its
    transpose [channels, boxes]. *)
Definition layoutBoxesFirst (m : nat -> nat -> F) (boxes channels : nat)
    : list F :=
  flat_map (fun i => map (fun c => m i c) (seq 0 channels)) (seq 0 boxes).

Definition layoutChannelsFirst (m : nat -> nat -> F) (boxes channels : nat)
    : list F :=
  flat_map (fun c => map (fun i => m i c) (seq 0 boxes)) (seq 0 channels).
End Detector.

(* ================================================================== *)
(** * Tensor preprocessor and plate cropper *)
(* ================================================================== *)

(** [HTMLImageElement.width] and [.height] are integers. *)
Record Image : Type := mkImage { image_width : Z; image_height : Z }.

Section Letterbox.
Context {F : Type} `{JsNum F}.
Local Open Scope js_scope.

(** The letterbox locals of [prepareDetectorInput] (lines 201-205),
    computed the same way in [prepareOcrInput] (lines 375-382).  The
    target size is a canvas size and a typed-array length: integers.
    On the rationals [round] is applied to the exact product; where
    that is a tie (a 51 x 68 image in a 140 x 70 target scales to
    52.5) the double of the source may lie just below it and round
    the other way. *)
Record Letterbox : Type := mkLetterbox {
  lb_scale : F;
  scaledWidth : F;
  scaledHeight : F;
  lb_padX : F;
  lb_padY : F
}.

Definition letterbox (image : Image) (width height : Z) : Letterbox :=
  let scale :=
    min (of_Z width / of_Z (image_width image))
        (of_Z height / of_Z (image_height image)) in
  let scaledWidth := round (of_Z (image_width image) * scale) in
  let scaledHeight := round (of_Z (image_height image) * scale) in
  let padX := floor ((of_Z width - scaledWidth) / lit 2) in
  let padY := floor ((of_Z height - scaledHeight) / lit 2) in
  {| lb_scale := scale; scaledWidth := scaledWidth;
     scaledHeight := scaledHeight; lb_padX := padX; lb_padY := padY |}.

(** The transform record returned by [prepareDetectorInput]; the pixel
    buffer [input] and its [type] play no part in the geometry and are
    left out.  [ctx] tells whether [canvas.getContext("2d")] gave a
    context; without one the function returns [null]. *)
Record Prepared : Type := mkPrepared {
  scale : F;
  padX : F;
  padY : F;
  width : Z;
  height : Z
}.

Definition prepareDetectorInput (ctx : bool) (image : Image)
    (width height : Z) : option Prepared :=
  if negb ctx then None
  else
    let lb := letterbox image width height in
    Some {| scale := lb_scale lb; padX := lb_padX lb; padY := lb_padY lb;
            width := width; height := height |}.

(** The crop rectangle of [handleDetectPlate] (lines 566-575): the best
    detection mapped back into image coordinates. *)
Definition cropBox (image : Image) (prepared : Prepared) (best : list F)
    : list F :=
  let x1 := max (lit 0) ((at_ best 0 - padX prepared) / scale prepared) in
  let y1 := max (lit 0) ((at_ best 1 - padY prepared) / scale prepared) in
  let x2 := min (of_Z (image_width image))
                ((at_ best 2 - padX prepared) / scale prepared) in
  let y2 := min (of_Z (image_height image))
                ((at_ best 3 - padY prepared) / scale prepared) in
  [x1; y1; x2; y2].

(** The forward mapping, in the words of the specification: multiply
    by the scale, add the padding.  (The source only has it implicitly,
    in the [drawImage] call of the preprocessor.) *)
Definition forwardMap (prepared : Prepared) (b : list F) : list F :=
  [at_ b 0 * scale prepared + padX prepared;
   at_ b 1 * scale prepared + padY prepared;
   at_ b 2 * scale prepared + padX prepared;
   at_ b 3 * scale prepared + padY prepared].
End Letterbox.

(** [OCR_INPUT = { width: 140, height: 70, maxSlots: 9 }]. *)
Record OcrInputSpec : Type :=
  mkOcrInput { ocr_width : Z; ocr_height : Z; maxSlots : nat }.

Definition OCR_INPUT : OcrInputSpec :=
  {| ocr_width := 140; ocr_height := 70; maxSlots := 9 |}.

(** The letterbox that [prepareOcrInput] computes for its 140 x 70
    canvas. *)
Definition prepareOcrInput_letterbox {F} `{JsNum F} (image : Image)
    : Letterbox (F := F) :=
  letterbox image (ocr_width OCR_INPUT) (ocr_height OCR_INPUT).

(* ================================================================== *)
(** * Strings *)
(* ================================================================== *)

(** A JavaScript string is a sequence of UTF-16 code units. *)
Definition jsstring : Type := list N.

Definition js (s : string) : jsstring :=
  List.map N_of_ascii (list_ascii_of_string s).

Definition jsstring_eqb (a b : jsstring) : bool :=
  if list_eq_dec N.eq_dec a b then true else false.

(* ================================================================== *)
(** * OCR decoder: [decodeOcrOutput] *)
(* ================================================================== *)

Definition OCR_ALPHABET : jsstring :=
  Eval cbv in js "0123456789ABCDEFGHIJKLMNOPQRSTUVWXYZ_".

Definition OCR_PAD : jsstring := Eval cbv in js "_".

Inductive Layout : Type := SlotsFirst | ClassesFirst.

Section OcrDecoder.
Context {F : Type} `{JsNum F}.
Local Open Scope js_scope.

(** Lines 424-435: the slot count and layout read off [output.dims];
    [classes] is always the alphabet length. *)
Definition ocrShape (dims : list nat) : nat * Layout :=
  let classes := List.length OCR_ALPHABET in
  match dims with
  | [_; d1; d2] =>
      if (d2 =? classes)%nat then (d1, SlotsFirst)
      else if (d1 =? classes)%nat then (d2, ClassesFirst)
      else (maxSlots OCR_INPUT, SlotsFirst)
  | _ => (maxSlots OCR_INPUT, SlotsFirst)
  end.

Definition ocrIndex (layout : Layout) (slots classes slot cls : nat)
    : nat :=
  match layout with
  | SlotsFirst => (slot * classes + cls)%nat
  | ClassesFirst => (cls * slots + slot)%nat
  end.

(** Lines 439-451: the arg-max scan of one slot, from
    [(-Infinity, 0)]. *)
Definition slotArgmax (data : list F) (layout : Layout)
    (slots classes slot : nat) : F * nat :=
  fold_left
    (fun (m : F * nat) cls =>
       let value := at_ data (ocrIndex layout slots classes slot cls) in
       if value >? fst m then (value, cls) else m)
    (seq 0 classes) (- infinity, O).

(** Lines 452-459. *)
Definition slotExpSum (data : list F) (layout : Layout)
    (slots classes slot : nat) (maxVal : F) : F :=
  fold_left
    (fun expSum cls =>
       expSum
       + exp (at_ data (ocrIndex layout slots classes slot cls) - maxVal))
    (seq 0 classes) (lit 0).

(** Line 460. *)
Definition slotConfidence (data : list F) (layout : Layout)
    (slots classes slot : nat) : F :=
  let maxVal := fst (slotArgmax data layout slots classes slot) in
  let expSum := slotExpSum data layout slots classes slot maxVal in
  if truthy expSum then lit 1 / expSum else lit 0.

(** [OCR_ALPHABET[maxIdx] ?? ""]. *)
Definition alphabetChar (maxIdx : nat) : jsstring :=
  match nth_error OCR_ALPHABET maxIdx with
  | Some c => [c]
  | None => []
  end.

(** One turn of the slot loop on [(text, confidenceSum)]. *)
Definition decodeSlot (data : list F) (layout : Layout)
    (slots classes : nat) (acc : jsstring * F) (slot : nat)
    : jsstring * F :=
  let maxIdx := snd (slotArgmax data layout slots classes slot) in
  let confidence := slotConfidence data layout slots classes slot in
  let confidenceSum := snd acc + confidence in
  let char := alphabetChar maxIdx in
  if negb (jsstring_eqb char OCR_PAD)
  then (fst acc ++ char, confidenceSum)
  else (fst acc, confidenceSum).

Definition decodeSlots (data : list F) (layout : Layout)
    (slots classes : nat) : jsstring * option F :=
  let r := fold_left (decodeSlot data layout slots classes)
                     (seq 0 slots) ([], lit 0) in
  let avgConfidence :=
    if (slots =? 0)%nat then None
    else Some (snd r / of_nat slots * lit 100) in
  (fst r, avgConfidence).

(** [decodeOcrOutput]: [text] and [confidence] ([None] is [null]). *)
Definition decodeOcrOutput (data : list F) (dims : list nat)
    : jsstring * option F :=
  let (slots, layout) := ocrShape dims in
  decodeSlots data layout slots (List.length OCR_ALPHABET).
End OcrDecoder.

(* ================================================================== *)
(** * Plate text extractor: [extractPlate], [normalizePlate] *)
(* ================================================================== *)

(** ** The regular expressions of the source

    All of them are sequences of quantified character classes
    [cls{lo,hi}]; matching is greedy with backtracking, on code units. *)

Definition isUpperAZ (c : N) : bool := ((65 <=? c) && (c <=? 90))%N.
Definition isDigit (c : N) : bool := ((48 <=? c) && (c <=? 57))%N.
Definition isAlnum (c : N) : bool := isUpperAZ c || isDigit c.
Definition notAlnum (c : N) : bool := negb (isAlnum c).

(** [\s]: the WhiteSpace and LineTerminator code points. *)
Definition isSpace (c : N) : bool :=
  (((9 <=? c) && (c <=? 13)) || (c =? 32) || (c =? 160) || (c =? 5760)
   || ((8192 <=? c) && (c <=? 8202)) || (c =? 8232) || (c =? 8233)
   || (c =? 8239) || (c =? 8287) || (c =? 12288) || (c =? 65279))%N.

Record Atom : Type := mkAtom {
  cls : N -> bool;
  lo : nat;
  hi : option nat    (* [None]: no upper bound *)
}.

Definition Regex : Type := list Atom.

(** [/[A-Z]{2}\d{2}[A-Z]{3}/] *)
Definition strictRe : Regex :=
  [mkAtom isUpperAZ 2 (Some 2); mkAtom isDigit 2 (Some 2);
   mkAtom isUpperAZ 3 (Some 3)].

(** [/[A-Z0-9]{5,8}/] *)
Definition looseRe : Regex := [mkAtom isAlnum 5 (Some 8)].

(** [/[^A-Z0-9]/] *)
Definition nonAlnumRe : Regex := [mkAtom notAlnum 1 (Some 1)].

(** [/\s+/] *)
Definition spacesRe : Regex := [mkAtom isSpace 1 None].

(** Consume up to [budget] more code units of class [p], as many as
    possible, at least [lo], then continue with [k]; the result is the
    length of the whole match. *)
Fixpoint repeatClass (p : N -> bool) (lo budget : nat)
    (k : jsstring -> option nat) (s : jsstring) : option nat :=
  match budget, s with
  | S budget', c :: s' =>
      if p c then
        match repeatClass p (Nat.pred lo) budget' k s' with
        | Some n => Some (S n)
        | None => if (lo =? 0)%nat then k s else None
        end
      else if (lo =? 0)%nat then k s else None
  | _, _ => if (lo =? 0)%nat then k s else None
  end.

Fixpoint matchK (r : Regex) (k : jsstring -> option nat) (s : jsstring)
    : option nat :=
  match r with
  | [] => k s
  | a :: r' =>
      let budget :=
        match hi a with Some h => h | None => List.length s end in
      repeatClass (cls a) (lo a) budget (matchK r' k) s
  end.

(** A match starting at the head of [s]: its length. *)
Definition matchHere (r : Regex) (s : jsstring) : option nat :=
  matchK r (fun _ => Some O) s.

(** [/^r$/.test(s)] *)
Definition testWhole (r : Regex) (s : jsstring) : bool :=
  match matchK r (fun rest => match rest with [] => Some O | _ => None end) s
  with
  | Some _ => true
  | None => false
  end.

(** [s.match(/r/)]: the leftmost match, [None] for [null]. *)
Fixpoint search (r : Regex) (s : jsstring) : option jsstring :=
  match matchHere r s with
  | Some n => Some (firstn n s)
  | None =>
      match s with
      | [] => None
      | _ :: s' => search r s'
      end
  end.

(** [s.replace(/r/g, repl)]; [skip] counts the code units of the current
    match still to be dropped. *)
Fixpoint replaceAll (r : Regex) (repl : jsstring) (skip : nat)
    (s : jsstring) : jsstring :=
  match s with
  | [] =>
      match skip, matchHere r [] with
      | O, Some _ => repl
      | _, _ => []
      end
  | c :: s' =>
      match skip with
      | S skip' => replaceAll r repl skip' s'
      | O =>
          match matchHere r s with
          | Some (S n) => repl ++ replaceAll r repl n s'
          | Some O => repl ++ c :: replaceAll r repl O s'
          | None => c :: replaceAll r repl O s'
          end
      end
  end.

(** [s.split(/r/)] for a separator that matches no empty string; [cur]
    is the piece being read. *)
Fixpoint splitBy (r : Regex) (skip : nat) (cur s : jsstring)
    : list jsstring :=
  match s with
  | [] => [cur]
  | c :: s' =>
      match skip with
      | S skip' => splitBy r skip' cur s'
      | O =>
          match matchHere r s with
          | Some (S n) => cur :: splitBy r n [] s'
          | _ => splitBy r O (cur ++ [c]) s'
          end
      end
  end.

(** ToBoolean on a string, and [a || b] on a possibly undefined one. *)
Definition nonEmpty (s : jsstring) : bool :=
  match s with [] => false | _ => true end.

Definition orElse (a : option jsstring) (b : jsstring) : jsstring :=
  match a with
  | Some s => if nonEmpty s then s else b
  | None => b
  end.

(** [String.prototype.toUpperCase] on the ASCII range. *)
Definition asciiUpper (s : jsstring) : jsstring :=
  List.map (fun c => if ((97 <=? c) && (c <=? 122))%N then (c - 32)%N else c) s.

Definition isAscii (s : jsstring) : Prop := Forall (fun c => (c < 128)%N) s.

Section PlateText.
(** [toUpperCase] follows the Unicode case mapping; the code only
    depends on it through its result. *)
Variable toUpperCase : jsstring -> jsstring.

Definition normalizePlate (value : jsstring) : jsstring :=
  replaceAll nonAlnumRe [] 0 (toUpperCase value).

Definition cleanedText (rawText : jsstring) : jsstring :=
  replaceAll nonAlnumRe (js " ") 0 (toUpperCase rawText).

Definition condensedText (rawText : jsstring) : jsstring :=
  replaceAll spacesRe [] 0 (cleanedText rawText).

Definition plateCandidates (rawText : jsstring) : list jsstring :=
  filter nonEmpty (splitBy spacesRe 0 [] (cleanedText rawText)).

Definition extractPlate (rawText : jsstring) : jsstring :=
  let condensed := condensedText rawText in
  match search strictRe condensed with
  | Some strict => strict
  | None =>
      match search looseRe condensed with
      | Some loose => loose
      | None =>
          let candidates := plateCandidates rawText in
          orElse (find (testWhole strictRe) candidates)
                 (orElse (find (testWhole looseRe) candidates) [])
      end
  end.
End PlateText.

(** ** The matching policy in the words of the specification *)

(** Exactly 2 letters, 2 digits, 3 letters. *)
Definition strictShape (m : jsstring) : Prop :=
  exists a b c d e f g,
    m = [a; b; c; d; e; f; g] /\
    isUpperAZ a = true /\ isUpperAZ b = true /\
    isDigit c = true /\ isDigit d = true /\
    isUpperAZ e = true /\ isUpperAZ f = true /\ isUpperAZ g = true.

(** An alphanumeric run of length 5 to 8. *)
Definition looseShape (m : jsstring) : Prop :=
  (5 <= List.length m <= 8)%nat /\ Forall (fun c => isAlnum c = true) m.

(** [m] occurs in [s] at offset [i] and has shape [P]. *)
Definition occursAt (P : jsstring -> Prop) (s : jsstring) (i : nat)
    (m : jsstring) : Prop :=
  exists post, s = firstn i s ++ m ++ post /\ (i <= List.length s)%nat /\ P m.

Definition noMatch (P : jsstring -> Prop) (s : jsstring) : Prop :=
  forall i m, ~ occursAt P s i m.

(** First match wins: the leftmost occurrence and, at that offset, the
    longest one. *)
Definition firstMatch (P : jsstring -> Prop) (s m : jsstring) : Prop :=
  exists i,
    occursAt P s i m /\
    (forall j m', (j < i)%nat -> ~ occursAt P s j m') /\
    (forall m', occursAt P s i m' -> (List.length m' <= List.length m)%nat).

(** The first token of a list with a given shape. *)
Definition firstToken (P : jsstring -> Prop) (l : list jsstring)
    (t : jsstring) : Prop :=
  exists before after,
    l = before ++ t :: after /\ P t /\ Forall (fun u => ~ P u) before.

(** The whitespace-split tokens: the maximal runs of [A-Z0-9] of the
    uppercased text. *)
Fixpoint alnumRuns (cur s : jsstring) : list jsstring :=
  match s with
  | [] => match cur with [] => [] | _ => [cur] end
  | c :: s' =>
      if isAlnum c then alnumRuns (cur ++ [c]) s'
      else match cur with
           | [] => alnumRuns [] s'
           | _ => cur :: alnumRuns [] s'
           end
  end.

(* ================================================================== *)
(** * The scan attempt: status, error and timeout of [handleDetectPlate] *)
(* ================================================================== *)

(** ["idle" | "loading" | "success" | "error"] *)
Inductive Status : Type := Idle | Loading | Success | Failed.

(** Where an invocation of [handleDetectPlate] is suspended: at
    [await captureFrame()], in the [try] block before [runOcr] is
    called, or inside [runOcr]; [Done] once it has returned, and
    [NoAttempt] for an invocation that was never made. *)
Inductive Phase : Type :=
  NoAttempt | Capturing | Detecting | Recognising | Done.

(** One invocation of [handleDetectPlate]: where it is suspended, and
    the [plateInput] of the render whose handler was called, which is
    the value that its later lines read. *)
Record Attempt : Type := mkAttempt {
  phase : Phase;
  typed : jsstring
}.

(** The component state that the attempts read and write: the
    invocations of [handleDetectPlate] made so far (oldest first, so
    that several may be suspended at once), the state of the camera
    ([cameraReady], [cameraStartingRef] and the invocations of
    [handleResumeCamera] that wait before [startCamera]), the
    detection fields, the timer handle kept in [ocrTimeoutRef], and
    the scan timeouts pending in the browser (handle, due time in
    ms). *)
Record Page : Type := mkPage {
  clock : N;
  attempts : list Attempt;
  cameraReady : bool;
  cameraStarting : bool;
  resumeWaits : nat;
  ocrStatus : Status;
  ocrError : option string;
  ocrConfidence : option Q;
  detectedPlate : option jsstring;
  plateInput : jsstring;
  ocrTimeoutRef : option nat;
  timers : list (nat * N);
  nextHandle : nat
}.

Definition SCAN_TIMEOUT_MS : N := 15000.

Definition timeoutMessage : string := "Scan timed out. Please try again.".
Definition noPlateMessage : string :=
  "No plate detected. Try again with a clearer shot.".

(** The synchronous blocks that the event loop runs, each from one
    [await] (or from the event that calls the handler) to the next.
    A block of [handleDetectPlate] names the invocation it belongs
    to. *)
Inductive Action : Type :=
| Press                                    (* lines 517-522, to the [await] *)
| Captured (attempt : nat) (snapshot : bool)
                                           (* lines 522-539; is there a frame *)
| DetectThrow (attempt : nat) (message : string)
                                           (* a throw at 540-585, caught at 593-597 *)
| OcrStart (attempt : nat)                 (* [runOcr], lines 472-474 *)
| OcrNoPlate (attempt : nat)               (* lines 498-503 *)
| OcrSuccess (attempt : nat) (plate : jsstring) (confidence : option Q)
                                           (* lines 504-507, then 586-591 *)
| OcrThrow (attempt : nat) (message : string)
                                           (* lines 508-513 *)
| TimerFire (handle : nat)                 (* the callback of 532-535 *)
| Typed (value : jsstring)                 (* [onChange] of the input, line 972 *)
| Resume                                   (* [handleResumeCamera], lines 745-763 *)
| CameraStart                              (* line 765, then 64-66 *)
| CameraStarted                            (* lines 83-84 and 90 *)
| CameraFailed.                            (* lines 86-90 *)

Record Event : Type := mkEvent { time : N; action : Action }.

(** [String.prototype.trim]: white space and line terminators are
    dropped at both ends. *)
Fixpoint trimStart (s : jsstring) : jsstring :=
  match s with
  | c :: s' => if isSpace c then trimStart s' else s
  | [] => []
  end.

Definition trim (s : jsstring) : jsstring :=
  rev (trimStart (rev (trimStart s))).

Definition cancelTimer (handle : nat) (ts : list (nat * N))
    : list (nat * N) :=
  filter (fun t => negb (fst t =? handle)) ts.

Definition dueTime (handle : nat) (ts : list (nat * N)) : option N :=
  option_map snd (find (fun t => fst t =? handle) ts).

Definition setClock (t : N) (p : Page) : Page :=
  mkPage t (attempts p) (cameraReady p) (cameraStarting p) (resumeWaits p)
         (ocrStatus p) (ocrError p) (ocrConfidence p) (detectedPlate p)
         (plateInput p) (ocrTimeoutRef p) (timers p) (nextHandle p).

Definition setAttempts (l : list Attempt) (p : Page) : Page :=
  mkPage (clock p) l (cameraReady p) (cameraStarting p) (resumeWaits p)
         (ocrStatus p) (ocrError p) (ocrConfidence p) (detectedPlate p)
         (plateInput p) (ocrTimeoutRef p) (timers p) (nextHandle p).

Definition setCamera (ready starting : bool) (waits : nat) (p : Page)
    : Page :=
  mkPage (clock p) (attempts p) ready starting waits
         (ocrStatus p) (ocrError p) (ocrConfidence p) (detectedPlate p)
         (plateInput p) (ocrTimeoutRef p) (timers p) (nextHandle p).

Definition setStatus (st : Status) (err : option string) (p : Page) : Page :=
  mkPage (clock p) (attempts p) (cameraReady p) (cameraStarting p)
         (resumeWaits p) st err (ocrConfidence p) (detectedPlate p)
         (plateInput p) (ocrTimeoutRef p) (timers p) (nextHandle p).

Definition setConfidence (c : option Q) (p : Page) : Page :=
  mkPage (clock p) (attempts p) (cameraReady p) (cameraStarting p)
         (resumeWaits p) (ocrStatus p) (ocrError p) c (detectedPlate p)
         (plateInput p) (ocrTimeoutRef p) (timers p) (nextHandle p).

Definition setPlateInput (value : jsstring) (p : Page) : Page :=
  mkPage (clock p) (attempts p) (cameraReady p) (cameraStarting p)
         (resumeWaits p) (ocrStatus p) (ocrError p) (ocrConfidence p)
         (detectedPlate p) value (ocrTimeoutRef p) (timers p) (nextHandle p).

(** [setDetectedPlate(plate); setPlateInput(plate)]. *)
Definition setPlate (plate : jsstring) (p : Page) : Page :=
  mkPage (clock p) (attempts p) (cameraReady p) (cameraStarting p)
         (resumeWaits p) (ocrStatus p) (ocrError p) (ocrConfidence p)
         (Some plate) plate (ocrTimeoutRef p) (timers p) (nextHandle p).

Definition setTimers (ref : option nat) (ts : list (nat * N)) (next : nat)
    (p : Page) : Page :=
  mkPage (clock p) (attempts p) (cameraReady p) (cameraStarting p)
         (resumeWaits p) (ocrStatus p) (ocrError p) (ocrConfidence p)
         (detectedPlate p) (plateInput p) ref ts next.

(** [clearOcrTimeout] (lines 140-145). *)
Definition clearOcrTimeout (p : Page) : Page :=
  match ocrTimeoutRef p with
  | Some handle =>
      setTimers None (cancelTimer handle (timers p)) (nextHandle p) p
  | None => p
  end.

(** [ocrTimeoutRef.current = window.setTimeout(callback, 15000)]; the
    handle is one the browser has not given out before. *)
Definition armTimeout (p : Page) : Page :=
  setTimers (Some (nextHandle p))
            ((nextHandle p, (clock p + SCAN_TIMEOUT_MS)%N) :: timers p)
            (S (nextHandle p)) p.

(** [stopCamera] (lines 94-102), as far as the page state goes. *)
Definition stopCamera (p : Page) : Page :=
  setCamera false (cameraStarting p) (resumeWaits p) p.

(** The invocations of [handleDetectPlate], by the order of their
    calls. *)
Definition phaseOf (p : Page) (attempt : nat) : Phase :=
  match nth_error (attempts p) attempt with
  | Some a => phase a
  | None => NoAttempt
  end.

Definition typedOf (p : Page) (attempt : nat) : jsstring :=
  match nth_error (attempts p) attempt with
  | Some a => typed a
  | None => []
  end.

Fixpoint setPhaseAt (attempt : nat) (ph : Phase) (l : list Attempt)
    : list Attempt :=
  match l, attempt with
  | [], _ => []
  | a :: l', O => mkAttempt ph (typed a) :: l'
  | a :: l', S n => a :: setPhaseAt n ph l'
  end.

Definition setPhase (attempt : nat) (ph : Phase) (p : Page) : Page :=
  setAttempts (setPhaseAt attempt ph (attempts p)) p.

Definition isLoading (st : Status) : bool :=
  match st with Loading => true | _ => false end.

(** The synchronous block of [handleResumeCamera] (lines 745-763):
    the camera is stopped, the timeout is cleared and the detection
    fields go back to their initial values; the handler then waits
    before it calls [startCamera].  An invocation of
    [handleDetectPlate] that is suspended stays suspended where it
    is. *)
Definition handleResumeCamera (p : Page) : Page :=
  let p := clearOcrTimeout (stopCamera p) in
  mkPage (clock p) (attempts p) (cameraReady p) (cameraStarting p)
         (S (resumeWaits p)) Idle None None None []
         (ocrTimeoutRef p) (timers p) (nextHandle p).

Section ScanAttempt.
Variable toUpperCase : jsstring -> jsstring.

(** One block, run on the page at the time of the event.  The guards
    of [handleDetectPlate] read [ocrStatus] and [cameraReady] of the
    last render, which is the current state whenever the page has
    rendered since the last block. *)
Definition runAction (a : Action) (p : Page) : option Page :=
  match a with
  | Press =>
      if isLoading (ocrStatus p) || negb (cameraReady p) then Some p
      else Some (setAttempts
                   (attempts p ++ [mkAttempt Capturing (plateInput p)]) p)
  | Captured attempt snapshot =>
      match phaseOf p attempt with
      | Capturing =>
          let trimmed := normalizePlate toUpperCase (trim (typedOf p attempt)) in
          if nonEmpty trimmed
          then Some (setPhase attempt Done (setPlate trimmed p))
          else if snapshot
          then Some (setPhase attempt Detecting
                       (stopCamera
                          (armTimeout
                             (clearOcrTimeout (setStatus Loading None p)))))
          else Some (setPhase attempt Done p)
      | _ => None
      end
  | DetectThrow attempt message =>
      match phaseOf p attempt with
      | Detecting =>
          Some (setPhase attempt Done
                  (clearOcrTimeout (setStatus Failed (Some message) p)))
      | _ => None
      end
  | OcrStart attempt =>
      match phaseOf p attempt with
      | Detecting =>
          Some (setPhase attempt Recognising
                  (setConfidence None (setStatus Loading None p)))
      | _ => None
      end
  | OcrNoPlate attempt =>
      match phaseOf p attempt with
      | Recognising =>
          Some (setPhase attempt Done
                  (clearOcrTimeout
                     (setStatus Failed (Some noPlateMessage) p)))
      | _ => None
      end
  | OcrSuccess attempt plate confidence =>
      match phaseOf p attempt with
      | Recognising =>
          let p' := clearOcrTimeout
                      (setConfidence confidence
                         (setStatus Success (ocrError p) p)) in
          let ocrResult := normalizePlate toUpperCase plate in
          Some (setPhase attempt Done
                  (if nonEmpty ocrResult then setPlate ocrResult p' else p'))
      | _ => None
      end
  | OcrThrow attempt message =>
      match phaseOf p attempt with
      | Recognising =>
          Some (setPhase attempt Done
                  (clearOcrTimeout (setStatus Failed (Some message) p)))
      | _ => None
      end
  | TimerFire handle =>
      match dueTime handle (timers p) with
      | Some due =>
          if (clock p <? due)%N then None
          else
            Some (setStatus Failed (Some timeoutMessage)
                    (setTimers (ocrTimeoutRef p)
                               (cancelTimer handle (timers p))
                               (nextHandle p) p))
      | None => None
      end
  | Typed value => Some (setPlateInput value p)
  | Resume => Some (handleResumeCamera p)
  | CameraStart =>
      match resumeWaits p with
      | S waits =>
          Some (setCamera (cameraReady p) true waits p)
      | O => None
      end
  | CameraStarted =>
      if cameraStarting p
      then Some (setCamera true false (resumeWaits p) p)
      else None
  | CameraFailed =>
      if cameraStarting p
      then Some (setCamera (cameraReady p) false (resumeWaits p) p)
      else None
  end.

(** An event happens at its time, not before the last one. *)
Definition step (p : Page) (e : Event) : option Page :=
  if (time e <? clock p)%N then None
  else runAction (action e) (setClock (time e) p).

(** A run: the pages reached after each event, [None] when an event
    cannot happen. *)
Fixpoint run (p : Page) (es : list Event) : option (list Page) :=
  match es with
  | [] => Some []
  | e :: es' =>
      match step p e with
      | Some p' => option_map (cons p') (run p' es')
      | None => None
      end
  end.
End ScanAttempt.

(** A page whose camera is ready and on which nothing has happened
    yet. *)
Definition idlePage (t : N) : Page :=
  mkPage t [] true false 0 Idle None None None [] None [] 1.


(** Some invocation is suspended in [handleDetectPlate] after the scan
    has begun, or in [runOcr]. *)
Definition running (p : Page) : Prop :=
  exists attempt,
    phaseOf p attempt = Detecting \/ phaseOf p attempt = Recognising.


(** The blocks that end in [clearOcrTimeout()] without arming a new
    timeout: the end of any scan, and [handleResumeCamera]. *)
Definition clearsTimeout (a : Action) : bool :=
  match a with
  | DetectThrow _ _ | OcrNoPlate _ | OcrSuccess _ _ _ | OcrThrow _ _
  | Resume => true
  | _ => false
  end.

(** At most one timeout is pending: the one whose handle
    [ocrTimeoutRef] holds, and only while a scan is suspended. *)
Definition timerTracked (p : Page) : Prop :=
  match timers p with
  | [] => True
  | [(h, _)] => ocrTimeoutRef p = Some h /\ running p
  | _ => False
  end.

(** No timeout can fire on the page, now or later. *)
Definition noTimeoutAhead (toUpperCase : jsstring -> jsstring) (p : Page)
    : Prop :=
  forall t h, step toUpperCase p (mkEvent t (TimerFire h)) = None.


(** Two presses before the first frame is there: both invocations go
    on to scan, and the second start clears the timeout of the
    first. *)
Definition twoScans : list Event :=
  [ mkEvent 0 Press;
    mkEvent 10 Press;
    mkEvent 40 (Captured 0 true);
    mkEvent 50 (Captured 1 true);
    mkEvent 1000 (OcrStart 0);
    mkEvent 1500 (OcrNoPlate 0);
    mkEvent 2000 (DetectThrow 1 "Unable to read camera frame.") ].



(** A page on which a recognition is suspended, its timeout pending. *)
Definition recognisingPage : Page :=
  mkPage 1200 [mkAttempt Recognising []] false false 0
         Loading None None None [] (Some 1) [(1, 15040%N)] 2.

(* ================================================================== *)
(** * Notions used to state the properties *)
(* ================================================================== *)

(** ** Boxes with finite rational corners *)

Definition qbox (x1 y1 x2 y2 : Q) : list (ext Q) :=
  [Fin x1; Fin y1; Fin x2; Fin y2].

(** Area of a box, zero when it is degenerate. *)
Definition boxArea (x1 y1 x2 y2 : Q) : Q :=
  (Qmax 0 (x2 - x1) * Qmax 0 (y2 - y1))%Q.

(** Area of the intersection of two boxes. *)
Definition overlapArea (a1 b1 a2 b2 c1 d1 c2 d2 : Q) : Q :=
  boxArea (Qmax a1 c1) (Qmax b1 d1) (Qmin a2 c2) (Qmin b2 d2).

(** A box whose sides are half a pixel long. *)
Definition halfPixelBox : list (ext Q) := qbox 0 0 (1 # 2) (1 # 2).

(** Three candidates, the first two overlapping. *)
Definition sampleCandidates : list (@Candidate (ext Q)) :=
  [ {| box := [Fin 0%Q; Fin 0%Q; Fin 10%Q; Fin 10%Q]; score := Fin (1 # 2)%Q |};
    {| box := [Fin 1%Q; Fin 1%Q; Fin 11%Q; Fin 11%Q]; score := Fin (9 # 10)%Q |};
    {| box := [Fin 50%Q; Fin 50%Q; Fin 60%Q; Fin 60%Q]; score := Fin (7 # 10)%Q |} ].

(** Three candidates of which the second, which overlaps the first,
    has the score [NaN]. *)
Definition lowScored : @Candidate (ext Q) :=
  {| box := [Fin 0%Q; Fin 0%Q; Fin 10%Q; Fin 10%Q]; score := Fin 1%Q |}.

Definition nanScoredOne : @Candidate (ext Q) :=
  {| box := [Fin 1%Q; Fin 1%Q; Fin 11%Q; Fin 11%Q]; score := NaN |}.

Definition highScored : @Candidate (ext Q) :=
  {| box := [Fin 50%Q; Fin 50%Q; Fin 60%Q; Fin 60%Q]; score := Fin 2%Q |}.

Definition nanScored : list (@Candidate (ext Q)) :=
  [lowScored; nanScoredOne; highScored].

(** Detector tables: all zeros, and entry [(i, c)] equal to
    [(10 i + c) / 100]. *)
Definition zeroTable : nat -> nat -> ext Q := fun _ _ => Fin 0%Q.

Definition sampleTable : nat -> nat -> ext Q :=
  fun i c => Fin (inject_Z (Z.of_nat (10 * i + c)) / 100)%Q.

(** ** Round trip through the letterbox transform *)

(** Inverse mapping of a detection box, then the forward mapping. *)
Definition roundTrip {F} `{JsNum F} (image : Image) (prepared : Prepared)
    (b : list F) : list F :=
  forwardMap prepared (cropBox image prepared b).

(** Two boxes agree within one pixel in each component. *)
Definition withinOnePixel (a b : list (ext Q)) : Prop :=
  Forall2 (fun x y =>
             match x, y with
             | Fin p, Fin q => (Qabs (p - q) <= 1)%Q
             | _, _ => False
             end) a b.

(** A square image of 100 pixels and its transform record for a
    640 x 640 detector input. *)
Definition squareImage : Image := mkImage 100 100.

Definition squarePrepared : Prepared (F := ext Q) :=
  {| scale := Fin (640 # 100)%Q; padX := Fin 0%Q; padY := Fin 0%Q;
     width := 640; height := 640 |}.

(** A box with its corners brought into the letterboxed image area,
    which reaches from the pads over the scaled width [w] and height
    [h]: low corners raised to the pads, high corners lowered to the
    far edges. *)
Definition clampToArea (px py w h : Q) (b0 b1 b2 b3 : Q) : list (ext Q) :=
  qbox (Qmax px b0) (Qmax py b1) (Qmin (px + w) b2) (Qmin (py + h) b3).

(** A detection that reaches ten pixels past the top-left corner. *)
Definition overhangingBox : list (ext Q) := qbox (-10) (-10) 50 50.

(** ** What the OCR decoder emits, slot by slot *)

Section OcrSlots.
Context {F : Type} `{JsNum F}.
Local Open Scope js_scope.

Variable data : list F.
Variable layout : Layout.
Variables slots classes : nat.

(** The alphabet character of the arg-max class of a slot. *)
Definition slotChar (slot : nat) : jsstring :=
  alphabetChar (snd (slotArgmax data layout slots classes slot)).

(** The slot decodes to the padding symbol. *)
Definition isPadSlot (slot : nat) : bool := jsstring_eqb (slotChar slot) OCR_PAD.

(** The characters a slot contributes to the text. *)
Definition emitted (slot : nat) : jsstring :=
  if isPadSlot slot then [] else slotChar slot.

(** The confidences of the slots in [l], added up in that order from
    zero. *)
Definition confidenceTotal (l : list nat) : F :=
  fold_left
    (fun sum slot => sum + slotConfidence data layout slots classes slot)
    l (lit 0).
End OcrSlots.

(** ** The softmax denominator over the reals *)

(** [sum over c in l of exp(s c - top)], added to [a] from the left. *)
Definition expTotal (s : nat -> R) (top : R) (l : list nat) (a : R) : R :=
  fold_left (fun acc c => (acc + Rtrigo_def.exp (s c - top))%R) l a.

(** Every class other than [top] scores at least [m] below it. *)
Definition marginAtLeast (s : nat -> R) (classes top : nat) (m : R) : Prop :=
  forall cls, cls < classes -> cls <> top -> (s cls <= s top - m)%R.

(** The raw scores of one slot are the finite numbers [s 0], [s 1],
    ... *)
Definition slotScores (data : list (ext R)) (layout : Layout)
    (slots classes slot : nat) (s : nat -> R) : Prop :=
  forall cls, cls < classes ->
    at_ data (ocrIndex layout slots classes slot cls) = Fin (s cls).

(** A one-slot output in which every class scores zero. *)
Definition flatSlot : list (ext R) := repeat (Fin 0%R) 37.

(** ** Runs of a character class *)

(** Length of the longest prefix of [s] made of class [p], capped at
    [budget]. *)
Fixpoint classRun (p : N -> bool) (budget : nat) (s : jsstring) : nat :=
  match budget, s with
  | S budget', c :: s' => if p c then S (classRun p budget' s') else 0
  | _, _ => 0
  end.

(** [m] is a prefix of [s] of shape [P]. *)
Definition prefixMatch (P : jsstring -> Prop) (s m : jsstring) : Prop :=
  exists post, s = m ++ post /\ P m.

(** What [matchHere] must return for a regular expression that
    recognises shape [P]: the length of the longest prefix of that
    shape, if there is one. *)
Definition recognises (r : Regex) (P : jsstring -> Prop) : Prop :=
  forall s,
    match matchHere r s with
    | Some n =>
        prefixMatch P s (firstn n s) /\
        (forall m, prefixMatch P s m -> List.length m <= n)
    | None => forall m, ~ prefixMatch P s m
    end.

(** The strict pattern, tested on the first seven code units. *)
Definition strictPrefix (s : jsstring) : bool :=
  match s with
  | a :: b :: c :: d :: e :: f :: g :: _ =>
      isUpperAZ a && isUpperAZ b && isDigit c && isDigit d
      && isUpperAZ e && isUpperAZ f && isUpperAZ g
  | _ => false
  end.

(** What cleaning does to one code unit: anything outside [A-Z0-9]
    becomes a space. *)
Definition blankOut (c : N) : N := if isAlnum c then c else 32%N.

(** A piece is kept when it is not empty. *)
Definition keepNonEmpty (cur : jsstring) (l : list jsstring) : list jsstring :=
  match cur with [] => l | _ => cur :: l end.

(** ** Detections

    A decoded region: four coordinates and a score that the threshold
    test let through. *)
Definition wellFormedDetection {F} `{JsNum F} (scoreThreshold : F)
    (d : Candidate) : Prop :=
  List.length (box d) = 4 /\ ltb (score d) scoreThreshold = false.

(** A score that is a real number in (0, 1]. *)
Definition unitScore (d : @Candidate (ext R)) : Prop :=
  exists s : R, score d = Fin s /\ (0 < s <= 1)%R.

(** A detector table with finite real entries. *)
Definition realTable (r : nat -> nat -> R) : nat -> nat -> ext R :=
  fun i c => Fin (r i c).

(* ================================================================== *)
(** * Frame capture, plate crop and pixel buffers *)
(* ================================================================== *)

(** [video.videoWidth] and [.videoHeight]: non-negative integers, zero
    as long as the stream has no data. *)
Record Video : Type := mkVideo { videoWidth : Z; videoHeight : Z }.

(** A write [a[i] = v] into a typed array: ignored past the end. *)
Fixpoint setAt {A} (i : nat) (v : A) (a : list A) : list A :=
  match a, i with
  | [], _ => []
  | _ :: a', O => v :: a'
  | x :: a', S i' => x :: setAt i' v a'
  end.

Section Capture.
Context {F : Type} `{JsNum F}.
Local Open Scope js_scope.

(** [a || b] on numbers. *)
Definition orNumber (a b : F) : F := if truthy a then a else b.

(** The canvas size that [captureFrame] computes (lines 116-122); the
    three-argument [Math.min] is the binary one applied twice. *)
Definition captureFrameSize (video : Video) : F * F :=
  let sourceWidth := orNumber (of_Z (videoWidth video)) (lit 1280) in
  let sourceHeight := orNumber (of_Z (videoHeight video)) (lit 720) in
  let maxWidth := lit 960 in
  let maxHeight := lit 540 in
  let scale :=
    min (min (maxWidth / sourceWidth) (maxHeight / sourceHeight)) (lit 1) in
  let width := round (sourceWidth * scale) in
  let height := round (sourceHeight * scale) in
  (width, height).

(** [captureFrame] (lines 112-135): the width and height of the frame
    that is encoded, [None] for [null].  [video] is [videoRef.current];
    [canvas], [context] and [blob] tell whether there is a canvas,
    whether it gave a 2d context and whether [toBlob] gave an image. *)
Definition captureFrame (video : option Video) (canvas context blob : bool)
    : option (F * F) :=
  match video with
  | None => None
  | Some video =>
      if negb canvas then None
      else
        let size := captureFrameSize video in
        if negb context then None
        else if negb blob then None
        else Some size
  end.

(** [cropPlate] (lines 348-364): the source rectangle handed to
    [drawImage] and the size of the canvas it is drawn on.  [ctx] and
    [blob] tell whether the canvas gave a context and an encoding;
    without either the function returns [null].  The sides of the
    canvas are read back from [canvas.width] and [canvas.height],
    attributes of type [unsigned long]: [unsignedLong] is the
    conversion that a number stored in them goes through. *)
Variable unsignedLong : F -> F.

Record Crop : Type := mkCrop {
  crop_x : F;
  crop_y : F;
  crop_width : F;
  crop_height : F;
  canvas_width : F;
  canvas_height : F
}.

Definition cropPlate (ctx blob : bool) (box : list F) : option Crop :=
  let x1 := at_ box 0 in
  let y1 := at_ box 1 in
  let x2 := at_ box 2 in
  let y2 := at_ box 3 in
  let width := max (lit 1) (x2 - x1) in
  let height := max (lit 1) (y2 - y1) in
  if negb ctx then None
  else if negb blob then None
  else Some {| crop_x := x1; crop_y := y1;
               crop_width := width; crop_height := height;
               canvas_width := unsignedLong (round width);
               canvas_height := unsignedLong (round height) |}.

(** The conversion that a typed array applies to a number stored in it
    (to an unsigned byte, or to a 32-bit float). *)
Variable store : F -> F.

(** One turn of the pixel loop of [prepareDetectorInput] (lines
    213-224) on the RGBA bytes [data]: [i = 4 k], [idx = k]. *)
Definition detectorPixel (useUint8 : bool) (width height : nat)
    (data input : list F) (k : nat) : list F :=
  let i := (4 * k)%nat in
  let idx := k in
  let value (j : nat) :=
    if useUint8 then at_ data j else at_ data j / lit 255 in
  setAt (idx + 2 * width * height)%nat (store (value (i + 2)%nat))
    (setAt (idx + width * height)%nat (store (value (i + 1)%nat))
       (setAt idx (store (value i)) input)).

(** The buffer [input] of [prepareDetectorInput] (lines 209-224), from
    the bytes [data] of the canvas: zero-filled, then written for
    [i = 0, 4, 8, ...] below [data.length]. *)
Definition prepareDetectorInput_input (useUint8 : bool) (width height : nat)
    (data : list F) : list F :=
  fold_left (detectorPixel useUint8 width height data)
            (seq 0 ((List.length data + 3) / 4))
            (repeat (lit 0) (3 * width * height)).

(** One turn of the pixel loop of [prepareOcrInput] (lines 390-398). *)
Definition ocrPixel (useUint8 : bool) (data input : list F) (k : nat)
    : list F :=
  let i := (4 * k)%nat in
  let idx := k in
  let r := at_ data i in
  let g := at_ data (i + 1)%nat in
  let b := at_ data (i + 2)%nat in
  let toValue (value : F) := if useUint8 then value else value / lit 255 in
  let gray := lit (299 # 1000) * r + lit (587 # 1000) * g
              + lit (114 # 1000) * b in
  setAt idx (store (toValue gray)) input.

(** The buffer [input] of [prepareOcrInput] (lines 385-399), of
    [channels * pixelCount] entries with [channels = 1]; the source
    takes [targetWidth] and [targetHeight] from [OCR_INPUT]. *)
Definition prepareOcrInput_input (useUint8 : bool)
    (targetWidth targetHeight : nat)
    (data : list F) : list F :=
  let channels := 1%nat in
  let pixelCount := (targetWidth * targetHeight)%nat in
  fold_left (ocrPixel useUint8 data)
            (seq 0 ((List.length data + 3) / 4))
            (repeat (lit 0) (channels * pixelCount)).
End Capture.

(** ** Notions for the pixel buffers *)

(** An 8-bit colour component. *)
Definition isByte (x : ext Q) : Prop :=
  exists z : Z, x = Fin (inject_Z z) /\ (0 <= z <= 255)%Z.

(** ** Notions for the OCR grid *)

(** Every cell of the grid that the decoder reads is a finite number. *)
Definition finiteCells (data : list (ext R)) (layout : Layout)
    (slots classes : nat) : Prop :=
  forall slot cls, slot < slots -> cls < classes ->
    exists v : R, at_ data (ocrIndex layout slots classes slot cls) = Fin v.

(** The finite value of a cell, zero for a cell that has none. *)
Definition cellValue (data : list (ext R)) (layout : Layout)
    (slots classes slot cls : nat) : R :=
  match at_ data (ocrIndex layout slots classes slot cls) with
  | Fin v => v
  | _ => 0%R
  end.

(* ================================================================== *)
(** * Vehicle lookup: [handleLookup] and the route [/api/dvla] *)
(* ================================================================== *)

(** The request that the route sends to the VES API (lines 31-39). *)
Record DvlaCall : Type := mkDvlaCall {
  call_url : string;
  call_key : string;
  registrationNumber : jsstring
}.

(** The JSON body of the route's answer: an [{ error }] object of its
    own, or the body of the upstream answer ([None] when that was not
    JSON and [{}] took its place). *)
Inductive DvlaBody (J : Type) : Type :=
| ErrorBody (error : string)
| Forwarded (data : option J).

Arguments ErrorBody {J} _.
Arguments Forwarded {J} _.

Record DvlaResponse (J : Type) : Type := mkDvlaResponse {
  dvla_status : nat;
  dvla_body : DvlaBody J
}.

(** The member [registration] of the request body as the route uses
    it: missing ([undefined] or [null], which [?? ""] replaces), a
    string, or any other JSON value. *)
Inductive Member : Type :=
| Missing
| Text (value : jsstring)
| NotText.

(** The body of a request to the route: not JSON at all, the JSON
    value [null], or any other JSON value, of which only the member
    [registration] matters (a number, a string, a boolean and an array
    have none). *)
Inductive RequestBody : Type :=
| NotJson
| JsonNull
| Json (registration : Member).

(** The string that [rawRegistration] holds when the handler gets as
    far as normalizing it. *)
Definition rawRegistrationOf (body : RequestBody) : option jsstring :=
  match body with
  | NotJson | Json Missing => Some []
  | Json (Text r) => Some r
  | JsonNull | Json NotText => None
  end.

(** [!value] on an environment variable: unset or empty. *)
Definition configured (value : option string) : option string :=
  match value with
  | Some s => if (s =? "")%string then None else Some s
  | None => None
  end.

Section DvlaRoute.
Variable toUpperCase : jsstring -> jsstring.
Variable J : Type.

(** Whether [NextResponse.json] accepts a status; it throws on the
    others. *)
Variable jsonAccepts : nat -> bool.

(** The VES API as [fetch] sees it: the call throws ([None]) or is
    answered with a status and a body. *)
Variable upstream : DvlaCall -> option (nat * option J).

(** What the route does once [rawRegistration] is a string (lines
    12-48): the upstream calls made and the answer. *)
Definition respond (DVLA_API_URL DVLA_API_KEY : option string)
    (rawRegistration : jsstring) : list DvlaCall * DvlaResponse J :=
  let normalizedRegistration :=
    replaceAll nonAlnumRe [] 0 (toUpperCase rawRegistration) in
  if negb (nonEmpty normalizedRegistration)
  then ([], mkDvlaResponse 400 (ErrorBody "Registration is required."))
  else
    match configured DVLA_API_URL, configured DVLA_API_KEY with
    | Some url, Some key =>
        let call := mkDvlaCall (url ++ "/vehicles") key
                               normalizedRegistration in
        ([call],
         match upstream call with
         | Some (status, data) =>
             if jsonAccepts status
             then mkDvlaResponse status (Forwarded data)
             else mkDvlaResponse 502
                    (ErrorBody "Unable to reach DVLA VES API.")
         | None =>
             mkDvlaResponse 502 (ErrorBody "Unable to reach DVLA VES API.")
         end)
    | _, _ =>
        ([], mkDvlaResponse 501 (ErrorBody "DVLA VES API is not configured."))
    end.

(** [POST] of [src/app/api/dvla/route.ts]: the upstream calls made and
    the answer, [None] when the handler throws and gives none of its
    own (the framework then answers in its place).  A body that is not
    JSON is replaced by [{}] (line 7).
    [payload.registration] throws on the body [null], and
    [rawRegistration.toUpperCase()] throws on a member that is neither
    a string nor missing (lines 11-14, outside the [try]). *)
Definition POST (DVLA_API_URL DVLA_API_KEY : option string)
    (body : RequestBody) : list DvlaCall * option (DvlaResponse J) :=
  let payload := match body with NotJson => Json Missing | _ => body end in
  match payload with
  | Json Missing =>
      let result := respond DVLA_API_URL DVLA_API_KEY [] in
      (fst result, Some (snd result))
  | Json (Text rawRegistration) =>
      let result := respond DVLA_API_URL DVLA_API_KEY rawRegistration in
      (fst result, Some (snd result))
  | Json NotText | JsonNull | NotJson => ([], None)
  end.
End DvlaRoute.

(** What [fetch("/api/dvla")] and reading its body come to in
    [handleLookup]. *)
Inductive LookupOutcome (V : Type) : Type :=
| FetchThrows (message : string)        (* [fetch] rejects *)
| NotOk (error : option string)         (* [!response.ok]; [payload?.error] *)
| OkPayload (payload : V)               (* the vehicle record *)
| OkUnreadable (message : string).      (* [response.json()] rejects *)

Arguments FetchThrows {V} _.
Arguments NotOk {V} _.
Arguments OkPayload {V} _.
Arguments OkUnreadable {V} _.

Record Lookup (V : Type) : Type := mkLookup {
  lookupStatus : Status;
  lookupError : option string;
  vehicleData : option V
}.

Definition noRegistrationMessage : string :=
  "Enter or detect a registration before lookup.".
Definition lookupFailedMessage : string :=
  "DVLA lookup failed. Check API credentials and try again.".

Section HandleLookup.
Variable toUpperCase : jsstring -> jsstring.
Variable V : Type.

(** The route as the page sees it, by the registration sent. *)
Variable fetchDvla : jsstring -> LookupOutcome V.

(** [handleLookup] (lines 601-634): the registrations sent to the
    route and the lookup state once the handler is done. *)
Definition handleLookup (detectedPlate : option jsstring)
    (plateInput : jsstring) (s : Lookup V) : list jsstring * Lookup V :=
  let registration :=
    normalizePlate toUpperCase (orElse detectedPlate plateInput) in
  if negb (nonEmpty registration)
  then ([], mkLookup Failed (Some noRegistrationMessage) (vehicleData s))
  else
    ([registration],
     match fetchDvla registration with
     | OkPayload payload => mkLookup Success None (Some payload)
     | NotOk error =>
         let message :=
           match error with
           | Some m => if (m =? "")%string then lookupFailedMessage else m
           | None => lookupFailedMessage
           end in
         mkLookup Failed (Some message) None
     | FetchThrows message | OkUnreadable message =>
         mkLookup Failed (Some message) None
     end).
End HandleLookup.

(** [infoData] (lines 636-641): the vehicle record that the page shows,
    shares and saves.  [vehicleData] is [None] for the [null] that the
    page itself stores; [truthyV] tells whether a stored answer is
    truthy (any object is; [null], [0], [false] and the empty string,
    which a JSON answer may also be, are not). *)
Definition infoData {V : Type} (truthyV : V -> bool) (s : Lookup V)
    : option V :=
  match lookupStatus s, vehicleData s with
  | Success, Some v => if truthyV v then Some v else None
  | _, _ => None
  end.

(** ** Notions for the remaining properties *)

(** A region that a tensor of missing values decodes to. *)
Definition nanCandidate : @Candidate (ext Q) :=
  {| box := [NaN; NaN; NaN; NaN]; score := NaN |}.

(** Every entry of the tensor that is read is missing or NaN. *)
Definition allNaN (data : list (ext Q)) : Prop :=
  forall i, at_ data i = NaN.

(* ================================================================== *)
(** * Properties of the detector decoder *)
(* ================================================================== *)

Lemma fold_left_ext_in {A B} (f g : A -> B -> A) (l : list B) (a : A) :
  (forall acc x, In x l -> f acc x = g acc x) ->
  fold_left f l a = fold_left g l a.
Proof.
  revert a. induction l as [|x l IH]; intros a Hfg; simpl.
  - reflexivity.
  - rewrite Hfg by (left; reflexivity).
    apply IH. intros acc y Hy. apply Hfg. right. exact Hy.
Qed.

Section NmsFacts.
Context {F : Type} `{JsNum F}.
Local Open Scope js_scope.

Lemma nms_loop_app fuel threshold sorted selected :
  nms_loop fuel threshold sorted selected
  = selected ++ nms_loop fuel threshold sorted [].
Proof.
  revert sorted selected.
  induction fuel as [|fuel IH]; intros sorted selected; simpl.
  - now rewrite app_nil_r.
  - destruct sorted as [|current rest].
    + now rewrite app_nil_r.
    + rewrite IH. rewrite (IH _ [current]).
      now rewrite <- app_assoc.
Qed.

Lemma suppress_length threshold current rest :
  List.length (suppress threshold current rest) <= List.length rest.
Proof. apply filter_length_le. Qed.

(** More fuel than [sorted.length] changes nothing: the loop has
    stopped by then. *)
Lemma nms_loop_fuel_irrelevant fuel fuel' threshold sorted selected :
  List.length sorted <= fuel ->
  List.length sorted <= fuel' ->
  nms_loop fuel threshold sorted selected
  = nms_loop fuel' threshold sorted selected.
Proof.
  revert fuel' sorted selected.
  induction fuel as [|fuel IH]; intros fuel' sorted selected Hlen Hlen'.
  - destruct sorted; [|simpl in Hlen; lia].
    destruct fuel'; reflexivity.
  - destruct sorted as [|current rest].
    + destruct fuel'; reflexivity.
    + simpl in Hlen, Hlen'.
      destruct fuel' as [|fuel']; [lia|]. simpl.
      pose proof (suppress_length threshold current rest) as Hs.
      apply IH; lia.
Qed.

Lemma nms_loop_fuel fuel threshold sorted selected :
  List.length sorted <= fuel ->
  nms_loop fuel threshold sorted selected
  = nms_loop (List.length sorted) threshold sorted selected.
Proof.
  intros Hlen. apply nms_loop_fuel_irrelevant; [exact Hlen | lia].
Qed.

Lemma nms_loop_cons fuel threshold current rest :
  nms_loop (S fuel) threshold (current :: rest) []
  = current :: nms_loop fuel threshold (suppress threshold current rest) [].
Proof. simpl. now rewrite nms_loop_app. Qed.

Lemma StronglySorted_filter {A} (R : A -> A -> Prop) (p : A -> bool) l :
  StronglySorted R l -> StronglySorted R (filter p l).
Proof.
  induction 1 as [|x l Hs IH Hx]; simpl.
  - constructor.
  - destruct (p x).
    + constructor; [exact IH|].
      rewrite Forall_forall in *. intros y Hy.
      apply filter_In in Hy. apply Hx. tauto.
    + exact IH.
Qed.

(** What the selection loop returns: entries of [sorted], in the same
    order, no later one overlapping an earlier one. *)
Lemma nms_loop_selected threshold fuel :
  forall sorted,
    StronglySorted inOrder sorted ->
    let out := nms_loop fuel threshold sorted [] in
    StronglySorted inOrder out /\
    StronglySorted (apart threshold) out /\
    (forall c, In c out -> In c sorted).
Proof.
  induction fuel as [|fuel IH]; intros sorted Hs.
  - simpl. repeat split; try constructor. intros c [].
  - destruct sorted as [|current rest].
    + simpl. repeat split; try constructor. intros c [].
    + cbv zeta. rewrite nms_loop_cons.
      inversion Hs as [|? ? Hrest Hcur]; subst.
      destruct (IH (suppress threshold current rest)) as (Ho & Ha & Hin).
      { apply StronglySorted_filter. exact Hrest. }
      cbv zeta in Ho, Ha, Hin.
      repeat split.
      * constructor; [exact Ho|].
        rewrite Forall_forall in *. intros c Hc.
        apply Hin in Hc. apply filter_In in Hc. apply Hcur. tauto.
      * constructor; [exact Ha|].
        rewrite Forall_forall. intros c Hc.
        apply Hin in Hc. apply filter_In in Hc.
        destruct Hc as [_ Hc]. unfold apart, overlaps.
        now apply negb_true_iff in Hc.
      * intros c [Hc|Hc]; [left; exact Hc|].
        right. apply Hin in Hc. apply filter_In in Hc. tauto.
Qed.

(** On a list without overlaps the loop selects everything. *)
Lemma nms_loop_apart threshold l :
  StronglySorted (apart threshold) l ->
  nms_loop (List.length l) threshold l [] = l.
Proof.
  induction 1 as [|x l Hs IH Hx].
  - reflexivity.
  - cbn [List.length]. rewrite nms_loop_cons.
    assert (Hkeep : suppress threshold x l = l).
    { unfold suppress. apply forallb_filter_id.
      apply forallb_forall. intros c Hc.
      rewrite Forall_forall in Hx. specialize (Hx c Hc).
      unfold apart, overlaps in Hx. now rewrite Hx. }
    rewrite Hkeep. now rewrite IH.
Qed.

Lemma insertBy_In {A} (cmp : A -> A -> F) x l z :
  In z (insertBy cmp x l) -> z = x \/ In z l.
Proof.
  induction l as [|y l IH]; simpl.
  - intros [Hz|[]]. left. now symmetry.
  - destruct (cmp y x >? lit 0); simpl.
    + intros [Hz|[Hz|Hz]]; auto.
    + intros [Hz|Hz]; auto. destruct (IH Hz); auto.
Qed.

(** Insertion keeps a list in order when the comparator is
    consistent. *)
Lemma insertBy_inOrder x l :
  consistentScores ->
  StronglySorted inOrder l ->
  StronglySorted inOrder (insertBy byScoreDesc x l).
Proof.
  intros [Hirr Htr]. induction 1 as [|y l Hs IH Hy]; simpl.
  - repeat constructor.
  - destruct (byScoreDesc y x >? lit 0) eqn:Hyx.
    + constructor; [constructor; assumption|].
      assert (Hxy : inOrder x y).
      { unfold inOrder, sortsAfter, byScoreDesc in *.
        destruct (score y - score x >? lit 0) eqn:E; [|reflexivity].
        pose proof (Htr _ _ _ E Hyx) as Hc. now rewrite Hirr in Hc. }
      constructor; [exact Hxy|].
      rewrite Forall_forall in *. intros z Hz. specialize (Hy z Hz).
      unfold inOrder, sortsAfter, byScoreDesc in *.
      destruct (score z - score x >? lit 0) eqn:E; [|reflexivity].
      pose proof (Htr _ _ _ Hyx E) as Hc. now rewrite Hy in Hc.
    + constructor; [exact IH|].
      rewrite Forall_forall in *. intros z Hz.
      apply insertBy_In in Hz. destruct Hz as [->|Hz]; [exact Hyx|].
      now apply Hy.
Qed.

Lemma sortBy_inOrder l :
  consistentScores -> StronglySorted inOrder (sortBy byScoreDesc l).
Proof.
  intros Hc. unfold sortBy.
  assert (Hgen : forall acc, StronglySorted inOrder acc ->
            StronglySorted inOrder
              (fold_left (fun acc x => insertBy byScoreDesc x acc) l acc)).
  { induction l as [|x l IH]; intros acc Hacc; simpl.
    - exact Hacc.
    - apply IH. now apply insertBy_inOrder. }
  apply Hgen. constructor.
Qed.

Lemma insertBy_last x l :
  Forall (fun y => inOrder y x) l -> insertBy byScoreDesc x l = l ++ [x].
Proof.
  induction 1 as [|y l Hy Hl IH]; simpl.
  - reflexivity.
  - unfold inOrder, sortsAfter in Hy. rewrite Hy. now rewrite IH.
Qed.

Lemma StronglySorted_app_inv {A} (R : A -> A -> Prop) l1 l2 :
  StronglySorted R (l1 ++ l2) ->
  StronglySorted R l1 /\
  (forall a b, In a l1 -> In b l2 -> R a b).
Proof.
  induction l1 as [|y l1 IH]; simpl; intros Hs.
  - split; [constructor | intros a b []].
  - inversion Hs as [|? ? Hl Hy]; subst.
    destruct (IH Hl) as [Hl' Hx]. rewrite Forall_forall in Hy. split.
    + constructor; [exact Hl'|].
      rewrite Forall_forall. intros z Hz. apply Hy.
      apply in_or_app. now left.
    + intros a b [<-|Ha] Hb.
      * apply Hy. apply in_or_app. now right.
      * now apply Hx.
Qed.

(** Sorting a list that is already in order returns it unchanged. *)
Lemma sortBy_inOrder_id l :
  StronglySorted inOrder l -> sortBy byScoreDesc l = l.
Proof.
  unfold sortBy.
  assert (Hgen : forall acc, StronglySorted inOrder (acc ++ l) ->
            fold_left (fun acc x => insertBy byScoreDesc x acc) l acc
            = acc ++ l).
  { induction l as [|x l IH]; intros acc Hs; simpl.
    - now rewrite app_nil_r.
    - assert (Hs' : StronglySorted inOrder ((acc ++ [x]) ++ l)).
      { now rewrite <- app_assoc. }
      rewrite insertBy_last.
      + rewrite IH by exact Hs'. now rewrite <- app_assoc.
      + destruct (StronglySorted_app_inv _ _ Hs) as [_ Hx].
        rewrite Forall_forall. intros y Hy. apply Hx; [exact Hy|].
        now left. }
  intros Hs. now apply (Hgen []).
Qed.
End NmsFacts.

(** ** The comparator on exact rationals *)

Lemma q_ltb_lt (x y : Q) : q_ltb x y = true <-> (x < y)%Q.
Proof.
  unfold q_ltb. rewrite negb_true_iff.
  split.
  - intros Hb. apply Qnot_le_lt. intros Hle.
    apply Qle_bool_iff in Hle. congruence.
  - intros Hlt. destruct (Qle_bool y x) eqn:E; [|reflexivity].
    apply Qle_bool_iff in E. exfalso. exact (Qlt_not_le _ _ Hlt E).
Qed.

Lemma q_ltb_ge (x y : Q) : q_ltb x y = false <-> (y <= x)%Q.
Proof.
  unfold q_ltb. rewrite negb_false_iff. apply Qle_bool_iff.
Qed.

Lemma consistentScores_Q : consistentScores (F := ext Q).
Proof.
  split.
  - intros [| | |a]; try reflexivity.
    cbn. apply q_ltb_ge. qlra.
  - intros [| | |a] [| | |b] [| | |c]; cbn; try congruence.
    rewrite !q_ltb_lt. qlra.
Qed.

(** ** Sorting by score in any engine *)

Section SortFacts.

Context {F : Type} `{JsNum F}.

Lemma consistentOn_incl (l l' : list (@Candidate F)) :
  incl l' l -> consistentOn l -> consistentOn l'.
Proof.
  intros Hincl Hc a b c Ha Hb Hcin.
  apply Hc; now apply Hincl.
Qed.

Lemma greaterCF_lessCF (l : list (@Candidate F)) a b :
  consistentOn l -> In a l -> In b l ->
  greaterCF a b = true -> lessCF b a = true.
Proof.
  intros Hc Ha Hb Hg.
  destruct (Hc a b a Ha Hb Ha) as (Hab & Haa & _ & _ & _ & Htr).
  destruct (Hc b a b Hb Ha Hb) as (Hba & _ & Hsym & _).
  destruct (Hc a a a Ha Ha Ha) as (Hone & _).
  unfold exactlyOne in *.
  destruct (lessCF b a); [reflexivity|].
  destruct (equalCF b a) eqn:He.
  - specialize (Hsym eq_refl). rewrite Hsym, Hg in Hab.
    intuition congruence.
  - assert (Hg' : greaterCF b a = true) by intuition congruence.
    specialize (Htr Hg Hg'). rewrite Haa, Htr in Hone.
    intuition congruence.
Qed.

(** Under a consistent comparator "not ordered after" is transitive. *)
Lemma inOrder_trans_on (l : list (@Candidate F)) a b c :
  consistentOn l -> In a l -> In b l -> In c l ->
  inOrder a b -> inOrder b c -> inOrder a c.
Proof.
  unfold inOrder.
  fold (greaterCF a b) (greaterCF b c) (greaterCF a c).
  intros Hc Ha Hb Hcin Hab Hbc.
  destruct (greaterCF a c) eqn:Hac; [exfalso|reflexivity].
  pose proof (@greaterCF_lessCF l a c Hc Ha Hcin Hac) as Hca.
  destruct (Hc a b c Ha Hb Hcin) as (Oab & _ & Sab & Eabc & Labc & _).
  destruct (Hc b c a Hb Hcin Ha) as (Obc & _ & Sbc & _ & Lbca & _).
  destruct (Hc c a b Hcin Ha Hb) as (Oca & _ & _ & _ & Lcab & _).
  destruct (Hc a c a Ha Hcin Ha) as (Oac & _).
  destruct (Hc c b c Hcin Hb Hcin) as (Ocb & _).
  destruct (Hc b a b Hb Ha Hb) as (Oba & _).
  unfold exactlyOne in *.
  rewrite Hab in Oab. rewrite Hbc in Obc. rewrite Hac in Oac.
  destruct (lessCF a b) eqn:Lab; destruct (lessCF b c) eqn:Lbc.
  - specialize (Labc eq_refl eq_refl). intuition congruence.
  - assert (Ebc : equalCF b c = true) by intuition congruence.
    specialize (Lcab Hca eq_refl). specialize (Sbc Ebc).
    rewrite Lcab, Sbc in Ocb. intuition congruence.
  - assert (Eab : equalCF a b = true) by intuition congruence.
    specialize (Lbca eq_refl Hca). specialize (Sab Eab).
    rewrite Lbca, Sab in Oba. intuition congruence.
  - assert (Eab : equalCF a b = true) by intuition congruence.
    assert (Ebc : equalCF b c = true) by intuition congruence.
    specialize (Eabc Eab Ebc). intuition congruence.
Qed.

Lemma isRun_sorted (l : list (@Candidate F)) :
  consistentOn l -> isRun l = true -> StronglySorted inOrder l.
Proof.
  induction l as [|a l IH]; intros Hc Hrun; [constructor|].
  assert (Hc' : consistentOn l).
  { apply (consistentOn_incl (l := a :: l)); [|exact Hc].
    intros z Hz. now right. }
  destruct l as [|b l].
  - constructor; constructor.
  - cbn [isRun] in Hrun. apply andb_true_iff in Hrun.
    destruct Hrun as [Hab Hrun]. apply negb_true_iff in Hab.
    specialize (IH Hc' Hrun).
    constructor; [exact IH|].
    constructor; [exact Hab|].
    apply StronglySorted_inv in IH. destruct IH as [_ Hall].
    rewrite Forall_forall in Hall |- *.
    intros c Hcin.
    apply (inOrder_trans_on (l := a :: b :: l) (b := b)); try exact Hc.
    + now left.
    + right. now left.
    + right. now right.
    + exact Hab.
    + exact (Hall c Hcin).
Qed.

(** A sort that keeps runs meets the contract of ECMAScript. *)
Lemma runSort_conforming : conformingSort (F := F) runSort.
Proof.
  intros l Hc. unfold runSort.
  destruct (isRun l) eqn:Hrun; [|reflexivity].
  symmetry. apply sortBy_inOrder_id. now apply isRun_sorted.
Qed.

Lemma sortBy_conforming : conformingSort (F := F) (sortBy byScoreDesc).
Proof. intros l _. reflexivity. Qed.

Lemma nmsWith_conforming sort (l : list (@Candidate F)) threshold :
  conformingSort sort -> consistentOn l ->
  nmsWith sort l threshold = nms l threshold.
Proof.
  intros Hs Hc. unfold nmsWith, nms. now rewrite (Hs l Hc).
Qed.

Lemma sortBy_sub (l : list (@Candidate F)) z :
  In z (sortBy byScoreDesc l) -> In z l.
Proof.
  unfold sortBy.
  assert (Hgen : forall acc,
             In z (fold_left (fun acc x => insertBy byScoreDesc x acc) l acc) ->
             In z acc \/ In z l).
  { induction l as [|x l IH]; intros acc Hin; [now left|].
    cbn [fold_left] in Hin. apply IH in Hin.
    destruct Hin as [Hin | Hin].
    - apply insertBy_In in Hin. destruct Hin as [-> | Hin].
      + right. now left.
      + now left.
    - right. now right. }
  intros Hin. apply Hgen in Hin. now destruct Hin.
Qed.

(** Under a consistent comparator the model's [nms] returns a list in
    score order whose members are pairwise apart and come from the
    input, and running it again changes nothing. *)
Lemma nms_sorted_apart (l : list (@Candidate F)) threshold :
  consistentScores ->
  StronglySorted inOrder (nms l threshold) /\
  StronglySorted (apart threshold) (nms l threshold) /\
  incl (nms l threshold) l.
Proof.
  intros Hc. unfold nms.
  destruct (@nms_loop_selected F _ threshold
              (List.length (sortBy byScoreDesc l)) (sortBy byScoreDesc l))
    as (Hord & Hapart & Hin).
  { apply sortBy_inOrder. exact Hc. }
  cbv zeta in Hord, Hapart, Hin.
  repeat split; try assumption.
  intros z Hz. apply sortBy_sub. now apply Hin.
Qed.

Lemma nms_twice (l : list (@Candidate F)) threshold :
  consistentScores ->
  nms (nms l threshold) threshold = nms l threshold.
Proof.
  intros Hc.
  destruct (nms_sorted_apart l threshold Hc) as (Hord & Hapart & _).
  unfold nms at 1. rewrite (sortBy_inOrder_id Hord).
  apply nms_loop_apart. exact Hapart.
Qed.

End SortFacts.

(** Finite scores are ordered consistently. *)
Lemma consistentOn_finite (l : list (@Candidate (ext Q))) :
  Forall (fun c => exists q : Q, score c = Fin q) l -> consistentOn l.
Proof.
  intros Hfin a b c Ha Hb Hc.
  rewrite Forall_forall in Hfin.
  destruct (Hfin a Ha) as [qa Hqa].
  destruct (Hfin b Hb) as [qb Hqb].
  destruct (Hfin c Hc) as [qc Hqc].
  unfold exactlyOne, lessCF, equalCF, greaterCF, sortsAfter, byScoreDesc.
  rewrite Hqa, Hqb, Hqc. cbn.
  repeat split.
  - destruct (Qlt_le_dec (qb + - qa) 0) as [Hlt|Hge].
    + left. rewrite (proj2 (q_ltb_lt _ _) Hlt).
      assert (E1 : q_ltb 0 (qb + - qa) = false) by (apply q_ltb_ge; qlra).
      rewrite E1. cbn. repeat split.
    + destruct (Qlt_le_dec 0 (qb + - qa)) as [Hgt|Hle].
      * right. right. rewrite (proj2 (q_ltb_lt _ _) Hgt).
        assert (E1 : q_ltb (qb + - qa) 0 = false) by (apply q_ltb_ge; qlra).
        rewrite E1. cbn. repeat split.
      * right. left.
        assert (E1 : q_ltb (qb + - qa) 0 = false) by (apply q_ltb_ge; qlra).
        assert (E2 : q_ltb 0 (qb + - qa) = false) by (apply q_ltb_ge; qlra).
        rewrite E1, E2. repeat split.
  - assert (E1 : q_ltb (qa + - qa) 0 = false) by (apply q_ltb_ge; qlra).
    assert (E2 : q_ltb 0 (qa + - qa) = false) by (apply q_ltb_ge; qlra).
    now rewrite E1, E2.
  - rewrite !andb_true_iff, !negb_true_iff, !q_ltb_ge. qlra.
  - rewrite !andb_true_iff, !negb_true_iff, !q_ltb_ge. qlra.
  - rewrite !q_ltb_lt. qlra.
  - rewrite !q_ltb_lt. qlra.
Qed.

(** C4 (as amended). Non-maximum suppression is idempotent on
    candidates whose scores the comparator [b.score - a.score] orders
    consistently, as it does all finite scores: whatever engine sorts
    the array, [nms] applied to its own output, with the IoU threshold
    0.4 of [parseDetectorOutput], returns that output, and that output
    is the one [nms] computes with [sortBy]. *)
Theorem nms_idempotent :
  (forall (F : Type) (N : JsNum F)
          (sort : list (@Candidate F) -> list (@Candidate F))
          (candidates : list (@Candidate F)),
      consistentScores ->
      conformingSort sort ->
      consistentOn candidates ->
      nmsWith sort (nmsWith sort candidates (lit (2 # 5))) (lit (2 # 5))
      = nmsWith sort candidates (lit (2 # 5)) /\
      nmsWith sort candidates (lit (2 # 5)) = nms candidates (lit (2 # 5))) /\
  (forall (sort : list (@Candidate (ext Q)) -> list (@Candidate (ext Q)))
          (candidates : list (@Candidate (ext Q))),
      conformingSort sort ->
      Forall (fun c => exists q : Q, score c = Fin q) candidates ->
      nmsWith sort (nmsWith sort candidates (lit (2 # 5))) (lit (2 # 5))
      = nmsWith sort candidates (lit (2 # 5)) /\
      nmsWith sort candidates (lit (2 # 5)) = nms candidates (lit (2 # 5))).
Proof.
  assert (Hgen : forall (F : Type) (N : JsNum F)
                        (sort : list (@Candidate F) -> list (@Candidate F))
                        (candidates : list (@Candidate F)),
             consistentScores -> conformingSort sort ->
             consistentOn candidates ->
             nmsWith sort (nmsWith sort candidates (lit (2 # 5))) (lit (2 # 5))
             = nmsWith sort candidates (lit (2 # 5)) /\
             nmsWith sort candidates (lit (2 # 5))
             = nms candidates (lit (2 # 5))).
  { intros F N sort candidates Hc Hsort Hon.
    set (threshold := lit (2 # 5)).
    pose proof (nmsWith_conforming threshold Hsort Hon) as Hfirst.
    split; [|exact Hfirst].
    rewrite Hfirst.
    destruct (nms_sorted_apart candidates threshold Hc) as (_ & _ & Hincl).
    rewrite (nmsWith_conforming threshold Hsort
               (consistentOn_incl Hincl Hon)).
    apply nms_twice. exact Hc. }
  split; [exact Hgen|].
  intros sort candidates Hsort Hfin.
  apply Hgen; [exact consistentScores_Q | exact Hsort|].
  now apply consistentOn_finite.
Qed.

Lemma nms_idempotent_witness :
  nmsWith (sortBy byScoreDesc)
    (nmsWith (sortBy byScoreDesc) sampleCandidates (lit (2 # 5)))
    (lit (2 # 5))
  = nmsWith (sortBy byScoreDesc) sampleCandidates (lit (2 # 5)) /\
  nmsWith (sortBy byScoreDesc) sampleCandidates (lit (2 # 5))
  = nms sampleCandidates (lit (2 # 5)).
Proof.
  apply (proj2 nms_idempotent).
  - exact sortBy_conforming.
  - repeat constructor; eexists; reflexivity.
Defined.

(** With a score that is [NaN] the claim fails in an engine whose sort
    keeps runs: the comparator is not consistent on [nanScored], the
    first pass leaves the array as it is and keeps its first and third
    candidates in that order, and the second pass sorts the two by
    score and returns them the other way round. *)
Lemma nms_nan_score_not_idempotent :
  conformingSort (F := ext Q) runSort /\
  ~ consistentOn nanScored /\
  nmsWith runSort nanScored (lit (2 # 5))
  = [lowScored; highScored] /\
  nmsWith runSort (nmsWith runSort nanScored (lit (2 # 5))) (lit (2 # 5))
  = [highScored; lowScored] /\
  nmsWith runSort (nmsWith runSort nanScored (lit (2 # 5))) (lit (2 # 5))
  <> nmsWith runSort nanScored (lit (2 # 5)).
Proof.
  split; [exact runSort_conforming|].
  split.
  - intros Hc.
    destruct (Hc lowScored nanScoredOne highScored) as (Hone & _);
      try (cbn; tauto).
    vm_compute in Hone. intuition discriminate.
  - split; [vm_compute; reflexivity|].
    split; [vm_compute; reflexivity|].
    vm_compute. intros Heq. discriminate Heq.
Qed.

(** ** The two layouts of a detector output *)

Section LayoutFacts.
Context {F : Type} `{JsNum F}.

(** Reading entry [(i, c)] out of a buffer made of rows of equal
    length. *)
Lemma nth_flat_rows (f : nat -> nat -> F) (cols rows start i c : nat) :
  i < rows -> c < cols ->
  nth (i * cols + c)
      (flat_map (fun r => List.map (f r) (seq 0 cols)) (seq start rows)) nan
  = f (start + i) c.
Proof.
  revert start i. induction rows as [|rows IH]; intros start i Hi Hc.
  - lia.
  - cbn [seq flat_map]. destruct i as [|i].
    + cbn [Nat.mul Nat.add]. rewrite app_nth1 by (rewrite length_map, length_seq; exact Hc).
      rewrite (nth_indep _ nan (f start 0)) by (rewrite length_map, length_seq; exact Hc).
      rewrite map_nth, seq_nth by exact Hc.
      now rewrite Nat.add_0_r.
    + rewrite app_nth2 by (rewrite length_map, length_seq; lia).
      rewrite length_map, length_seq.
      replace (S i * cols + c - cols) with (i * cols + c) by lia.
      rewrite IH by lia. f_equal. lia.
Qed.

Lemma at_layoutBoxesFirst (m : nat -> nat -> F) boxes channels i c :
  i < boxes -> c < channels ->
  at_ (layoutBoxesFirst m boxes channels) (i * channels + c) = m i c.
Proof.
  intros Hi Hc. unfold at_, layoutBoxesFirst.
  now rewrite (nth_flat_rows (fun r k => m r k)) by assumption.
Qed.

Lemma at_layoutChannelsFirst (m : nat -> nat -> F) boxes channels i c :
  i < boxes -> c < channels ->
  at_ (layoutChannelsFirst m boxes channels) (i + c * boxes) = m i c.
Proof.
  intros Hi Hc. unfold at_, layoutChannelsFirst.
  replace (i + c * boxes) with (c * boxes + i) by lia.
  now rewrite (nth_flat_rows (fun r k => m k r)) by assumption.
Qed.

(** The raw objectness and class entries matter only when the channel
    count says they exist. *)
Lemma decodeCandidate_unused channels normalized w h t x y bw bh o o' c c' l :
  (4 < channels -> o = o') ->
  (5 < channels -> c = c') ->
  decodeCandidate channels normalized w h t x y bw bh o c l
  = decodeCandidate channels normalized w h t x y bw bh o' c' l.
Proof.
  intros Ho Hc. unfold decodeCandidate.
  destruct (Nat.ltb_spec 4 channels) as [H4|H4];
    destruct (Nat.ltb_spec 5 channels) as [H5|H5];
    try rewrite (Ho H4); try rewrite (Hc H5); reflexivity.
Qed.

(** With at least the four coordinate channels, both layouts decode to
    the same candidates. *)
Lemma candidates_layouts (m : nat -> nat -> F) boxes channels w h t :
  4 <= channels ->
  candidatesBoxesFirst (layoutBoxesFirst m boxes channels) boxes channels w h t
  = candidatesChannelsFirst (layoutChannelsFirst m boxes channels)
      channels boxes w h t.
Proof.
  intros H4. unfold candidatesBoxesFirst, candidatesChannelsFirst.
  set (bf := layoutBoxesFirst m boxes channels).
  set (cf := layoutChannelsFirst m boxes channels).
  assert (Hbf : forall i c, i < boxes -> c < channels ->
            at_ bf (i * channels + c) = m i c)
    by (intros; now apply at_layoutBoxesFirst).
  assert (Hcf : forall i c, i < boxes -> c < channels ->
            at_ cf (i + c * boxes) = m i c)
    by (intros; now apply at_layoutChannelsFirst).
  assert (Hbf0 : forall i, i < boxes -> at_ bf (i * channels) = m i 0).
  { intros i Hi. rewrite <- (Nat.add_0_r (i * channels)). apply Hbf; lia. }
  assert (Hcf0 : forall i, i < boxes -> at_ cf i = m i 0).
  { intros i Hi. rewrite <- (Hcf i 0) by lia. f_equal. lia. }
  assert (Hcf1 : forall i, i < boxes -> at_ cf (i + boxes) = m i 1).
  { intros i Hi. rewrite <- (Hcf i 1) by lia. f_equal. lia. }
  assert (Hmax :
    fold_left
      (fun maxCoord i =>
         max5 maxCoord (abs (at_ bf (i * channels)))
              (abs (at_ bf (i * channels + 1)))
              (abs (at_ bf (i * channels + 2)))
              (abs (at_ bf (i * channels + 3))))
      (seq 0 (Nat.min boxes 50)) (lit 0)
    = fold_left
        (fun maxCoord i =>
           max5 maxCoord (abs (at_ cf i)) (abs (at_ cf (i + boxes)))
                (abs (at_ cf (i + 2 * boxes))) (abs (at_ cf (i + 3 * boxes))))
        (seq 0 (Nat.min boxes 50)) (lit 0)).
  { apply fold_left_ext_in. intros acc i Hi. apply in_seq in Hi.
    assert (Hib : i < boxes) by lia.
    rewrite Hbf0, !Hbf, Hcf0, Hcf1, !Hcf by lia. reflexivity. }
  rewrite Hmax.
  apply fold_left_ext_in. intros acc i Hi. apply in_seq in Hi.
  assert (Hib : i < boxes) by lia.
  rewrite Hbf0, !(Hbf i 1), !(Hbf i 2), !(Hbf i 3) by lia.
  rewrite Hcf0, Hcf1, !(Hcf i 2), !(Hcf i 3) by lia.
  apply decodeCandidate_unused; intros Hch.
  - rewrite (Hbf i 4), (Hcf i 4) by lia. reflexivity.
  - rewrite (Hbf i 5), (Hcf i 5) by lia. reflexivity.
Qed.
End LayoutFacts.

(** C2 (as amended). For every channel count 4 <= C <= 10, candidate
    count N > 10 and score threshold, [parseDetectorOutput] decodes the
    boxes-first buffer with dims [1, N, C] and its transpose with dims
    [1, C, N] to the same detections; the boxes-first branch is the one
    taken exactly when the last axis is at most 10. *)
Theorem parseDetectorOutput_layouts {F : Type} `{JsNum F}
    (m : nat -> nat -> F) (N C : nat) (inputWidth inputHeight threshold : F) :
  4 <= C <= 10 -> 10 < N ->
  parseDetectorOutput (layoutBoxesFirst m N C) [1; N; C]
                      inputWidth inputHeight threshold
  = parseDetectorOutput (layoutChannelsFirst m N C) [1; C; N]
                        inputWidth inputHeight threshold
  /\ (forall (data : list F) (batch d1 d2 : nat),
        parseDetectorOutput data [batch; d1; d2]
                            inputWidth inputHeight threshold
        = if (d2 <=? 10)%nat
          then nms (candidatesBoxesFirst data d1 d2
                      inputWidth inputHeight threshold) (lit (2 # 5))
          else nms (candidatesChannelsFirst data d1 d2
                      inputWidth inputHeight threshold) (lit (2 # 5))).
Proof.
  intros [H4 H10] HN. split.
  - unfold parseDetectorOutput.
    destruct (Nat.leb_spec C 10) as [_|Hc]; [|lia].
    destruct (Nat.leb_spec N 10) as [Hn|_]; [lia|].
    now rewrite candidates_layouts.
  - intros data batch d1 d2. reflexivity.
Qed.

Lemma parseDetectorOutput_layouts_witness :
  parseDetectorOutput (layoutBoxesFirst sampleTable 11 4) [1; 11; 4]
                      (Fin 640%Q) (Fin 640%Q) (Fin (3 # 10)%Q)
  = parseDetectorOutput (layoutChannelsFirst sampleTable 11 4) [1; 4; 11]
                        (Fin 640%Q) (Fin 640%Q) (Fin (3 # 10)%Q).
Proof.
  apply (parseDetectorOutput_layouts sampleTable (N := 11) (C := 4)
           (Fin 640%Q) (Fin 640%Q) (Fin (3 # 10)%Q)); lia.
Defined.

(** With two channels the layouts part: the boxes-first reading takes
    the width and height of a box from the next row, the channels-first
    reading takes them from beyond the buffer. *)
Lemma parseDetectorOutput_two_channels :
  (2 <= 10)%nat /\ (10 < 11)%nat /\
  parseDetectorOutput (layoutBoxesFirst zeroTable 11 2) [1; 11; 2]
                      (Fin 640%Q) (Fin 640%Q) (Fin (3 # 10)%Q)
  <> parseDetectorOutput (layoutChannelsFirst zeroTable 11 2) [1; 2; 11]
                         (Fin 640%Q) (Fin 640%Q) (Fin (3 # 10)%Q).
Proof.
  split; [lia|]. split; [lia|].
  vm_compute. discriminate.
Qed.

(** ** Arithmetic of finite rationals *)

Lemma Qfin_add (a b : Q) : add (Fin a) (Fin b) = Fin (a + b)%Q.
Proof. reflexivity. Qed.

Lemma Qfin_sub (a b : Q) : sub (Fin a) (Fin b) = Fin (a - b)%Q.
Proof. reflexivity. Qed.

Lemma Qfin_mul (a b : Q) : mul (Fin a) (Fin b) = Fin (a * b)%Q.
Proof. reflexivity. Qed.

Lemma Qfin_lit (q : Q) : lit q = Fin q.
Proof. reflexivity. Qed.

Lemma Qfin_of_Z (z : Z) : of_Z z = Fin (inject_Z z).
Proof. reflexivity. Qed.

Lemma q_ltb_compare (a b : Q) :
  q_ltb a b = match (a ?= b)%Q with Lt => true | _ => false end.
Proof.
  destruct (a ?= b)%Q eqn:C.
  - apply q_ltb_ge. apply Qeq_alt in C. rewrite C. apply Qle_refl.
  - apply q_ltb_lt. now apply Qlt_alt.
  - apply q_ltb_ge. apply Qlt_le_weak. now apply Qgt_alt.
Qed.

Lemma Qfin_max (a b : Q) : max (Fin a) (Fin b) = Fin (Qmax a b).
Proof.
  change (max (Fin a) (Fin b)) with (if q_ltb a b then Fin b else Fin a).
  unfold Qmax, GenericMinMax.gmax. rewrite q_ltb_compare.
  now destruct (a ?= b)%Q.
Qed.

Lemma Qfin_min (a b : Q) : min (Fin a) (Fin b) = Fin (Qmin a b).
Proof.
  change (min (Fin a) (Fin b)) with (if q_ltb b a then Fin b else Fin a).
  unfold Qmin, GenericMinMax.gmin. rewrite q_ltb_compare.
  rewrite <- (Qcompare_antisym a b).
  now destruct (a ?= b)%Q.
Qed.

Lemma Qfin_div (a b : Q) : (0 < b)%Q -> div (Fin a) (Fin b) = Fin (a / b)%Q.
Proof.
  intros Hb. cbn. unfold s_sgn. cbn.
  now rewrite (proj2 (q_ltb_lt 0 b) Hb).
Qed.

Lemma Qfin_floor (a : Q) : floor (Fin a) = Fin (inject_Z (Qfloor a)).
Proof. reflexivity. Qed.

Lemma Qfin_round (a : Q) :
  round (Fin a) = Fin (inject_Z (Qfloor (a + (1 # 2)))).
Proof. reflexivity. Qed.

Lemma Qdiv_self_1 (n d : Q) : (0 < d)%Q -> (n == d)%Q -> (n / d == 1)%Q.
Proof.
  intros Hd Hn. rewrite Hn. field.
  intro E. rewrite E in Hd. exact (Qlt_irrefl 0 Hd).
Qed.

(** ** Intersection over union *)

Lemma iou_qbox (a1 b1 a2 b2 c1 d1 c2 d2 : Q) :
  iou (qbox a1 b1 a2 b2) (qbox c1 d1 c2 d2)
  = Fin (overlapArea a1 b1 a2 b2 c1 d1 c2 d2
         / Qmax 1 (boxArea a1 b1 a2 b2 + boxArea c1 d1 c2 d2
                   - overlapArea a1 b1 a2 b2 c1 d1 c2 d2))%Q.
Proof.
  unfold iou, qbox, at_. cbn [nth].
  rewrite !Qfin_max, !Qfin_min, !Qfin_lit, !Qfin_sub, !Qfin_max, !Qfin_mul,
    Qfin_add, Qfin_sub, Qfin_max.
  rewrite Qfin_div.
  - reflexivity.
  - eapply Qlt_le_trans; [|apply Q.le_max_l]. reflexivity.
Qed.

Lemma boxArea_proper x1 y1 x2 y2 :
  (x1 < x2)%Q -> (y1 < y2)%Q ->
  (boxArea x1 y1 x2 y2 == (x2 - x1) * (y2 - y1))%Q.
Proof.
  intros Hx Hy. unfold boxArea.
  rewrite (Q.max_r 0 (x2 - x1)) by qlra.
  rewrite (Q.max_r 0 (y2 - y1)) by qlra.
  reflexivity.
Qed.

Lemma overlapArea_self x1 y1 x2 y2 :
  (overlapArea x1 y1 x2 y2 x1 y1 x2 y2 == boxArea x1 y1 x2 y2)%Q.
Proof.
  unfold overlapArea, boxArea.
  now rewrite !Q.max_id, !Q.min_id.
Qed.

(** C5 (as amended). A non-degenerate box of area at least 1 has
    [iou(b, b) = 1]; for a smaller one the minimum union of 1 leaves
    [iou(b, b)] equal to its area.  Boxes whose intersection has zero
    area have [iou = 0].  In all cases [iou] is the overlap area over
    [max(1, areaA + areaB - overlap)], degenerate boxes counting for
    zero. *)
Theorem iou_properties :
  (forall x1 y1 x2 y2 : Q,
      (x1 < x2)%Q -> (y1 < y2)%Q -> (1 <= (x2 - x1) * (y2 - y1))%Q ->
      qnum_eq (iou (qbox x1 y1 x2 y2) (qbox x1 y1 x2 y2)) (Fin 1%Q)) /\
  (forall x1 y1 x2 y2 : Q,
      (x1 < x2)%Q -> (y1 < y2)%Q -> ((x2 - x1) * (y2 - y1) <= 1)%Q ->
      qnum_eq (iou (qbox x1 y1 x2 y2) (qbox x1 y1 x2 y2))
              (Fin ((x2 - x1) * (y2 - y1))%Q)) /\
  (forall a1 b1 a2 b2 c1 d1 c2 d2 : Q,
      (overlapArea a1 b1 a2 b2 c1 d1 c2 d2 == 0)%Q ->
      qnum_eq (iou (qbox a1 b1 a2 b2) (qbox c1 d1 c2 d2)) (Fin 0%Q)) /\
  (forall a1 b1 a2 b2 c1 d1 c2 d2 : Q,
      iou (qbox a1 b1 a2 b2) (qbox c1 d1 c2 d2)
      = Fin (overlapArea a1 b1 a2 b2 c1 d1 c2 d2
             / Qmax 1 (boxArea a1 b1 a2 b2 + boxArea c1 d1 c2 d2
                       - overlapArea a1 b1 a2 b2 c1 d1 c2 d2))%Q).
Proof.
  repeat split.
  - intros x1 y1 x2 y2 Hx Hy Harea. rewrite iou_qbox. cbn.
    rewrite overlapArea_self.
    pose proof (boxArea_proper Hx Hy) as Ha.
    apply Qdiv_self_1.
    + eapply Qlt_le_trans; [|apply Q.le_max_l]. reflexivity.
    + rewrite Q.max_r; [|rewrite Ha; qlra]. ring.
  - intros x1 y1 x2 y2 Hx Hy Harea. rewrite iou_qbox. cbn.
    rewrite overlapArea_self.
    pose proof (boxArea_proper Hx Hy) as Ha.
    rewrite Q.max_l by (rewrite Ha; qlra).
    rewrite Ha. field.
  - intros a1 b1 a2 b2 c1 d1 c2 d2 Hz. rewrite iou_qbox. cbn.
    rewrite Hz. unfold Qdiv. ring.
  - intros. apply iou_qbox.
Qed.

Lemma iou_properties_witness :
  qnum_eq (iou (qbox 0 0 2 3) (qbox 0 0 2 3)) (Fin 1%Q).
Proof.
  apply (proj1 iou_properties); vm_compute; congruence.
Defined.

(** The half-pixel box is non-degenerate, yet its [iou] with itself is
    a quarter. *)
Lemma iou_half_pixel_box :
  (0 < 1 # 2)%Q /\
  iou halfPixelBox halfPixelBox = Fin (1 # 4)%Q /\
  ~ qnum_eq (iou halfPixelBox halfPixelBox) (Fin 1%Q).
Proof.
  split; [reflexivity|]. split; [reflexivity|].
  vm_compute. discriminate.
Qed.

(* ================================================================== *)
(** * Properties of the letterbox transform *)
(* ================================================================== *)

Lemma inject_Z_pos (z : Z) : (0 < z)%Z -> (0 < inject_Z z)%Q.
Proof. intros Hz. change 0%Q with (inject_Z 0). now rewrite <- Zlt_Qlt. Qed.

Lemma Qdiv_pos (a b : Q) : (0 < a)%Q -> (0 < b)%Q -> (0 < a / b)%Q.
Proof.
  intros Ha Hb. apply Qlt_shift_div_l; [exact Hb|]. now rewrite Qmult_0_l.
Qed.

(** [Math.round] lands within half a unit. *)
Lemma Qround_half (x : Q) :
  (Qabs (inject_Z (Qfloor (x + (1 # 2))) - x) <= 1 # 2)%Q.
Proof.
  pose proof (Qfloor_le (x + (1 # 2))) as Hle.
  pose proof (Qlt_floor (x + (1 # 2))) as Hlt.
  rewrite inject_Z_plus in Hlt.
  apply Qabs_Qle_condition. split.
  - change (inject_Z 1) with 1%Q in Hlt. qlra.
  - qlra.
Qed.

(** Rounding a number that does not exceed an integer stays below it. *)
Lemma Qround_le_Z (x : Q) (z : Z) :
  (x <= inject_Z z)%Q -> (Qfloor (x + (1 # 2)) <= z)%Z.
Proof.
  intros Hx.
  pose proof (Qfloor_le (x + (1 # 2))) as Hle.
  assert (Hlt : (inject_Z (Qfloor (x + (1 # 2))) < inject_Z (z + 1))%Q).
  { rewrite inject_Z_plus. change (inject_Z 1) with 1%Q. qlra. }
  rewrite <- Zlt_Qlt in Hlt. lia.
Qed.

Lemma Qfloor_nonneg (x : Q) : (0 <= x)%Q -> (0 <= Qfloor x)%Z.
Proof.
  intros Hx. change 0%Z with (Qfloor 0). now apply Qfloor_resp_le.
Qed.

Section LetterboxFacts.
Variables iw ih tw th : Z.
Hypothesis iw_pos : (0 < iw)%Z.
Hypothesis ih_pos : (0 < ih)%Z.
Hypothesis tw_pos : (0 < tw)%Z.
Hypothesis th_pos : (0 < th)%Z.

Let s : Q := Qmin (inject_Z tw / inject_Z iw) (inject_Z th / inject_Z ih).
Let sw : Z := Qfloor (inject_Z iw * s + (1 # 2)).
Let sh : Z := Qfloor (inject_Z ih * s + (1 # 2)).
Let px : Z := Qfloor ((inject_Z tw - inject_Z sw) / 2).
Let py : Z := Qfloor ((inject_Z th - inject_Z sh) / 2).

Lemma letterbox_scale_pos : (0 < s)%Q.
Proof.
  unfold s. apply Q.min_glb_lt; apply Qdiv_pos; now apply inject_Z_pos.
Qed.

Lemma letterbox_Q :
  letterbox (F := ext Q) (mkImage iw ih) tw th
  = {| lb_scale := Fin s;
       scaledWidth := Fin (inject_Z sw);
       scaledHeight := Fin (inject_Z sh);
       lb_padX := Fin (inject_Z px);
       lb_padY := Fin (inject_Z py) |}.
Proof.
  unfold letterbox. cbn [image_width image_height].
  rewrite !Qfin_of_Z.
  rewrite !Qfin_div by now apply inject_Z_pos.
  rewrite Qfin_min. fold s.
  rewrite !Qfin_mul, !Qfin_round. fold sw sh.
  rewrite !Qfin_sub, Qfin_lit.
  rewrite !Qfin_div by reflexivity.
  rewrite !Qfin_floor. reflexivity.
Qed.

Lemma prepareDetectorInput_Q :
  prepareDetectorInput (F := ext Q) true (mkImage iw ih) tw th
  = Some {| scale := Fin s; padX := Fin (inject_Z px);
            padY := Fin (inject_Z py); width := tw; height := th |}.
Proof.
  unfold prepareDetectorInput. cbn [negb]. rewrite letterbox_Q. reflexivity.
Qed.

Lemma letterbox_fits_width : (inject_Z iw * s <= inject_Z tw)%Q.
Proof.
  pose proof (inject_Z_pos iw_pos) as Hiw.
  assert (Hs : (s <= inject_Z tw / inject_Z iw)%Q) by apply Q.le_min_l.
  assert (Hx : (inject_Z iw * (inject_Z tw / inject_Z iw) == inject_Z tw)%Q).
  { field. intro E. rewrite E in Hiw. exact (Qlt_irrefl 0 Hiw). }
  rewrite <- Hx. apply Qmult_le_l; assumption.
Qed.

Lemma letterbox_fits_height : (inject_Z ih * s <= inject_Z th)%Q.
Proof.
  pose proof (inject_Z_pos ih_pos) as Hih.
  assert (Hs : (s <= inject_Z th / inject_Z ih)%Q) by apply Q.le_min_r.
  assert (Hx : (inject_Z ih * (inject_Z th / inject_Z ih) == inject_Z th)%Q).
  { field. intro E. rewrite E in Hih. exact (Qlt_irrefl 0 Hih). }
  rewrite <- Hx. apply Qmult_le_l; assumption.
Qed.

Lemma letterbox_pad_nonneg : (0 <= px)%Z /\ (0 <= py)%Z.
Proof.
  pose proof (Qround_le_Z letterbox_fits_width) as Hw.
  pose proof (Qround_le_Z letterbox_fits_height) as Hh.
  fold sw in Hw. fold sh in Hh.
  rewrite Zle_Qle in Hw, Hh.
  split; apply Qfloor_nonneg.
  - apply Qle_shift_div_l; [reflexivity|]. qlra.
  - apply Qle_shift_div_l; [reflexivity|]. qlra.
Qed.

Lemma letterbox_aspect :
  (Qabs (inject_Z sw * inject_Z ih - inject_Z sh * inject_Z iw)
   <= (inject_Z iw + inject_Z ih) / 2)%Q.
Proof.
  pose proof (inject_Z_pos iw_pos) as Hiw.
  pose proof (inject_Z_pos ih_pos) as Hih.
  pose proof (Qround_half (inject_Z iw * s)) as Hw.
  pose proof (Qround_half (inject_Z ih * s)) as Hh.
  fold sw in Hw. fold sh in Hh.
  apply Qabs_Qle_condition in Hw. apply Qabs_Qle_condition in Hh.
  apply Qabs_Qle_condition.
  set (W := inject_Z iw) in *. set (Hq := inject_Z ih) in *.
  set (ew := (inject_Z sw - W * s)%Q) in *.
  set (eh := (inject_Z sh - Hq * s)%Q) in *.
  assert (E : (inject_Z sw * Hq - inject_Z sh * W == ew * Hq - eh * W)%Q).
  { unfold ew, eh. ring. }
  rewrite E.
  assert (H1 : (0 <= ((1 # 2) - ew) * Hq)%Q) by (apply Qmult_le_0_compat; qlra).
  assert (H2 : (0 <= (ew + (1 # 2)) * Hq)%Q) by (apply Qmult_le_0_compat; qlra).
  assert (H3 : (0 <= ((1 # 2) - eh) * W)%Q) by (apply Qmult_le_0_compat; qlra).
  assert (H4 : (0 <= (eh + (1 # 2)) * W)%Q) by (apply Qmult_le_0_compat; qlra).
  unfold Qdiv. change (/ 2)%Q with (1 # 2)%Q.
  split; qlra.
Qed.
End LetterboxFacts.

(** C7. For an image and a target of positive pixel sizes, in any
    arithmetic the letterbox takes
    [scale = min(targetW/imgW, targetH/imgH)], rounds the scaled sizes
    and pads by the floor of half the remainder; [prepareDetectorInput]
    returns this scale and padding and [prepareOcrInput] computes the
    same letterbox for its 140 x 70 target.  The rounded sizes are
    whole numbers within half a pixel of the sizes that keep the aspect
    ratio exactly, so the aspect ratio is kept up to that rounding, and
    the padding is a whole number that is never negative. *)
Theorem letterbox_preserves_aspect (iw ih tw th : Z) :
  (0 < iw)%Z -> (0 < ih)%Z -> (0 < tw)%Z -> (0 < th)%Z ->
  (forall (F : Type) (N : JsNum F),
     let lb := letterbox (F := F) (mkImage iw ih) tw th in
     lb_scale lb
     = min (div (of_Z tw) (of_Z iw)) (div (of_Z th) (of_Z ih)) /\
     scaledWidth lb = round (mul (of_Z iw) (lb_scale lb)) /\
     scaledHeight lb = round (mul (of_Z ih) (lb_scale lb)) /\
     lb_padX lb = floor (div (sub (of_Z tw) (scaledWidth lb)) (lit 2)) /\
     lb_padY lb = floor (div (sub (of_Z th) (scaledHeight lb)) (lit 2)) /\
     prepareDetectorInput (F := F) true (mkImage iw ih) tw th
     = Some {| scale := lb_scale lb; padX := lb_padX lb;
               padY := lb_padY lb; width := tw; height := th |} /\
     prepareOcrInput_letterbox (F := F) (mkImage iw ih)
     = letterbox (mkImage iw ih) 140 70) /\
  let exact : Q :=
    Qmin (inject_Z tw / inject_Z iw) (inject_Z th / inject_Z ih) in
  exists sw sh px py : Z,
    scaledWidth (letterbox (F := ext Q) (mkImage iw ih) tw th)
    = Fin (inject_Z sw) /\
    scaledHeight (letterbox (F := ext Q) (mkImage iw ih) tw th)
    = Fin (inject_Z sh) /\
    lb_padX (letterbox (F := ext Q) (mkImage iw ih) tw th)
    = Fin (inject_Z px) /\
    lb_padY (letterbox (F := ext Q) (mkImage iw ih) tw th)
    = Fin (inject_Z py) /\
    (Qabs (inject_Z sw - inject_Z iw * exact) <= 1 # 2)%Q /\
    (Qabs (inject_Z sh - inject_Z ih * exact) <= 1 # 2)%Q /\
    (Qabs (inject_Z sw * inject_Z ih - inject_Z sh * inject_Z iw)
     <= (inject_Z iw + inject_Z ih) / 2)%Q /\
    (0 <= px)%Z /\ (0 <= py)%Z.
Proof.
  intros Hiw Hih Htw Hth.
  split.
  - intros F N. cbv zeta.
    repeat split; reflexivity.
  - cbv zeta.
    pose proof (@letterbox_Q iw ih tw th Hiw Hih) as Hlb.
    cbv zeta in Hlb. rewrite Hlb. cbn [scaledWidth scaledHeight lb_padX lb_padY].
    eexists _, _, _, _.
    split; [reflexivity|]. split; [reflexivity|].
    split; [reflexivity|]. split; [reflexivity|].
    split; [apply Qround_half|].
    split; [apply Qround_half|].
    split; [exact (@letterbox_aspect iw ih tw th Hiw Hih)|].
    exact (@letterbox_pad_nonneg iw ih tw th Hiw Hih).
Qed.

Lemma letterbox_preserves_aspect_witness :
  exists sw sh px py : Z,
    scaledWidth (letterbox (F := ext Q) (mkImage 51 68) 140 70)
    = Fin (inject_Z sw) /\
    scaledHeight (letterbox (F := ext Q) (mkImage 51 68) 140 70)
    = Fin (inject_Z sh) /\
    lb_padX (letterbox (F := ext Q) (mkImage 51 68) 140 70)
    = Fin (inject_Z px) /\
    lb_padY (letterbox (F := ext Q) (mkImage 51 68) 140 70)
    = Fin (inject_Z py) /\
    (Qabs (inject_Z sw
           - inject_Z 51 * Qmin (inject_Z 140 / inject_Z 51)
                                (inject_Z 70 / inject_Z 68)) <= 1 # 2)%Q /\
    (Qabs (inject_Z sh
           - inject_Z 68 * Qmin (inject_Z 140 / inject_Z 51)
                                (inject_Z 70 / inject_Z 68)) <= 1 # 2)%Q /\
    (Qabs (inject_Z sw * inject_Z 68 - inject_Z sh * inject_Z 51)
     <= (inject_Z 51 + inject_Z 68) / 2)%Q /\
    (0 <= px)%Z /\ (0 <= py)%Z.
Proof.
  assert (H51 : (0 < 51)%Z) by lia.
  assert (H68 : (0 < 68)%Z) by lia.
  assert (H140 : (0 < 140)%Z) by lia.
  assert (H70 : (0 < 70)%Z) by lia.
  exact (proj2 (letterbox_preserves_aspect H51 H68 H140 H70)).
Defined.

(** ** Inverse mapping of a detection box *)

(** The low clamp [max(0, (b - pad) / scale)] mapped forward again. *)
Lemma clamp_low_round_trip (b p s : Q) :
  (0 < s)%Q -> (p - 1 <= b)%Q ->
  (Qabs (Qmax 0 ((b - p) / s) * s + p - b) <= 1)%Q.
Proof.
  intros Hs Hb.
  set (q := ((b - p) / s)%Q).
  assert (Hq : (q * s == b - p)%Q).
  { unfold q. field. intro E. rewrite E in Hs. exact (Qlt_irrefl 0 Hs). }
  apply Qabs_Qle_condition.
  destruct (Q.max_spec 0 q) as [[Hlt Hmax]|[Hle Hmax]]; rewrite Hmax.
  - split; qlra.
  - assert (Hneg : (q * s <= 0)%Q).
    { rewrite <- (Qmult_0_l s). apply Qmult_le_compat_r; qlra. }
    split; qlra.
Qed.

(** The high clamp [min(size, (b - pad) / scale)] mapped forward
    again. *)
Lemma clamp_high_round_trip (b p s w : Q) :
  (0 < s)%Q -> (b <= p + w * s + 1)%Q ->
  (Qabs (Qmin w ((b - p) / s) * s + p - b) <= 1)%Q.
Proof.
  intros Hs Hb.
  set (q := ((b - p) / s)%Q).
  assert (Hq : (q * s == b - p)%Q).
  { unfold q. field. intro E. rewrite E in Hs. exact (Qlt_irrefl 0 Hs). }
  apply Qabs_Qle_condition.
  destruct (Q.min_spec w q) as [[Hlt Hmin]|[Hle Hmin]]; rewrite Hmin.
  - assert (Hws : (w * s <= q * s)%Q) by (apply Qmult_le_compat_r; qlra).
    split; qlra.
  - split; qlra.
Qed.

(** The low clamp mapped forward again is the corner raised to the
    pad. *)
Lemma clamp_low_area (b p s : Q) :
  (0 < s)%Q ->
  (Qabs (Qmax 0 ((b - p) / s) * s + p - Qmax p b) <= 1)%Q.
Proof.
  intros Hs.
  set (q := ((b - p) / s)%Q).
  assert (Hq : (q * s == b - p)%Q).
  { unfold q. field. intro E. rewrite E in Hs. exact (Qlt_irrefl 0 Hs). }
  apply Qabs_Qle_condition.
  destruct (Q.max_spec 0 q) as [[Hlt Hmax]|[Hle Hmax]]; rewrite Hmax;
    destruct (Q.max_spec p b) as [[Hlt' Hmax']|[Hle' Hmax']]; rewrite Hmax'.
  - split; qlra.
  - assert (Hpos : (0 < q * s)%Q) by (apply Qmult_lt_0_compat; assumption).
    split; qlra.
  - assert (Hneg : (q * s <= 0)%Q).
    { rewrite <- (Qmult_0_l s). apply Qmult_le_compat_r; qlra. }
    split; qlra.
  - split; qlra.
Qed.

(** The high clamp mapped forward again is the corner lowered to the
    far edge of the scaled image. *)
Lemma clamp_high_area (b p s w : Q) :
  (0 < s)%Q ->
  (Qabs (Qmin w ((b - p) / s) * s + p - Qmin (p + w * s) b) <= 1)%Q.
Proof.
  intros Hs.
  set (q := ((b - p) / s)%Q).
  assert (Hq : (q * s == b - p)%Q).
  { unfold q. field. intro E. rewrite E in Hs. exact (Qlt_irrefl 0 Hs). }
  apply Qabs_Qle_condition.
  destruct (Q.min_spec w q) as [[Hlt Hmin]|[Hle Hmin]]; rewrite Hmin;
    destruct (Q.min_spec (p + w * s) b) as [[Hlt' Hmin']|[Hle' Hmin']];
    rewrite Hmin'.
  - split; qlra.
  - assert (Hws : (w * s <= q * s)%Q) by (apply Qmult_le_compat_r; qlra).
    split; qlra.
  - assert (Hws : (q * s <= w * s)%Q) by (apply Qmult_le_compat_r; qlra).
    split; qlra.
  - split; qlra.
Qed.

(** C6 (as amended). With the transform record that
    [prepareDetectorInput] produced for the image, mapping a detection
    box back into image coordinates and forward again returns it within
    one pixel in each component, provided its corners lie at most one
    pixel outside the letterboxed image area; and for every box, the
    round trip returns within one pixel the box with its corners
    clamped to that area, so a corner further outside comes back to
    the edge of the area. *)
Theorem roundTrip_within_one_pixel (iw ih tw th : Z)
    (prepared : Prepared (F := ext Q)) (b0 b1 b2 b3 : Q) :
  (0 < iw)%Z -> (0 < ih)%Z -> (0 < tw)%Z -> (0 < th)%Z ->
  prepareDetectorInput true (mkImage iw ih) tw th = Some prepared ->
  exists s px py : Q,
    scale prepared = Fin s /\ padX prepared = Fin px /\
    padY prepared = Fin py /\ (0 < s)%Q /\
    ((px - 1 <= b0)%Q -> (py - 1 <= b1)%Q ->
     (b2 <= px + inject_Z iw * s + 1)%Q ->
     (b3 <= py + inject_Z ih * s + 1)%Q ->
     withinOnePixel
       (roundTrip (mkImage iw ih) prepared (qbox b0 b1 b2 b3))
       (qbox b0 b1 b2 b3)) /\
    withinOnePixel
      (roundTrip (mkImage iw ih) prepared (qbox b0 b1 b2 b3))
      (clampToArea px py (inject_Z iw * s) (inject_Z ih * s) b0 b1 b2 b3).
Proof.
  intros Hiw Hih Htw Hth Hprep.
  pose proof (@prepareDetectorInput_Q iw ih tw th Hiw Hih) as Hprep'.
  cbv zeta in Hprep'.
  rewrite Hprep' in Hprep. injection Hprep as <-.
  pose proof (@letterbox_scale_pos iw ih tw th Hiw Hih Htw Hth) as Hs.
  cbv zeta in Hs.
  eexists _, _, _. cbn [scale padX padY].
  split; [reflexivity|]. split; [reflexivity|]. split; [reflexivity|].
  split; [exact Hs|].
  split.
  - intros H0 H1 H2 H3.
    unfold roundTrip, forwardMap, cropBox, qbox, at_.
    cbn [nth scale padX padY image_width image_height].
    rewrite !Qfin_of_Z, !Qfin_lit, !Qfin_sub.
    rewrite !Qfin_div by exact Hs.
    rewrite !Qfin_max, !Qfin_min, !Qfin_mul, !Qfin_add.
    repeat constructor.
    + now apply clamp_low_round_trip.
    + now apply clamp_low_round_trip.
    + now apply clamp_high_round_trip.
    + now apply clamp_high_round_trip.
  - unfold roundTrip, forwardMap, cropBox, clampToArea, qbox, at_.
    cbn [nth scale padX padY image_width image_height].
    rewrite !Qfin_of_Z, !Qfin_lit, !Qfin_sub.
    rewrite !Qfin_div by exact Hs.
    rewrite !Qfin_max, !Qfin_min, !Qfin_mul, !Qfin_add.
    repeat constructor.
    + now apply clamp_low_area.
    + now apply clamp_low_area.
    + now apply clamp_high_area.
    + now apply clamp_high_area.
Qed.

Lemma roundTrip_within_one_pixel_witness :
  exists s px py : Q,
    scale squarePrepared = Fin s /\ padX squarePrepared = Fin px /\
    padY squarePrepared = Fin py /\ (0 < s)%Q /\
    ((px - 1 <= 0)%Q -> (py - 1 <= 0)%Q ->
     (640 <= px + inject_Z 100 * s + 1)%Q ->
     (640 <= py + inject_Z 100 * s + 1)%Q ->
     withinOnePixel
       (roundTrip (mkImage 100 100) squarePrepared (qbox 0 0 640 640))
       (qbox 0 0 640 640)) /\
    withinOnePixel
      (roundTrip (mkImage 100 100) squarePrepared (qbox 0 0 640 640))
      (clampToArea px py (inject_Z 100 * s) (inject_Z 100 * s) 0 0 640 640).
Proof.
  apply (@roundTrip_within_one_pixel 100 100 640 640 squarePrepared
           0 0 640 640); try lia.
  reflexivity.
Defined.

(** A box that overhangs the image by ten pixels comes back clamped
    to the image corner, ten pixels away. *)
Lemma roundTrip_overhanging_box :
  prepareDetectorInput true squareImage 640 640 = Some squarePrepared /\
  roundTrip squareImage squarePrepared overhangingBox
  = qbox (0 * (640 # 100) + 0) (0 * (640 # 100) + 0)
         (50 / (640 # 100) * (640 # 100) + 0)
         (50 / (640 # 100) * (640 # 100) + 0) /\
  ~ withinOnePixel (roundTrip squareImage squarePrepared overhangingBox)
                   overhangingBox.
Proof.
  split; [reflexivity|]. split; [reflexivity|].
  intros Hw. inversion Hw as [|x y l l' Hxy _]; subst.
  revert Hxy. vm_compute. intros Hc. apply Hc. reflexivity.
Qed.

(* ================================================================== *)
(** * Properties of the OCR decoder *)
(* ================================================================== *)

Section OcrFacts.
Context {F : Type} `{JsNum F}.
Variable data : list F.
Variable layout : Layout.
Variables slots classes : nat.

(** A loop that appends to a text and adds to a sum, one entry at a
    time. *)
Lemma fold_left_text_sum {X} (step : jsstring * F -> X -> jsstring * F)
    (chars : X -> jsstring) (term : X -> F) (l : list X) text sum :
  (forall t s x, step (t, s) x = (t ++ chars x, add s (term x))) ->
  fold_left step l (text, sum)
  = (text ++ List.concat (List.map chars l),
     fold_left (fun s x => add s (term x)) l sum).
Proof.
  intros Hstep. revert text sum.
  induction l as [|x l IH]; intros text sum; cbn.
  - rewrite app_nil_r. reflexivity.
  - rewrite Hstep, IH, <- app_assoc. reflexivity.
Qed.

Lemma decodeSlot_step text sum slot :
  decodeSlot data layout slots classes (text, sum) slot
  = (text ++ emitted data layout slots classes slot,
     add sum (slotConfidence data layout slots classes slot)).
Proof.
  unfold decodeSlot, emitted, isPadSlot, slotChar.
  change (fst (text, sum)) with text. change (snd (text, sum)) with sum.
  destruct (jsstring_eqb _ OCR_PAD).
  - rewrite app_nil_r. reflexivity.
  - reflexivity.
Qed.

Lemma decodeSlots_spec :
  decodeSlots data layout slots classes
  = (List.concat (List.map (emitted data layout slots classes) (seq 0 slots)),
     if (slots =? 0)%nat then None
     else Some (mul (div (confidenceTotal data layout slots classes
                            (seq 0 slots))
                         (of_nat slots))
                    (lit 100))).
Proof.
  unfold decodeSlots, confidenceTotal.
  rewrite (fold_left_text_sum
             (decodeSlot data layout slots classes)
             (emitted data layout slots classes)
             (slotConfidence data layout slots classes)
             (seq 0 slots) [] (lit 0) decodeSlot_step).
  reflexivity.
Qed.

Lemma alphabetChar_length (i : nat) : List.length (alphabetChar i) <= 1.
Proof.
  unfold alphabetChar. destruct (nth_error OCR_ALPHABET i); cbn; lia.
Qed.

Lemma emitted_length (l : list nat) :
  List.length (List.concat (List.map (emitted data layout slots classes) l))
  <= List.length l.
Proof.
  induction l as [|slot l IH]; cbn [List.map List.concat List.length].
  - lia.
  - rewrite length_app.
    assert (Hs : List.length (emitted data layout slots classes slot) <= 1).
    { unfold emitted. destruct (isPadSlot data layout slots classes slot).
      - cbn. lia.
      - apply alphabetChar_length. }
    lia.
Qed.

Lemma seq_without (n k : nat) :
  k < n -> seq 0 n = seq 0 k ++ k :: seq (S k) (n - S k).
Proof.
  intros Hk. replace n with (k + S (n - S k)) at 1 by lia.
  rewrite seq_app. cbn [seq Nat.add]. reflexivity.
Qed.

(** The slot loop, for any slot and class counts. *)
Lemma decodeSlots_padding :
  fst (decodeSlots data layout slots classes)
  = List.concat (List.map (emitted data layout slots classes) (seq 0 slots)) /\
  snd (decodeSlots data layout slots classes)
  = (if (slots =? 0)%nat then None
     else Some (mul (div (confidenceTotal data layout slots classes
                            (seq 0 slots))
                         (of_nat slots))
                    (lit 100))) /\
  (forall slot, isPadSlot data layout slots classes slot = true ->
                emitted data layout slots classes slot = []) /\
  (forall k, slots = 9 -> k < 9 ->
     isPadSlot data layout slots classes k = true ->
     fst (decodeSlots data layout slots classes)
     = List.concat (List.map (emitted data layout slots classes)
                        (seq 0 k ++ seq (S k) (8 - k))) /\
     snd (decodeSlots data layout slots classes)
     = Some (mul (div (confidenceTotal data layout slots classes
                         (seq 0 k ++ k :: seq (S k) (8 - k)))
                      (of_nat 9))
                 (lit 100))).
Proof.
  rewrite decodeSlots_spec.
  split; [reflexivity|]. split; [reflexivity|]. split.
  - intros slot Hpad. unfold emitted. rewrite Hpad. reflexivity.
  - intros k Hslots Hk. rewrite Hslots. intros Hpad.
    rewrite (seq_without Hk).
    replace (9 - S k) with (8 - k) by lia. split.
    + unfold fst. rewrite !map_app, !concat_app.
      cbn [List.map List.concat].
      assert (He : emitted data layout 9 classes k = []).
      { unfold emitted. rewrite Hpad. reflexivity. }
      rewrite He. reflexivity.
    + reflexivity.
Qed.

Lemma decodeSlots_result :
  0 < slots ->
  exists text confidence,
    decodeSlots data layout slots classes = (text, Some confidence) /\
    List.length text <= slots.
Proof.
  intros Hs. rewrite decodeSlots_spec.
  destruct (Nat.eqb_spec slots 0) as [E|_]; [lia|].
  eexists _, _. split; [reflexivity|].
  etransitivity; [apply emitted_length|]. rewrite length_seq. lia.
Qed.
End OcrFacts.

(** C3. In [decodeOcrOutput] a slot whose arg-max class is the padding
    symbol adds no character to the text, while its confidence is added
    to the sum like that of any other slot; the confidence returned is
    the sum over all slots divided by the slot count, times 100, and
    [null] when there is no slot.  With 9 slots of which slot [k] is
    padding, the text is made of the 8 other slots and the confidence
    still averages over all 9. *)
Theorem decodeOcrOutput_padding {F : Type} `{JsNum F}
    (data : list F) (dims : list nat) :
  let slots := fst (ocrShape dims) in
  let layout := snd (ocrShape dims) in
  let classes := List.length OCR_ALPHABET in
  fst (decodeOcrOutput data dims)
  = List.concat (List.map (emitted data layout slots classes) (seq 0 slots)) /\
  snd (decodeOcrOutput data dims)
  = (if (slots =? 0)%nat then None
     else Some (mul (div (confidenceTotal data layout slots classes
                            (seq 0 slots))
                         (of_nat slots))
                    (lit 100))) /\
  (forall slot, isPadSlot data layout slots classes slot = true ->
                emitted data layout slots classes slot = []) /\
  (forall k, slots = 9 -> k < 9 ->
     isPadSlot data layout slots classes k = true ->
     fst (decodeOcrOutput data dims)
     = List.concat (List.map (emitted data layout slots classes)
                        (seq 0 k ++ seq (S k) (8 - k))) /\
     snd (decodeOcrOutput data dims)
     = Some (mul (div (confidenceTotal data layout slots classes
                         (seq 0 k ++ k :: seq (S k) (8 - k)))
                      (of_nat 9))
                 (lit 100))).
Proof.
  cbv zeta. unfold decodeOcrOutput.
  destruct (ocrShape dims) as [slots layout]. unfold fst at 1 3 5 7 9 11 13, snd at 1 3 5.
  generalize (List.length OCR_ALPHABET). intros classes.
  apply decodeSlots_padding.
Qed.

(** C9. When [output.dims] fits neither layout (it has not three axes,
    or neither the middle nor the last axis is 37), [decodeOcrOutput]
    decodes slot-major with the default 9 slots and 37 classes and
    returns a text of at most 9 characters together with a confidence
    that is not [null]. *)
Theorem decodeOcrOutput_shape_mismatch {F : Type} `{JsNum F}
    (data : list F) (dims : list nat) :
  List.length dims <> 3 \/ (nth 1 dims 0 <> 37 /\ nth 2 dims 0 <> 37) ->
  maxSlots OCR_INPUT = 9 /\
  List.length OCR_ALPHABET = 37 /\
  decodeOcrOutput data dims
  = decodeSlots data SlotsFirst (maxSlots OCR_INPUT)
                (List.length OCR_ALPHABET) /\
  exists text confidence,
    decodeOcrOutput data dims = (text, Some confidence) /\
    List.length text <= 9.
Proof.
  intros Hdims.
  assert (Hshape : ocrShape dims = (maxSlots OCR_INPUT, SlotsFirst)).
  { unfold ocrShape.
    destruct dims as [|d0 [|d1 [|d2 [|d3 rest]]]]; try reflexivity.
    change (List.length OCR_ALPHABET) with 37.
    destruct Hdims as [Hlen|[H1 H2]]; [cbn in Hlen; congruence|].
    cbn [nth] in H1, H2.
    destruct (Nat.eqb_spec d2 37); [contradiction|].
    destruct (Nat.eqb_spec d1 37); [contradiction|]. reflexivity. }
  split; [reflexivity|]. split; [reflexivity|].
  unfold decodeOcrOutput. rewrite Hshape.
  generalize (List.length OCR_ALPHABET). intros classes.
  split; [reflexivity|].
  change (maxSlots OCR_INPUT) with 9.
  apply decodeSlots_result. lia.
Qed.

Lemma decodeOcrOutput_shape_mismatch_witness :
  maxSlots OCR_INPUT = 9 /\
  List.length OCR_ALPHABET = 37 /\
  decodeOcrOutput (F := ext Q) [Fin 1%Q; Fin 2%Q] [1; 5; 20]
  = decodeSlots [Fin 1%Q; Fin 2%Q] SlotsFirst (maxSlots OCR_INPUT)
                (List.length OCR_ALPHABET) /\
  exists text confidence,
    decodeOcrOutput (F := ext Q) [Fin 1%Q; Fin 2%Q] [1; 5; 20]
    = (text, Some confidence) /\
    List.length text <= 9.
Proof.
  apply decodeOcrOutput_shape_mismatch.
  right. cbn [nth]. split; lia.
Defined.

(** ** Softmax confidence of a slot, over the reals *)

Lemma r_ltb_lt (x y : R) : r_ltb x y = true <-> (x < y)%R.
Proof.
  unfold r_ltb. destruct (Rlt_dec x y); split; intros; try assumption;
    try reflexivity; try discriminate; contradiction.
Qed.

Lemma r_ltb_ge (x y : R) : r_ltb x y = false <-> (y <= x)%R.
Proof.
  unfold r_ltb. destruct (Rlt_dec x y); split; intros; try reflexivity;
    try discriminate; rlra.
Qed.

Lemma expTotal_shift s top l a :
  expTotal s top l a = (a + expTotal s top l 0)%R.
Proof.
  unfold expTotal. revert a. induction l as [|c l IH]; intros a; cbn.
  - rlra.
  - rewrite IH. rewrite (IH (0 + _)%R). rlra.
Qed.

Lemma expTotal_app s top l1 l2 a :
  expTotal s top (l1 ++ l2) a
  = (expTotal s top l1 a + expTotal s top l2 0)%R.
Proof.
  unfold expTotal. rewrite fold_left_app.
  apply (expTotal_shift s top l2).
Qed.

Lemma expTotal_cons s top c l a :
  expTotal s top (c :: l) a
  = (a + Rtrigo_def.exp (s c - top) + expTotal s top l 0)%R.
Proof.
  change (expTotal s top (c :: l) a)
    with (expTotal s top l (a + Rtrigo_def.exp (s c - top))).
  apply expTotal_shift.
Qed.

Lemma expTotal_nonneg s top l : (0 <= expTotal s top l 0)%R.
Proof.
  induction l as [|c l IH].
  - cbn. rlra.
  - rewrite expTotal_cons. pose proof (exp_pos (s c - top)). rlra.
Qed.

Lemma expTotal_le s top m l :
  (forall c, In c l -> (s c <= top - m)%R) ->
  (expTotal s top l 0 <= INR (List.length l) * Rtrigo_def.exp (- m))%R.
Proof.
  induction l as [|c l IH]; intros Hl.
  - cbn. rlra.
  - rewrite expTotal_cons.
    change (List.length (c :: l)) with (S (List.length l)). rewrite S_INR.
    assert (Hc : (Rtrigo_def.exp (s c - top) <= Rtrigo_def.exp (- m))%R).
    { assert (Hle : (s c - top <= - m)%R).
      { specialize (Hl c (or_introl eq_refl)). rlra. }
      destruct Hle as [Hlt|Heq].
      - left. now apply exp_increasing.
      - rewrite Heq. right. reflexivity. }
    assert (IH' : (expTotal s top l 0
                   <= INR (List.length l) * Rtrigo_def.exp (- m))%R).
    { apply IH. intros c' Hc'. apply Hl. now right. }
    rlra.
Qed.

Section RealSoftmax.
Variable data : list (ext R).
Variable layout : Layout.
Variables slots classes slot : nat.
Variable s : nat -> R.
Hypothesis scores : slotScores data layout slots classes slot s.

(** The arg-max scan after [n] classes holds the greatest of the first
    [n] scores and the first index that reaches it. *)
Lemma slotArgmax_prefix (n : nat) :
  0 < n <= classes ->
  exists k,
    fold_left
      (fun (m : ext R * nat) cls =>
         let value := at_ data (ocrIndex layout slots classes slot cls) in
         if ltb (fst m) value then (value, cls) else m)
      (seq 0 n) (neg infinity, 0)
    = (Fin (s k), k) /\
    k < n /\ (forall c, c < n -> (s c <= s k)%R).
Proof.
  induction n as [|n IH]; intros [Hpos Hle]; [lia|].
  destruct n as [|n].
  - exists 0. cbn [seq fold_left]. cbv zeta.
    rewrite (scores (cls := 0)) by lia.
    split; [reflexivity|]. split; [lia|].
    intros c Hc. replace c with 0 by lia. rlra.
  - destruct IH as (k & Hfold & Hk & Hmax); [lia|].
    rewrite seq_S, fold_left_app, Hfold.
    cbn [fold_left Nat.add]. cbv zeta.
    rewrite (scores (cls := S n)) by lia.
    change (ltb (fst (Fin (s k), k)) (Fin (s (S n))))
      with (r_ltb (s k) (s (S n))).
    destruct (r_ltb (s k) (s (S n))) eqn:E.
    + apply r_ltb_lt in E. exists (S n).
      split; [reflexivity|]. split; [lia|].
      intros c Hc. destruct (Nat.eq_dec c (S n)) as [->|Hne]; [rlra|].
      specialize (Hmax c ltac:(lia)). rlra.
    + apply r_ltb_ge in E. exists k.
      split; [reflexivity|]. split; [lia|].
      intros c Hc. destruct (Nat.eq_dec c (S n)) as [->|Hne]; [exact E|].
      apply Hmax. lia.
Qed.

Lemma slotArgmax_real :
  0 < classes ->
  exists top,
    slotArgmax data layout slots classes slot = (Fin (s top), top) /\
    top < classes /\ (forall c, c < classes -> (s c <= s top)%R).
Proof.
  intros Hc. unfold slotArgmax.
  apply (slotArgmax_prefix (n := classes)). lia.
Qed.

Lemma slotExpSum_real (top : R) (l : list nat) (a : R) :
  (forall c, In c l -> c < classes) ->
  fold_left
    (fun expSum cls =>
       add expSum
           (exp (sub (at_ data (ocrIndex layout slots classes slot cls))
                     (Fin top))))
    l (Fin a)
  = Fin (expTotal s top l a).
Proof.
  revert a. induction l as [|c l IH]; intros a Hl.
  - reflexivity.
  - cbn [fold_left]. rewrite (scores (cls := c)) by (apply Hl; now left).
    change (add (Fin a) (exp (sub (Fin (s c)) (Fin top))))
      with (Fin (a + Rtrigo_def.exp (s c - top))%R : ext R).
    rewrite IH by (intros c' Hc'; apply Hl; now right).
    reflexivity.
Qed.

(** The denominator: at least 1, and at most [1 + (classes - 1) e^-m]
    when the margin is [m]. *)
Lemma expTotal_bounds (top : nat) :
  top < classes ->
  (1 <= expTotal s (s top) (seq 0 classes) 0)%R /\
  (forall m, marginAtLeast s classes top m ->
     (expTotal s (s top) (seq 0 classes) 0
      <= 1 + INR (classes - 1) * Rtrigo_def.exp (- m))%R).
Proof.
  intros Htop. rewrite (seq_without Htop).
  rewrite expTotal_app, expTotal_cons.
  replace (s top - s top)%R with 0%R by rlra. rewrite exp_0.
  split.
  - pose proof (expTotal_nonneg s (s top) (seq 0 top)).
    pose proof (expTotal_nonneg s (s top) (seq (S top) (classes - S top))).
    rlra.
  - intros m Hm.
    assert (H1 : (expTotal s (s top) (seq 0 top) 0
                  <= INR top * Rtrigo_def.exp (- m))%R).
    { replace (INR top) with (INR (List.length (seq 0 top)))
        by (rewrite length_seq; reflexivity).
      apply expTotal_le.
      intros c Hc. apply in_seq in Hc. apply Hm; lia. }
    assert (H2 : (expTotal s (s top) (seq (S top) (classes - S top)) 0
                  <= INR (classes - S top) * Rtrigo_def.exp (- m))%R).
    { replace (INR (classes - S top))
        with (INR (List.length (seq (S top) (classes - S top))))
        by (rewrite length_seq; reflexivity).
      apply expTotal_le.
      intros c Hc. apply in_seq in Hc. apply Hm; lia. }
    replace (classes - 1) with (top + (classes - S top)) by lia.
    rewrite plus_INR. rlra.
Qed.

Lemma slotConfidence_real :
  0 < classes ->
  exists top,
    snd (slotArgmax data layout slots classes slot) = top /\
    top < classes /\ (forall c, c < classes -> (s c <= s top)%R) /\
    slotConfidence data layout slots classes slot
    = Fin (/ expTotal s (s top) (seq 0 classes) 0)%R.
Proof.
  intros Hc. destruct (slotArgmax_real Hc) as (top & Harg & Htop & Hmax).
  exists top. unfold slotConfidence. rewrite Harg.
  split; [reflexivity|]. split; [exact Htop|]. split; [exact Hmax|].
  unfold slotExpSum. cbn [fst].
  change (lit 0 : ext R) with (Fin (Q2R 0) : ext R).
  rewrite slotExpSum_real by (intros c Hin; apply in_seq in Hin; lia).
  rewrite RMicromega.Q2R_0.
  destruct (expTotal_bounds Htop) as [Hone _].
  set (S := expTotal s (s top) (seq 0 classes) 0) in *.
  assert (Hpos : r_ltb (Q2R 0) S = true).
  { apply r_ltb_lt. rewrite RMicromega.Q2R_0. rlra. }
  change (truthy (Fin S))
    with (match (if r_ltb (Q2R 0) S then Gt
                 else if r_ltb S (Q2R 0) then Lt else Eq)
          with Eq => false | _ => true end).
  rewrite Hpos.
  change (div (lit 1) (Fin S))
    with (match (if r_ltb (Q2R 0) S then Gt
                 else if r_ltb S (Q2R 0) then Lt else Eq)
          with
          | Eq => match (if r_ltb (Q2R 0) (Q2R 1) then Gt
                         else if r_ltb (Q2R 1) (Q2R 0) then Lt else Eq)
                  with Eq => NaN | Gt => PosInf | Lt => NegInf end
          | _ => Fin (Q2R 1 * / S)%R
          end).
  rewrite Hpos, RMicromega.Q2R_1. f_equal. rlra.
Qed.
End RealSoftmax.

(** A margin of [n / eps] brings [1 / (1 + n e^-m)] within [eps] of 1. *)
Lemma margin_bound (n : nat) (eps m : R) :
  (0 < eps)%R -> (INR n / eps <= m)%R ->
  (1 - eps < 1 / (1 + INR n * Rtrigo_def.exp (- m)))%R.
Proof.
  intros Heps Hm.
  pose proof (pos_INR n) as Hn.
  assert (Hm0 : (0 <= m)%R).
  { eapply Rle_trans; [|exact Hm].
    apply Rmult_le_pos; [exact Hn|]. left. now apply Rinv_0_lt_compat. }
  assert (Hnm : (INR n <= eps * m)%R).
  { apply (Rmult_le_compat_l eps) in Hm; [|rlra].
    replace (eps * (INR n / eps))%R with (INR n) in Hm by (field; rlra).
    exact Hm. }
  pose proof (exp_ineq1_le m) as Hexp.
  pose proof (exp_pos m) as Hexp_pos.
  set (d := (INR n * Rtrigo_def.exp (- m))%R).
  assert (Hd0 : (0 <= d)%R).
  { unfold d. apply Rmult_le_pos; [exact Hn|]. left. apply exp_pos. }
  assert (Hd : (d < eps)%R).
  { unfold d. rewrite exp_Ropp.
    apply (Rmult_lt_reg_r (Rtrigo_def.exp m)); [exact Hexp_pos|].
    rewrite Rmult_assoc, Rinv_l by rlra. rnra. }
  apply (Rlt_le_trans _ (1 - d)%R); [rlra|].
  apply (Rmult_le_reg_r (1 + d)%R); [rlra|].
  replace (1 / (1 + d) * (1 + d))%R with 1%R by (field; rlra).
  rnra.
Qed.

(** C8. For a slot whose 37 raw scores are finite, the confidence
    [1 / sum_c exp(score_c - maxScore)] computed by [decodeOcrOutput]
    lies in (0, 1]; when every other class scores at least [m] below
    the top one it is at least [1 / (1 + 36 e^-m)], a bound that grows
    to 1 with [m]: for every [eps > 0] a large enough margin brings the
    confidence above [1 - eps]. *)
Theorem slotConfidence_softmax :
  (forall (data : list (ext R)) layout slots slot (s : nat -> R),
      slotScores data layout slots (List.length OCR_ALPHABET) slot s ->
      exists (c : R) (top : nat),
        slotConfidence data layout slots (List.length OCR_ALPHABET) slot
        = Fin c /\
        snd (slotArgmax data layout slots (List.length OCR_ALPHABET) slot)
        = top /\
        top < 37 /\
        (forall cls, cls < 37 -> (s cls <= s top)%R) /\
        c = (1 / expTotal s (s top) (seq 0 37) 0)%R /\
        (0 < c <= 1)%R /\
        (forall m, marginAtLeast s 37 top m ->
           (1 / (1 + 36 * Rtrigo_def.exp (- m)) <= c)%R)) /\
  (forall eps : R, (0 < eps)%R ->
     exists m0 : R,
       forall (data : list (ext R)) layout slots slot (s : nat -> R) (c : R),
         slotScores data layout slots (List.length OCR_ALPHABET) slot s ->
         slotConfidence data layout slots (List.length OCR_ALPHABET) slot
         = Fin c ->
         marginAtLeast s 37
           (snd (slotArgmax data layout slots (List.length OCR_ALPHABET) slot))
           m0 ->
         (1 - eps < c)%R).
Proof.
  change (List.length OCR_ALPHABET) with 37.
  assert (Hrange :
    forall (data : list (ext R)) layout slots slot (s : nat -> R),
      slotScores data layout slots 37 slot s ->
      exists (c : R) (top : nat),
        slotConfidence data layout slots 37 slot = Fin c /\
        snd (slotArgmax data layout slots 37 slot) = top /\
        top < 37 /\
        (forall cls, cls < 37 -> (s cls <= s top)%R) /\
        c = (1 / expTotal s (s top) (seq 0 37) 0)%R /\
        (0 < c <= 1)%R /\
        (forall m, marginAtLeast s 37 top m ->
           (1 / (1 + 36 * Rtrigo_def.exp (- m)) <= c)%R)).
  { intros data layout slots slot s Hs.
    assert (H37 : 0 < 37) by lia.
    destruct (slotConfidence_real Hs H37) as (top & Harg & Htop & Hmax & Hc).
    destruct (expTotal_bounds (classes := 37) s Htop) as [Hone Hup].
    exists (/ expTotal s (s top) (seq 0 37) 0)%R, top.
    split; [exact Hc|]. split; [exact Harg|]. split; [exact Htop|].
    split; [exact Hmax|].
    generalize dependent (expTotal s (s top) (seq 0 37) 0).
    intros S _ Hone Hup.
    split; [unfold Rdiv; rewrite Rmult_1_l; reflexivity|].
    assert (Hinv : (0 < / S)%R) by (apply Rinv_0_lt_compat; rlra).
    split.
    - split; [exact Hinv|].
      rewrite <- Rinv_1. apply Rinv_le_contravar; rlra.
    - intros m Hm. specialize (Hup m Hm).
      replace (INR (37 - 1)) with 36%R in Hup
        by (change (37 - 1) with 36; rewrite INR_IZR_INZ; reflexivity).
      unfold Rdiv. rewrite Rmult_1_l.
      apply Rinv_le_contravar; rlra. }
  split; [exact Hrange|].
  intros eps Heps. exists (INR 36 / eps)%R.
  intros data layout slots slot s c Hs Hc Hm.
  destruct (Hrange data layout slots slot s Hs)
    as (c' & top & Hc' & Harg & _ & _ & _ & _ & Hlow).
  rewrite Hc' in Hc. injection Hc as <-.
  rewrite Harg in Hm. specialize (Hlow _ Hm).
  eapply Rlt_le_trans; [|exact Hlow].
  replace 36%R with (INR 36) by (rewrite INR_IZR_INZ; reflexivity).
  apply margin_bound; [exact Heps|]. apply Rle_refl.
Qed.

Lemma nth_repeat_lt {A} (x d : A) (n i : nat) :
  i < n -> nth i (repeat x n) d = x.
Proof.
  revert i. induction n as [|n IH]; intros i Hi; [lia|].
  destruct i as [|i]; [reflexivity|]. cbn. apply IH. lia.
Qed.

Lemma slotConfidence_softmax_witness :
  exists (c : R) (top : nat),
    slotConfidence flatSlot SlotsFirst 1 (List.length OCR_ALPHABET) 0 = Fin c /\
    snd (slotArgmax flatSlot SlotsFirst 1 (List.length OCR_ALPHABET) 0) = top /\
    top < 37 /\
    (forall cls, cls < 37 -> (0 <= 0)%R) /\
    c = (1 / expTotal (fun _ => 0%R) 0 (seq 0 37) 0)%R /\
    (0 < c <= 1)%R /\
    (forall m, marginAtLeast (fun _ => 0%R) 37 top m ->
       (1 / (1 + 36 * Rtrigo_def.exp (- m)) <= c)%R).
Proof.
  apply (proj1 slotConfidence_softmax flatSlot SlotsFirst 1 0 (fun _ => 0%R)).
  intros cls Hcls. unfold at_, ocrIndex, flatSlot.
  change (List.length OCR_ALPHABET) with 37 in *.
  apply nth_repeat_lt. lia.
Defined.

(* ================================================================== *)
(** * Properties of the plate text extractor *)
(* ================================================================== *)

(** ** Matching a quantified class *)

(** A greedy class with nothing after it matches the longest run. *)
Lemma repeatClass_greedy (p : N -> bool) (lo budget : nat) (s : jsstring) :
  repeatClass p lo budget (fun _ => Some 0) s
  = if lo <=? classRun p budget s then Some (classRun p budget s) else None.
Proof.
  revert lo s. induction budget as [|budget IH]; intros lo s.
  - cbn. destruct lo; reflexivity.
  - destruct s as [|c s].
    + cbn. destruct lo; reflexivity.
    + cbn [repeatClass classRun]. destruct (p c).
      * rewrite IH. destruct lo as [|lo].
        -- cbn. reflexivity.
        -- cbn [Nat.pred]. change (S lo <=? S (classRun p budget s))
             with (lo <=? classRun p budget s).
           destruct (lo <=? classRun p budget s); reflexivity.
      * destruct lo; reflexivity.
Qed.

(** A class anchored at the end of the string matches the whole string
    or nothing. *)
Lemma repeatClass_whole (p : N -> bool) (lo budget : nat) (s : jsstring) :
  repeatClass p lo budget
    (fun rest => match rest with [] => Some 0 | _ => None end) s
  = if forallb p s && (lo <=? List.length s) && (List.length s <=? budget)
    then Some (List.length s) else None.
Proof.
  revert lo s. induction budget as [|budget IH]; intros lo s.
  - destruct s as [|c s]; cbn.
    + destruct lo; reflexivity.
    + destruct lo; cbn; now rewrite ?andb_false_r.
  - destruct s as [|c s].
    + cbn. destruct lo; reflexivity.
    + cbn [repeatClass forallb List.length]. destruct (p c) eqn:Hp.
      * rewrite IH. cbn [andb].
        change (List.length s <=? budget) with (S (List.length s) <=? S budget).
        destruct lo as [|lo]; cbn [Nat.pred].
        -- change (0 <=? List.length s) with true.
           change (0 <=? S (List.length s)) with true.
           destruct (forallb p s && true && (S (List.length s) <=? S budget));
             reflexivity.
        -- change (lo <=? List.length s) with (S lo <=? S (List.length s)).
           destruct (forallb p s && (S lo <=? S (List.length s))
                     && (S (List.length s) <=? S budget)); reflexivity.
      * cbn [andb]. destruct lo; reflexivity.
Qed.

Lemma classRun_le_budget p budget s : classRun p budget s <= budget.
Proof.
  revert s. induction budget as [|b IH]; intros [|c s]; cbn; try lia.
  destruct (p c); [specialize (IH s)|]; lia.
Qed.

Lemma classRun_le_length p budget s : classRun p budget s <= List.length s.
Proof.
  revert s. induction budget as [|b IH]; intros [|c s]; cbn; try lia.
  destruct (p c); [specialize (IH s)|]; lia.
Qed.

Lemma classRun_prefix p budget s :
  Forall (fun c => p c = true) (firstn (classRun p budget s) s).
Proof.
  revert s. induction budget as [|b IH]; intros [|c s]; cbn; try constructor.
  destruct (p c) eqn:Hp; cbn; constructor; [exact Hp | apply IH].
Qed.

(** Every prefix of class [p] within the budget is covered by the
    run. *)
Lemma classRun_longest p budget m post :
  Forall (fun c => p c = true) m -> List.length m <= budget ->
  List.length m <= classRun p budget (m ++ post).
Proof.
  revert m. induction budget as [|b IH]; intros m Hm Hlen.
  - lia.
  - destruct m as [|c m]; [cbn; lia|].
    inversion Hm as [|? ? Hc Hm']; subst.
    cbn in Hlen. cbn [app classRun List.length]. rewrite Hc.
    specialize (IH m Hm' ltac:(lia)). lia.
Qed.

Lemma firstn_prefix {A} (s : list A) (n : nat) :
  exists post, s = firstn n s ++ post.
Proof. exists (skipn n s). now rewrite firstn_skipn. Qed.

(** ** The two plate patterns *)

Lemma looseRe_recognises : recognises looseRe looseShape.
Proof.
  intros s. unfold matchHere, looseRe, matchK. cbn [cls lo hi].
  rewrite repeatClass_greedy.
  pose proof (classRun_le_budget isAlnum 8 s) as Hb.
  pose proof (classRun_prefix isAlnum 8 s) as Hp.
  pose proof (classRun_le_length isAlnum 8 s) as Hl.
  destruct (Nat.leb_spec 5 (classRun isAlnum 8 s)) as [H5|H5].
  - split.
    + destruct (firstn_prefix s (classRun isAlnum 8 s)) as [post Hpost].
      exists post. split; [exact Hpost|]. split; [|exact Hp].
      rewrite length_firstn. lia.
    + intros m (post & -> & [Hlen Hm]).
      apply classRun_longest; [exact Hm | lia].
  - intros m (post & -> & [Hlen Hm]).
    pose proof (classRun_longest isAlnum (budget := 8) post Hm ltac:(lia)).
    lia.
Qed.

Lemma repeatClass_exact (p : N -> bool) (k : jsstring -> option nat)
    (c : N) (s : jsstring) (n : nat) :
  repeatClass p (S n) (S n) k (c :: s)
  = if p c then option_map S (repeatClass p n n k s) else None.
Proof.
  cbn [repeatClass Nat.pred]. destruct (p c); [|reflexivity].
  destruct (repeatClass p n n k s); reflexivity.
Qed.

Lemma repeatClass_exact_nil (p : N -> bool) (k : jsstring -> option nat)
    (n : nat) :
  repeatClass p (S n) (S n) k [] = None.
Proof. reflexivity. Qed.

Lemma repeatClass_zero (p : N -> bool) (k : jsstring -> option nat) s :
  repeatClass p 0 0 k s = k s.
Proof. destruct s; reflexivity. Qed.

Lemma matchK_strictRe (k : jsstring -> option nat) (s : jsstring) :
  matchK strictRe k s
  = if strictPrefix s then option_map (Nat.add 7) (k (skipn 7 s)) else None.
Proof.
  unfold strictRe, matchK. cbn [cls lo hi].
  destruct s as [|a [|b [|c [|d [|e [|f [|g s]]]]]]];
    repeat (rewrite ?repeatClass_exact, ?repeatClass_exact_nil,
              ?repeatClass_zero;
            cbn [strictPrefix option_map andb skipn];
            try reflexivity;
            match goal with
            | |- context [if ?t ?x then _ else _] =>
                destruct (t x); cbn [andb option_map]; try reflexivity
            end).
  destruct (k s); reflexivity.
Qed.

Lemma strictShape_length m : strictShape m -> List.length m = 7.
Proof. intros (a & b & c & d & e & f & g & -> & _). reflexivity. Qed.

Lemma strictPrefix_spec s :
  strictPrefix s = true <-> prefixMatch strictShape s (firstn 7 s).
Proof.
  split.
  - intros Hp.
    destruct s as [|a [|b [|c [|d [|e [|f [|g s]]]]]]]; try discriminate.
    cbn [strictPrefix] in Hp. repeat rewrite andb_true_iff in Hp.
    destruct Hp as [[[[[[Ha Hb] Hc] Hd] He] Hf] Hg].
    exists s. split; [reflexivity|].
    exists a, b, c, d, e, f, g. cbn [firstn]. repeat split; assumption.
  - intros (post & Hs & (a & b & c & d & e & f & g & Hm & Ha & Hb & Hc & Hd
                         & He & Hf & Hg)).
    rewrite Hm in Hs. rewrite Hs. cbn [app strictPrefix].
    now rewrite Ha, Hb, Hc, Hd, He, Hf, Hg.
Qed.

Lemma prefixMatch_strict_firstn s m :
  prefixMatch strictShape s m -> m = firstn 7 s.
Proof.
  intros (post & -> & Hm). pose proof (strictShape_length Hm) as Hlen.
  rewrite firstn_app. replace (7 - List.length m) with 0 by lia.
  rewrite <- Hlen, firstn_all, firstn_O, app_nil_r. reflexivity.
Qed.

Lemma strictRe_recognises : recognises strictRe strictShape.
Proof.
  intros s. unfold matchHere. rewrite matchK_strictRe.
  destruct (strictPrefix s) eqn:Hp; cbn [option_map Nat.add].
  - apply strictPrefix_spec in Hp. split; [exact Hp|].
    intros m Hm. destruct Hm as (post & _ & Hm).
    rewrite (strictShape_length Hm). lia.
  - intros m Hm. pose proof (prefixMatch_strict_firstn Hm) as ->.
    apply strictPrefix_spec in Hm. congruence.
Qed.

(** ** Leftmost search *)

Lemma occursAt_zero (P : jsstring -> Prop) s m :
  occursAt P s 0 m <-> prefixMatch P s m.
Proof.
  unfold occursAt, prefixMatch. cbn [firstn app]. split.
  - intros (post & Hs & _ & Hm). now exists post.
  - intros (post & Hs & Hm). exists post. repeat split; [exact Hs|lia|exact Hm].
Qed.

Lemma occursAt_succ (P : jsstring -> Prop) c s i m :
  occursAt P (c :: s) (S i) m <-> occursAt P s i m.
Proof.
  unfold occursAt. cbn [firstn app List.length]. split.
  - intros (post & Hs & Hi & Hm). exists post.
    injection Hs as Hs. repeat split; [exact Hs|lia|exact Hm].
  - intros (post & Hs & Hi & Hm). exists post.
    repeat split; [now f_equal|lia|exact Hm].
Qed.

Lemma occursAt_nil (P : jsstring -> Prop) i m :
  occursAt P [] i m -> i = 0.
Proof. intros (post & _ & Hi & _). cbn in Hi. lia. Qed.

Lemma prefixMatch_longest (P : jsstring -> Prop) s n m :
  (forall m', prefixMatch P s m' -> List.length m' <= n) ->
  occursAt P s 0 m -> List.length m <= List.length (firstn n s).
Proof.
  intros Hmax Hm. apply occursAt_zero in Hm.
  pose proof (Hmax m Hm) as Hn. destruct Hm as (post & Hs & _).
  apply (f_equal (@List.length N)) in Hs. rewrite length_app in Hs.
  rewrite length_firstn. lia.
Qed.

(** [search] returns the first match of a recognised shape, and [null]
    only when the shape occurs nowhere. *)
Lemma search_first (r : Regex) (P : jsstring -> Prop) :
  recognises r P ->
  forall s,
    match search r s with
    | Some m => firstMatch P s m
    | None => noMatch P s
    end.
Proof.
  intros Hr s. induction s as [|c s IH].
  - cbn [search]. specialize (Hr []).
    destruct (matchHere r []) as [n|].
    + destruct Hr as [Hpre Hmax]. exists 0. split.
      * now apply occursAt_zero.
      * split; [intros j m' Hj; lia|].
        intros m' Hm'. now apply (prefixMatch_longest (P := P)).
    + intros i m Hocc. pose proof (occursAt_nil Hocc) as ->.
      apply occursAt_zero in Hocc. exact (Hr m Hocc).
  - cbn [search]. specialize (Hr (c :: s)).
    destruct (matchHere r (c :: s)) as [n|].
    + destruct Hr as [Hpre Hmax]. exists 0. split.
      * now apply occursAt_zero.
      * split; [intros j m' Hj; lia|].
        intros m' Hm'. now apply (prefixMatch_longest (P := P)).
    + destruct (search r s) as [m|].
      * destruct IH as (i & Hocc & Hleft & Hlong). exists (S i). split.
        -- now apply occursAt_succ.
        -- split.
           ++ intros [|j] m' Hj Hm'.
              ** apply occursAt_zero in Hm'. exact (Hr m' Hm').
              ** apply occursAt_succ in Hm'. apply (Hleft j m'); [lia|exact Hm'].
           ++ intros m' Hm'. apply occursAt_succ in Hm'. now apply Hlong.
      * intros [|i] m Hocc.
        -- apply occursAt_zero in Hocc. exact (Hr m Hocc).
        -- apply occursAt_succ in Hocc. exact (IH i m Hocc).
Qed.

Lemma search_none (r : Regex) (P : jsstring -> Prop) s :
  recognises r P -> noMatch P s -> search r s = None.
Proof.
  intros Hr Hno. pose proof (search_first Hr s) as Hs.
  destruct (search r s) as [m|]; [|reflexivity].
  destruct Hs as (i & Hocc & _). exfalso. exact (Hno i m Hocc).
Qed.

(** ** Cleaning and condensing *)

Lemma isAlnum_not_space c : isAlnum c = true -> isSpace c = false.
Proof.
  unfold isAlnum, isUpperAZ, isDigit, isSpace. intros Hc.
  repeat rewrite orb_false_iff. repeat rewrite andb_false_iff.
  rewrite !N.eqb_neq, !N.leb_gt.
  apply orb_true_iff in Hc.
  repeat rewrite andb_true_iff in Hc. rewrite !N.leb_le in Hc.
  repeat split; lia.
Qed.

Lemma matchHere_nonAlnum c s :
  matchHere nonAlnumRe (c :: s) = if isAlnum c then None else Some 1.
Proof.
  unfold matchHere, nonAlnumRe, matchK. cbn [cls lo hi].
  rewrite repeatClass_exact, repeatClass_zero. unfold notAlnum.
  destruct (isAlnum c); reflexivity.
Qed.

(** Replacing each non-alphanumeric code unit maps over the string. *)
Lemma replaceAll_nonAlnum (repl : jsstring) s :
  replaceAll nonAlnumRe repl 0 s
  = List.concat (List.map (fun c => if isAlnum c then [c] else repl) s).
Proof.
  induction s as [|c s IH]; [reflexivity|].
  cbn [replaceAll]. rewrite matchHere_nonAlnum.
  cbn [List.map List.concat].
  destruct (isAlnum c).
  - rewrite IH. reflexivity.
  - destruct s as [|c' s]; [reflexivity|].
    cbn [replaceAll] in IH |- *. rewrite IH. reflexivity.
Qed.

Lemma matchHere_spaces s :
  matchHere spacesRe s
  = if 1 <=? classRun isSpace (List.length s) s
    then Some (classRun isSpace (List.length s) s) else None.
Proof.
  unfold matchHere, spacesRe, matchK. cbn [cls lo hi].
  apply repeatClass_greedy.
Qed.

Lemma classRun_cons_space c s :
  isSpace c = true ->
  classRun isSpace (List.length (c :: s)) (c :: s)
  = S (classRun isSpace (List.length s) s).
Proof. intros Hc. cbn [List.length classRun]. now rewrite Hc. Qed.

Lemma classRun_cons_other c s :
  isSpace c = false ->
  classRun isSpace (List.length (c :: s)) (c :: s) = 0.
Proof. intros Hc. cbn [List.length classRun]. now rewrite Hc. Qed.

(** Removing the whitespace runs filters the whitespace out. *)
Lemma replaceAll_spaces s :
  forall skip,
    skip <= classRun isSpace (List.length s) s ->
    replaceAll spacesRe [] skip s = filter (fun c => negb (isSpace c)) s.
Proof.
  induction s as [|c s IH]; intros skip Hskip.
  - cbn in Hskip. replace skip with 0 by lia. reflexivity.
  - cbn [replaceAll filter]. destruct (isSpace c) eqn:Hc; cbn [negb].
    + rewrite (@classRun_cons_space c s Hc) in Hskip.
      destruct skip as [|skip].
      * rewrite matchHere_spaces, (@classRun_cons_space c s Hc).
        cbn [Nat.leb app]. apply IH. lia.
      * apply IH. lia.
    + rewrite (@classRun_cons_other c s Hc) in Hskip.
      replace skip with 0 by lia.
      rewrite matchHere_spaces, (@classRun_cons_other c s Hc).
      cbn [Nat.leb]. f_equal. apply IH. lia.
Qed.

Lemma cleanedText_map (toUpperCase : jsstring -> jsstring) rawText :
  cleanedText toUpperCase rawText = List.map blankOut (toUpperCase rawText).
Proof.
  unfold cleanedText. rewrite replaceAll_nonAlnum.
  induction (toUpperCase rawText) as [|c s IH]; [reflexivity|].
  cbn [List.map List.concat]. rewrite IH. unfold blankOut.
  destruct (isAlnum c); reflexivity.
Qed.

Lemma blankOut_space c : isSpace (blankOut c) = negb (isAlnum c).
Proof.
  unfold blankOut. destruct (isAlnum c) eqn:Hc; cbn [negb].
  - now apply isAlnum_not_space.
  - reflexivity.
Qed.

Lemma blankOut_alnum c : isAlnum (blankOut c) = isAlnum c.
Proof.
  unfold blankOut. destruct (isAlnum c) eqn:Hc; [exact Hc | reflexivity].
Qed.

Lemma condensedText_filter (toUpperCase : jsstring -> jsstring) rawText :
  condensedText toUpperCase rawText = filter isAlnum (toUpperCase rawText).
Proof.
  unfold condensedText. rewrite replaceAll_spaces by lia.
  rewrite cleanedText_map.
  induction (toUpperCase rawText) as [|c s IH]; [reflexivity|].
  cbn [List.map filter]. rewrite blankOut_space, negb_involutive, IH.
  unfold blankOut. destruct (isAlnum c); reflexivity.
Qed.

(** ** Tokens *)

Lemma alnumRuns_blank cur c s :
  isAlnum c = false ->
  alnumRuns cur (c :: s) = keepNonEmpty cur (alnumRuns [] s).
Proof.
  intros Hc. cbn [alnumRuns]. rewrite Hc. destruct cur; reflexivity.
Qed.

(** On a cleaned text, splitting at whitespace and dropping the empty
    pieces yields the alphanumeric runs. *)
Lemma splitBy_spaces_runs s :
  Forall (fun c => isSpace c = negb (isAlnum c)) s ->
  forall skip cur,
    skip <= classRun isSpace (List.length s) s ->
    (0 < skip -> cur = []) ->
    filter nonEmpty (splitBy spacesRe skip cur s) = alnumRuns cur s.
Proof.
  induction 1 as [|c s Hc Hs IH]; intros skip cur Hskip Hcur.
  - cbn. destruct cur; reflexivity.
  - cbn [splitBy]. destruct (isSpace c) eqn:Hsp.
    + assert (Hal : isAlnum c = false).
      { destruct (isAlnum c); [discriminate|reflexivity]. }
      rewrite (@classRun_cons_space c s Hsp) in Hskip.
      rewrite (@alnumRuns_blank cur c s Hal).
      destruct skip as [|skip].
      * rewrite matchHere_spaces, (@classRun_cons_space c s Hsp).
        cbn [Nat.leb filter].
        rewrite (IH (classRun isSpace (List.length s) s) []) by (auto; lia).
        destruct cur; reflexivity.
      * rewrite (Hcur ltac:(lia)). cbn [keepNonEmpty].
        apply IH; [lia | reflexivity].
    + assert (Hal : isAlnum c = true).
      { destruct (isAlnum c); [reflexivity|discriminate]. }
      rewrite (@classRun_cons_other c s Hsp) in Hskip.
      replace skip with 0 by lia.
      rewrite matchHere_spaces, (@classRun_cons_other c s Hsp).
      cbn [Nat.leb alnumRuns]. rewrite Hal.
      apply IH; [lia | intros; lia].
Qed.

Lemma alnumRuns_blankOut cur s :
  alnumRuns cur (List.map blankOut s) = alnumRuns cur s.
Proof.
  revert cur. induction s as [|c s IH]; intros cur; [reflexivity|].
  cbn [List.map alnumRuns]. rewrite blankOut_alnum.
  destruct (isAlnum c) eqn:Hc.
  - unfold blankOut. rewrite Hc. apply IH.
  - rewrite !IH. reflexivity.
Qed.

Lemma plateCandidates_runs (toUpperCase : jsstring -> jsstring) rawText :
  plateCandidates toUpperCase rawText = alnumRuns [] (toUpperCase rawText).
Proof.
  unfold plateCandidates. rewrite cleanedText_map.
  rewrite splitBy_spaces_runs.
  - apply alnumRuns_blankOut.
  - apply Forall_forall. intros c Hc. apply in_map_iff in Hc.
    destruct Hc as (c0 & <- & _).
    rewrite blankOut_space, blankOut_alnum. reflexivity.
  - lia.
  - intros; lia.
Qed.

(** ** Whole-token tests *)

Lemma testWhole_strict t : testWhole strictRe t = true <-> strictShape t.
Proof.
  unfold testWhole. rewrite matchK_strictRe.
  destruct (strictPrefix t) eqn:Hp.
  - apply strictPrefix_spec in Hp.
    destruct Hp as (post & Ht & Hshape).
    pose proof (strictShape_length Hshape) as Hlen.
    assert (Hskip : skipn 7 t = post).
    { rewrite Ht at 1. rewrite skipn_app, Hlen, Nat.sub_diag.
      rewrite (skipn_all2 (firstn 7 t)) by lia. reflexivity. }
    rewrite Hskip. destruct post as [|c post]; cbn [option_map].
    + rewrite app_nil_r in Ht. rewrite Ht. tauto.
    + split; [discriminate|]. intros Hs.
      apply strictShape_length in Hs. rewrite Ht, length_app, Hlen in Hs.
      cbn in Hs. lia.
  - split; [discriminate|]. intros Hs. exfalso.
    assert (Hpre : prefixMatch strictShape t (firstn 7 t)).
    { exists []. rewrite app_nil_r. rewrite <- (strictShape_length Hs).
      rewrite firstn_all. split; [reflexivity|exact Hs]. }
    apply strictPrefix_spec in Hpre. congruence.
Qed.

Lemma testWhole_loose t : testWhole looseRe t = true <-> looseShape t.
Proof.
  unfold testWhole, looseRe, matchK. cbn [cls lo hi].
  rewrite repeatClass_whole. unfold looseShape.
  destruct (forallb isAlnum t) eqn:Hall; cbn [andb].
  - rewrite forallb_forall in Hall.
    destruct (Nat.leb_spec 5 (List.length t)) as [H5|H5];
      destruct (Nat.leb_spec (List.length t) 8) as [H8|H8]; cbn [andb].
    + split; [intros _|reflexivity].
      split; [lia|]. apply Forall_forall. exact Hall.
    + split; [discriminate|]. intros [Hlen _]. lia.
    + split; [discriminate|]. intros [Hlen _]. lia.
    + split; [discriminate|]. intros [Hlen _]. lia.
  - split; [discriminate|]. intros [_ Ht]. exfalso.
    rewrite Forall_forall in Ht.
    assert (Hc : forallb isAlnum t = true) by (apply forallb_forall; exact Ht).
    congruence.
Qed.

(** [find] returns the first token that passes the test. *)
Lemma find_firstToken (test : jsstring -> bool) (P : jsstring -> Prop)
    (l : list jsstring) :
  (forall t, test t = true <-> P t) ->
  match find test l with
  | Some t => firstToken P l t
  | None => Forall (fun u => ~ P u) l
  end.
Proof.
  intros Htest. induction l as [|u l IH]; cbn [find].
  - constructor.
  - destruct (test u) eqn:Hu.
    + exists [], l. split; [reflexivity|]. split; [|constructor].
      now apply Htest.
    + assert (Hnu : ~ P u).
      { intros HP. apply Htest in HP. congruence. }
      destruct (find test l) as [t|].
      * destruct IH as (before & after & -> & Ht & Hbefore).
        exists (u :: before), after. split; [reflexivity|].
        split; [exact Ht|]. now constructor.
      * now constructor.
Qed.

Lemma strictShape_nonEmpty t : strictShape t -> nonEmpty t = true.
Proof. intros (a & b & c & d & e & f & g & -> & _). reflexivity. Qed.

Lemma looseShape_nonEmpty t : looseShape t -> nonEmpty t = true.
Proof. intros [[Hlen _] _]. destruct t; [cbn in Hlen; lia | reflexivity]. Qed.

(** ** Tokens are pieces of the condensed text *)

(** Every token occurs, in one piece, in the condensed text. *)
Lemma alnumRuns_in_condensed s :
  forall cur t,
    In t (alnumRuns cur s) ->
    exists pre post, cur ++ filter isAlnum s = pre ++ t ++ post.
Proof.
  induction s as [|c s IH]; intros cur t Hin.
  - cbn [alnumRuns] in Hin. destruct cur as [|c0 cur]; [destruct Hin|].
    destruct Hin as [<-|[]]. exists [], []. cbn [filter app].
    rewrite !app_nil_r. reflexivity.
  - cbn [alnumRuns filter] in Hin |- *. destruct (isAlnum c).
    + destruct (IH _ _ Hin) as (pre & post & Heq).
      exists pre, post. rewrite <- Heq, <- app_assoc. reflexivity.
    + destruct cur as [|c0 cur].
      * destruct (IH _ _ Hin) as (pre & post & Heq). now exists pre, post.
      * destruct Hin as [<-|Hin].
        -- exists [], (filter isAlnum s). reflexivity.
        -- destruct (IH _ _ Hin) as (pre & post & Heq). cbn [app] in Heq.
           exists ((c0 :: cur) ++ pre), post.
           rewrite Heq, <- app_assoc. reflexivity.
Qed.

Lemma occursAt_middle (P : jsstring -> Prop) pre m post :
  P m -> occursAt P (pre ++ m ++ post) (List.length pre) m.
Proof.
  intros Hm. exists post. split.
  - rewrite firstn_app, Nat.sub_diag, firstn_all, firstn_O, app_nil_r.
    reflexivity.
  - split; [rewrite length_app; lia | exact Hm].
Qed.

(** A token of 5 alphanumerics or more already gives a loose match in
    the condensed text: the two token steps of [extractPlate] are only
    reached when no token can pass them. *)
Lemma tokens_too_short s :
  noMatch looseShape (filter isAlnum s) ->
  Forall (fun t => ~ strictShape t /\ ~ looseShape t) (alnumRuns [] s).
Proof.
  intros Hno. apply Forall_forall. intros t Hin.
  destruct (alnumRuns_in_condensed s [] t Hin) as (pre & post & Heq).
  cbn [app] in Heq.
  assert (Hloose : ~ looseShape t).
  { intros Ht. apply (Hno (List.length pre) t).
    rewrite Heq. now apply occursAt_middle. }
  split; [|exact Hloose].
  intros Ht. apply Hloose. apply testWhole_loose.
  destruct Ht as (a & b & c & d & e & f & g & -> & Ha & Hb & Hc & Hd & He
                  & Hf & Hg).
  unfold testWhole, looseRe, matchK. cbn [cls lo hi].
  rewrite repeatClass_whole. cbn [forallb List.length]. unfold isAlnum.
  rewrite Ha, Hb, Hc, Hd, He, Hf, Hg. cbn [orb andb].
  rewrite !orb_true_r. reflexivity.
Qed.

Lemma orElse_found t b : nonEmpty t = true -> orElse (Some t) b = t.
Proof. intros Ht. unfold orElse. rewrite Ht. reflexivity. Qed.

Lemma orElse_missing b : orElse None b = b.
Proof. reflexivity. Qed.

Section ExtractPlateFacts.
Variable toUpperCase : jsstring -> jsstring.

(** The matching policy, for any uppercasing function. *)
Lemma extractPlate_priority (rawText : jsstring) :
  let condensed := filter isAlnum (toUpperCase rawText) in
  let tokens := alnumRuns [] (toUpperCase rawText) in
  let result := extractPlate toUpperCase rawText in
  condensedText toUpperCase rawText = condensed /\
  plateCandidates toUpperCase rawText = tokens /\
  (~ noMatch strictShape condensed -> firstMatch strictShape condensed result) /\
  (noMatch strictShape condensed -> ~ noMatch looseShape condensed ->
   firstMatch looseShape condensed result) /\
  (noMatch strictShape condensed -> noMatch looseShape condensed ->
   Exists strictShape tokens -> firstToken strictShape tokens result) /\
  (noMatch strictShape condensed -> noMatch looseShape condensed ->
   Forall (fun t => ~ strictShape t) tokens ->
   Exists looseShape tokens -> firstToken looseShape tokens result) /\
  (noMatch strictShape condensed -> noMatch looseShape condensed ->
   Forall (fun t => ~ strictShape t) tokens ->
   Forall (fun t => ~ looseShape t) tokens -> result = []).
Proof.
  cbv zeta. unfold extractPlate.
  rewrite condensedText_filter, plateCandidates_runs.
  set (condensed := filter isAlnum (toUpperCase rawText)).
  set (tokens := alnumRuns [] (toUpperCase rawText)).
  split; [reflexivity|]. split; [reflexivity|].
  pose proof (search_first strictRe_recognises condensed) as Hstrict.
  pose proof (search_first looseRe_recognises condensed) as Hloose.
  pose proof (@find_firstToken _ _ tokens testWhole_strict) as Htok.
  pose proof (@find_firstToken _ _ tokens testWhole_loose) as Htok'.
  assert (Habsurd : forall P m, firstMatch P condensed m ->
                                noMatch P condensed -> False).
  { intros P m (i & Hocc & _) Hno. exact (Hno i m Hocc). }
  assert (Hexists : forall (P : jsstring -> Prop) l,
             Forall (fun t => ~ P t) l -> Exists P l -> False).
  { intros P l Hall Hex. apply Exists_exists in Hex.
    destruct Hex as (t & Hin & Ht). rewrite Forall_forall in Hall.
    exact (Hall t Hin Ht). }
  assert (Hfirst : forall (P : jsstring -> Prop) l t,
             firstToken P l t -> Forall (fun u => ~ P u) l -> False).
  { intros P l t (before & after & -> & Ht & _) Hall.
    rewrite Forall_forall in Hall. apply (Hall t); [|exact Ht].
    apply in_or_app. right. now left. }
  destruct (search strictRe condensed) as [strict|].
  { repeat split; intros; try (exfalso; eapply Habsurd; eassumption).
    exact Hstrict. }
  destruct (search looseRe condensed) as [loose|].
  { repeat split; intros; try (exfalso; eapply Habsurd; eassumption).
    - contradiction.
    - exact Hloose. }
  destruct (find (testWhole strictRe) tokens) as [t|].
  { assert (Ht : strictShape t).
    { destruct Htok as (before & after & _ & Ht & _). exact Ht. }
    rewrite (@orElse_found t _ (strictShape_nonEmpty Ht)).
    split; [intros Hn; contradiction|].
    split; [intros _ Hn; contradiction|].
    split; [intros _ _ _; exact Htok|].
    split; intros _ _ Hall; exfalso; exact (Hfirst _ _ _ Htok Hall). }
  destruct (find (testWhole looseRe) tokens) as [t|].
  { assert (Ht : looseShape t).
    { destruct Htok' as (before & after & _ & Ht & _). exact Ht. }
    rewrite orElse_missing, (@orElse_found t _ (looseShape_nonEmpty Ht)).
    split; [intros Hn; contradiction|].
    split; [intros _ Hn; contradiction|].
    split; [intros _ _ Hex; exfalso; exact (Hexists _ _ Htok Hex)|].
    split; [intros _ _ _ _; exact Htok'|].
    intros _ _ _ Hall. exfalso. exact (Hfirst _ _ _ Htok' Hall). }
  rewrite !orElse_missing.
  split; [intros Hn; contradiction|].
  split; [intros _ Hn; contradiction|].
  split; [intros _ _ Hex; exfalso; exact (Hexists _ _ Htok Hex)|].
  split; [intros _ _ _ Hex; exfalso; exact (Hexists _ _ Htok' Hex)|].
  intros _ _ _ _. reflexivity.
Qed.

(** When neither pattern occurs in the condensed text, nothing is
    found. *)
Lemma extractPlate_nothing (rawText : jsstring) :
  noMatch strictShape (filter isAlnum (toUpperCase rawText)) ->
  noMatch looseShape (filter isAlnum (toUpperCase rawText)) ->
  extractPlate toUpperCase rawText = [].
Proof.
  intros Hs Hl.
  destruct (extractPlate_priority rawText) as (_ & _ & _ & _ & _ & _ & Hempty).
  cbv zeta in Hempty.
  pose proof (tokens_too_short _ Hl) as Htok.
  apply Hempty; try assumption;
    apply Forall_forall; intros t Ht;
    rewrite Forall_forall in Htok; destruct (Htok t Ht); assumption.
Qed.

Hypothesis toUpperCase_ascii :
  forall s, isAscii s -> toUpperCase s = asciiUpper s.

Lemma extractPlate_ascii (rawText : jsstring) :
  isAscii rawText ->
  extractPlate toUpperCase rawText = extractPlate asciiUpper rawText /\
  condensedText toUpperCase rawText = condensedText asciiUpper rawText.
Proof.
  intros Ha. unfold extractPlate, condensedText, plateCandidates, cleanedText.
  rewrite (toUpperCase_ascii Ha). split; reflexivity.
Qed.
End ExtractPlateFacts.

Lemma isAscii_js (s : string) :
  forallb (fun c => (c <? 128)%N) (js s) = true -> isAscii (js s).
Proof.
  intros Hs. apply Forall_forall. intros c Hc.
  rewrite forallb_forall in Hs. apply N.ltb_lt. now apply Hs.
Qed.

(** C1. [extractPlate] applies the matching policy in priority order:
    the first strict match ([A-Z]{2}\d{2}[A-Z]{3}) in the condensed
    text (uppercased, everything outside [A-Z0-9] removed); failing
    that the first run of 5 to 8 alphanumerics in the condensed text;
    failing that the first whitespace-split token of strict shape; then
    the first token of 5 to 8 alphanumerics; otherwise the empty
    string.  So "LM22 XPT" and "L M 2 2 X P T" give "LM22XPT" (the
    latter through the strict pattern on the condensed text) and
    "??##??" gives "". *)
Theorem extractPlate_policy (toUpperCase : jsstring -> jsstring) :
  (forall s, isAscii s -> toUpperCase s = asciiUpper s) ->
  (forall rawText : jsstring,
     let condensed := filter isAlnum (toUpperCase rawText) in
     let tokens := alnumRuns [] (toUpperCase rawText) in
     let result := extractPlate toUpperCase rawText in
     condensedText toUpperCase rawText = condensed /\
     plateCandidates toUpperCase rawText = tokens /\
     (~ noMatch strictShape condensed ->
      firstMatch strictShape condensed result) /\
     (noMatch strictShape condensed -> ~ noMatch looseShape condensed ->
      firstMatch looseShape condensed result) /\
     (noMatch strictShape condensed -> noMatch looseShape condensed ->
      Exists strictShape tokens -> firstToken strictShape tokens result) /\
     (noMatch strictShape condensed -> noMatch looseShape condensed ->
      Forall (fun t => ~ strictShape t) tokens ->
      Exists looseShape tokens -> firstToken looseShape tokens result) /\
     (noMatch strictShape condensed -> noMatch looseShape condensed ->
      Forall (fun t => ~ strictShape t) tokens ->
      Forall (fun t => ~ looseShape t) tokens -> result = [])) /\
  extractPlate toUpperCase (js "LM22 XPT") = js "LM22XPT" /\
  extractPlate toUpperCase (js "L M 2 2 X P T") = js "LM22XPT" /\
  search strictRe (condensedText toUpperCase (js "L M 2 2 X P T"))
  = Some (js "LM22XPT") /\
  extractPlate toUpperCase (js "??##??") = [].
Proof.
  intros Hup. split; [intros rawText; apply extractPlate_priority|].
  assert (H1 : isAscii (js "LM22 XPT")) by (apply isAscii_js; reflexivity).
  assert (H2 : isAscii (js "L M 2 2 X P T")) by (apply isAscii_js; reflexivity).
  assert (H3 : isAscii (js "??##??")) by (apply isAscii_js; reflexivity).
  destruct (@extractPlate_ascii toUpperCase Hup _ H1) as [-> _].
  destruct (@extractPlate_ascii toUpperCase Hup _ H2) as [-> ->].
  destruct (@extractPlate_ascii toUpperCase Hup _ H3) as [-> _].
  repeat split; vm_compute; reflexivity.
Qed.

Lemma extractPlate_policy_witness :
  extractPlate asciiUpper (js "LM22 XPT") = js "LM22XPT" /\
  extractPlate asciiUpper (js "L M 2 2 X P T") = js "LM22XPT" /\
  search strictRe (condensedText asciiUpper (js "L M 2 2 X P T"))
  = Some (js "LM22XPT") /\
  extractPlate asciiUpper (js "??##??") = [].
Proof.
  exact (proj2 (@extractPlate_policy asciiUpper (fun s _ => eq_refl))).
Defined.

(* ================================================================== *)
(** * Properties of the scan attempt *)
(* ================================================================== *)

Section ScanFacts.
Variable toUpperCase : jsstring -> jsstring.


(** *** Reading and writing the phase of an invocation *)

Lemma nth_setPhaseAt l attempt ph j :
  nth_error (setPhaseAt attempt ph l) j
  = if j =? attempt
    then option_map (fun a => mkAttempt ph (typed a)) (nth_error l j)
    else nth_error l j.
Proof.
  revert attempt j. induction l as [|a l IH]; intros attempt j.
  - destruct attempt, j; cbn; try reflexivity.
    now destruct (j =? attempt).
  - destruct attempt as [|n], j as [|j]; cbn [setPhaseAt nth_error Nat.eqb];
      try reflexivity.
    apply IH.
Qed.

Lemma phaseOf_setPhase p attempt ph j :
  phaseOf (setPhase attempt ph p) j
  = if j =? attempt
    then match nth_error (attempts p) j with
         | Some _ => ph
         | None => NoAttempt
         end
    else phaseOf p j.
Proof.
  unfold phaseOf, setPhase. cbn [attempts setAttempts].
  rewrite nth_setPhaseAt.
  destruct (j =? attempt); [|reflexivity].
  now destruct (nth_error (attempts p) j).
Qed.

Lemma phaseOf_set_same p attempt ph :
  phaseOf p attempt <> NoAttempt ->
  phaseOf (setPhase attempt ph p) attempt = ph.
Proof.
  intros Hin. rewrite phaseOf_setPhase, Nat.eqb_refl.
  unfold phaseOf in Hin.
  destruct (nth_error (attempts p) attempt); [reflexivity | now elim Hin].
Qed.

Lemma phaseOf_set_other p attempt ph j :
  j <> attempt -> phaseOf (setPhase attempt ph p) j = phaseOf p j.
Proof.
  intros Hne. rewrite phaseOf_setPhase.
  destruct (Nat.eqb_spec j attempt); [now elim Hne | reflexivity].
Qed.

Lemma phaseOf_attempts p q j :
  attempts q = attempts p -> phaseOf q j = phaseOf p j.
Proof. unfold phaseOf. now intros ->. Qed.

Lemma running_attempts p q :
  attempts q = attempts p -> running p -> running q.
Proof.
  intros Ha [attempt Hrun]. exists attempt.
  now rewrite (@phaseOf_attempts _ _ _ Ha).
Qed.

(** Moving an invocation that is not scanning, or moving one into a
    scanning phase, keeps a scan that is suspended. *)
Lemma running_setPhase p q attempt ph :
  attempts q = attempts p ->
  (phaseOf p attempt = Capturing \/ ph = Detecting \/ ph = Recognising) ->
  phaseOf p attempt <> NoAttempt ->
  running p -> running (setPhase attempt ph q).
Proof.
  intros Ha Hcase Hin [j Hrun].
  destruct (Nat.eq_dec j attempt) as [->|Hne].
  - exists attempt.
    rewrite phaseOf_set_same by now rewrite (@phaseOf_attempts _ _ _ Ha).
    destruct Hcase as [Hc | Hph]; [|exact Hph].
    rewrite Hc in Hrun. destruct Hrun; discriminate.
  - exists j. rewrite phaseOf_set_other by exact Hne.
    now rewrite (@phaseOf_attempts _ _ _ Ha).
Qed.

Lemma running_now p q attempt ph :
  attempts q = attempts p ->
  ph = Detecting \/ ph = Recognising ->
  phaseOf p attempt <> NoAttempt ->
  running (setPhase attempt ph q).
Proof.
  intros Ha Hph Hin. exists attempt.
  rewrite phaseOf_set_same by now rewrite (@phaseOf_attempts _ _ _ Ha).
  exact Hph.
Qed.

Lemma running_pressed p q a :
  attempts q = attempts p ->
  running p -> running (setAttempts (attempts q ++ [a]) q).
Proof.
  intros Ha [j Hrun]. exists j. unfold phaseOf in *.
  cbn [attempts setAttempts]. rewrite Ha.
  destruct (nth_error (attempts p) j) as [b|] eqn:Hj.
  - rewrite nth_error_app1; [now rewrite Hj|].
    apply nth_error_Some. now rewrite Hj.
  - destruct Hrun; discriminate.
Qed.

(** *** The timeout *)

Lemma clearOcrTimeout_fields p :
  clock (clearOcrTimeout p) = clock p /\
  attempts (clearOcrTimeout p) = attempts p /\
  cameraReady (clearOcrTimeout p) = cameraReady p /\
  ocrStatus (clearOcrTimeout p) = ocrStatus p /\
  ocrError (clearOcrTimeout p) = ocrError p /\
  ocrConfidence (clearOcrTimeout p) = ocrConfidence p /\
  detectedPlate (clearOcrTimeout p) = detectedPlate p /\
  plateInput (clearOcrTimeout p) = plateInput p /\
  nextHandle (clearOcrTimeout p) = nextHandle p.
Proof.
  unfold clearOcrTimeout. destruct (ocrTimeoutRef p); repeat split.
Qed.

Lemma dueTime_In h due ts : dueTime h ts = Some due -> In (h, due) ts.
Proof.
  unfold dueTime.
  destruct (find (fun t => fst t =? h) ts) as [[h' due']|] eqn:Hf;
    [|discriminate].
  cbn. intros [= ->].
  apply find_some in Hf. destruct Hf as [Hin Hh]. cbn in Hh.
  apply Nat.eqb_eq in Hh. now subst h'.
Qed.






(** [runOcr] succeeding writes its result, whatever happened to the
    timeout in the meantime. *)
Lemma step_OcrSuccess p attempt t plate confidence :
  phaseOf p attempt = Recognising -> (clock p <= t)%N ->
  exists p',
    step toUpperCase p (mkEvent t (OcrSuccess attempt plate confidence))
    = Some p' /\
    ocrStatus p' = Success /\ ocrConfidence p' = confidence /\
    ocrError p' = ocrError p /\
    phaseOf p' attempt = Done /\
    (nonEmpty (normalizePlate toUpperCase plate) = true ->
     detectedPlate p' = Some (normalizePlate toUpperCase plate) /\
     plateInput p' = normalizePlate toUpperCase plate).
Proof.
  intros Hph Hclock. unfold step. cbn [time action].
  destruct (N.ltb_spec t (clock p)) as [Hlt|_]; [lia|].
  unfold runAction.
  change (phaseOf (setClock t p) attempt) with (phaseOf p attempt).
  rewrite Hph.
  eexists. split; [reflexivity|].
  set (q := setConfidence confidence
              (setStatus Success (ocrError (setClock t p)) (setClock t p))).
  destruct (clearOcrTimeout_fields q)
    as (_ & Ha & _ & Hst & Herr & Hconf & Hdet & Hin & _).
  cbn in Ha, Hst, Herr, Hconf, Hdet, Hin.
  assert (Hdone : forall r, attempts r = attempts p ->
                            phaseOf (setPhase attempt Done r) attempt = Done).
  { intros r Hr. apply phaseOf_set_same.
    rewrite (@phaseOf_attempts _ _ _ Hr), Hph. discriminate. }
  destruct (nonEmpty (normalizePlate toUpperCase plate)) eqn:Hne.
  - rewrite Hdone by exact Ha.
    cbn [setPhase setAttempts setPlate ocrStatus ocrConfidence ocrError
         detectedPlate plateInput].
    rewrite Hst, Hconf, Herr. repeat split.
  - rewrite Hdone by exact Ha.
    cbn [setPhase setAttempts ocrStatus ocrConfidence ocrError].
    rewrite Hst, Hconf, Herr. repeat split; discriminate.
Qed.

(** *** At most one timeout *)

Lemma timerTracked_fields p q :
  timers q = timers p -> ocrTimeoutRef q = ocrTimeoutRef p ->
  (running p -> running q) ->
  timerTracked p -> timerTracked q.
Proof.
  unfold timerTracked. intros -> -> Hrun.
  destruct (timers p) as [|[h due] [|]]; intuition.
Qed.

Lemma clearOcrTimeout_tracked p :
  timerTracked p ->
  timers (clearOcrTimeout p) = [] /\ ocrTimeoutRef (clearOcrTimeout p) = None.
Proof.
  unfold timerTracked, clearOcrTimeout.
  destruct (ocrTimeoutRef p) as [handle|] eqn:Href;
    destruct (timers p) as [|[h due] [|]] eqn:Ht;
    cbn [timers ocrTimeoutRef setTimers]; intros Htr.
  - split; reflexivity.
  - destruct Htr as [[= ->] _]. cbn. now rewrite Nat.eqb_refl.
  - destruct Htr.
  - split; [reflexivity | exact Href].
  - destruct Htr as [[=] _].
  - destruct Htr.
Qed.

Lemma timerTracked_empty p : timers p = [] -> timerTracked p.
Proof. unfold timerTracked. now intros ->. Qed.

Lemma timerTracked_status p st err :
  timerTracked p -> timerTracked (setStatus st err p).
Proof. apply timerTracked_fields; try reflexivity. apply running_attempts. reflexivity. Qed.

Lemma timerTracked_confidence p c :
  timerTracked p -> timerTracked (setConfidence c p).
Proof. apply timerTracked_fields; try reflexivity. apply running_attempts. reflexivity. Qed.

Lemma timerTracked_clock p t :
  timerTracked p -> timerTracked (setClock t p).
Proof. apply timerTracked_fields; try reflexivity. apply running_attempts. reflexivity. Qed.

Lemma timerTracked_camera p ready starting waits :
  timerTracked p -> timerTracked (setCamera ready starting waits p).
Proof. apply timerTracked_fields; try reflexivity. apply running_attempts. reflexivity. Qed.

(** A block that ends in [clearOcrTimeout()] leaves no timeout. *)
Lemma runAction_clears a p p' :
  timerTracked p -> clearsTimeout a = true ->
  runAction toUpperCase a p = Some p' ->
  timers p' = [] /\ ocrTimeoutRef p' = None.
Proof.
  intros Htr Hc. unfold runAction.
  destruct a as [|attempt snapshot|attempt m|attempt|attempt
                 |attempt plate c|attempt m|h|v| | | |];
    try discriminate Hc.
  - destruct (phaseOf p attempt); try discriminate. intros [= <-].
    cbn [setPhase setAttempts timers ocrTimeoutRef].
    apply clearOcrTimeout_tracked. now apply timerTracked_status.
  - destruct (phaseOf p attempt); try discriminate. intros [= <-].
    cbn [setPhase setAttempts timers ocrTimeoutRef].
    apply clearOcrTimeout_tracked. now apply timerTracked_status.
  - destruct (phaseOf p attempt); try discriminate. intros [= <-].
    destruct (@clearOcrTimeout_tracked
                (setConfidence c (setStatus Success (ocrError p) p)))
      as [Ht Hr].
    { now apply timerTracked_confidence, timerTracked_status. }
    destruct (nonEmpty _);
      cbn [setPhase setAttempts setPlate timers ocrTimeoutRef];
      now split.
  - destruct (phaseOf p attempt); try discriminate. intros [= <-].
    cbn [setPhase setAttempts timers ocrTimeoutRef].
    apply clearOcrTimeout_tracked. now apply timerTracked_status.
  - intros [= <-]. unfold handleResumeCamera.
    cbn [timers ocrTimeoutRef].
    apply clearOcrTimeout_tracked. now apply timerTracked_camera.
Qed.

Lemma runAction_tracked a p p' :
  timerTracked p -> runAction toUpperCase a p = Some p' -> timerTracked p'.
Proof.
  intros Htr.
  destruct (clearsTimeout a) eqn:Hc.
  { intros Hrun. apply timerTracked_empty.
    exact (proj1 (@runAction_clears _ _ _ Htr Hc Hrun)). }
  unfold runAction.
  destruct a as [|attempt snapshot|attempt m|attempt|attempt
                 |attempt plate c|attempt m|h|v| | | |];
    try discriminate Hc.
  - (* Press *)
    destruct (isLoading _ || negb _); intros [= <-]; [exact Htr|].
    revert Htr. apply timerTracked_fields; try reflexivity.
    now apply running_pressed.
  - (* Captured *)
    destruct (phaseOf p attempt) eqn:Hph; try discriminate.
    assert (Hin : phaseOf p attempt <> NoAttempt)
      by (rewrite Hph; discriminate).
    destruct (nonEmpty _); [|destruct snapshot]; intros [= <-].
    + revert Htr. apply timerTracked_fields; try reflexivity.
      apply running_setPhase; [reflexivity | now left | exact Hin].
    + destruct (@clearOcrTimeout_tracked (setStatus Loading None p))
        as [Ht _]; [now apply timerTracked_status|].
      unfold timerTracked.
      cbn [setPhase setAttempts stopCamera setCamera armTimeout setTimers
           timers ocrTimeoutRef].
      rewrite Ht. split; [reflexivity|].
      apply (@running_now p); [|now left | exact Hin].
      cbn [attempts stopCamera setCamera armTimeout setTimers].
      apply (clearOcrTimeout_fields (setStatus Loading None p)).
    + revert Htr. apply timerTracked_fields; try reflexivity.
      apply running_setPhase; [reflexivity | now left | exact Hin].
  - (* OcrStart *)
    destruct (phaseOf p attempt) eqn:Hph; try discriminate.
    intros [= <-]. revert Htr. apply timerTracked_fields; try reflexivity.
    apply running_setPhase; [reflexivity | right; now right|].
    rewrite Hph. discriminate.
  - (* TimerFire *)
    destruct (dueTime h (timers p)) as [due|] eqn:Hdue; [|discriminate].
    destruct (_ <? _)%N; [discriminate|]. intros [= <-].
    apply timerTracked_empty. cbn [setStatus setTimers timers].
    apply dueTime_In in Hdue.
    unfold timerTracked in Htr.
    destruct (timers p) as [|[h' due'] [|]]; [destruct Hdue | | destruct Htr].
    destruct Hdue as [[= -> ->] | []]. cbn. now rewrite Nat.eqb_refl.
  - (* Typed *)
    intros [= <-]. revert Htr. apply timerTracked_fields; try reflexivity.
    apply running_attempts. reflexivity.
  - (* CameraStart *)
    destruct (resumeWaits p); [discriminate|]. intros [= <-].
    now apply timerTracked_camera.
  - destruct (cameraStarting p); [|discriminate]. intros [= <-].
    now apply timerTracked_camera.
  - destruct (cameraStarting p); [|discriminate]. intros [= <-].
    now apply timerTracked_camera.
Qed.

Lemma step_tracked p e p' :
  timerTracked p -> step toUpperCase p e = Some p' -> timerTracked p'.
Proof.
  intros Htr. unfold step.
  destruct (time e <? clock p)%N; [discriminate|].
  apply runAction_tracked. now apply timerTracked_clock.
Qed.


Lemma run_tracked es :
  forall p ps,
    timerTracked p -> run toUpperCase p es = Some ps ->
    Forall timerTracked ps.
Proof.
  induction es as [|e es IH]; intros p ps Htr; cbn [run].
  - intros [= <-]. constructor.
  - destruct (step toUpperCase p e) as [p'|] eqn:Hstep; [|discriminate].
    destruct (run toUpperCase p' es) as [ps'|] eqn:Hrun; [|discriminate].
    intros [= <-].
    pose proof (@step_tracked p e p' Htr Hstep) as Htr'.
    constructor; [exact Htr' | exact (IH p' ps' Htr' Hrun)].
Qed.

Lemma no_timer_no_fire p :
  timers p = [] -> noTimeoutAhead toUpperCase p.
Proof.
  intros Ht t h. unfold step. cbn [time action].
  destruct (t <? clock p)%N; [reflexivity|].
  unfold runAction. cbn [timers setClock]. now rewrite Ht.
Qed.

Lemma tracked_idle p :
  timerTracked p -> ~ running p -> timers p = [].
Proof.
  unfold timerTracked.
  destruct (timers p) as [|[h due] [|]]; [reflexivity | tauto | tauto].
Qed.

End ScanFacts.




(* ================================================================== *)
(** * Further properties of the detector decoder *)
(* ================================================================== *)

(** ** What [nms] keeps *)

Section NmsOutput.
Context {F : Type} `{JsNum F}.
Local Open Scope js_scope.

Lemma insertBy_In_iff {A} (cmp : A -> A -> F) x l z :
  In z (insertBy cmp x l) <-> z = x \/ In z l.
Proof.
  induction l as [|y l IH]; simpl.
  - intuition.
  - destruct (ltb (lit 0) (cmp y x)); simpl; rewrite ?IH; intuition.
Qed.

Lemma insertBy_length {A} (cmp : A -> A -> F) x l :
  List.length (insertBy cmp x l) = S (List.length l).
Proof.
  induction l as [|y l IH]; simpl; [reflexivity|].
  destruct (ltb (lit 0) (cmp y x)); simpl; [reflexivity | now rewrite IH].
Qed.

Lemma sortBy_acc {A} (cmp : A -> A -> F) l :
  forall acc,
    (forall z, In z (fold_left (fun a x => insertBy cmp x a) l acc)
               <-> In z l \/ In z acc) /\
    List.length (fold_left (fun a x => insertBy cmp x a) l acc)
    = (List.length l + List.length acc)%nat.
Proof.
  induction l as [|x l IH]; intros acc; simpl.
  - split; [intuition | reflexivity].
  - destruct (IH (insertBy cmp x acc)) as [Hin Hlen]. split.
    + intros z. rewrite Hin, insertBy_In_iff. intuition.
    + rewrite Hlen, insertBy_length. lia.
Qed.

Lemma sortBy_In {A} (cmp : A -> A -> F) l z :
  In z (sortBy cmp l) <-> In z l.
Proof.
  unfold sortBy. destruct (sortBy_acc cmp l []) as [Hin _].
  rewrite Hin. simpl. intuition.
Qed.

Lemma sortBy_length {A} (cmp : A -> A -> F) l :
  List.length (sortBy cmp l) = List.length l.
Proof.
  unfold sortBy. destruct (sortBy_acc cmp l []) as [_ Hlen].
  rewrite Hlen. simpl. lia.
Qed.

Lemma suppress_In threshold current rest c :
  In c (suppress threshold current rest)
  <-> In c rest /\ overlaps threshold current c = false.
Proof.
  unfold suppress, overlaps. rewrite filter_In, negb_true_iff. reflexivity.
Qed.

(** The loop keeps pairwise distinct regions, takes them from its
    input and drops at least nothing it has not compared. *)
Lemma nms_loop_kept threshold fuel :
  forall sorted,
    let out := nms_loop fuel threshold sorted [] in
    StronglySorted (apart threshold) out /\
    (forall c, In c out -> In c sorted) /\
    List.length out <= List.length sorted.
Proof.
  induction fuel as [|fuel IH]; intros sorted; simpl.
  - repeat split; [constructor | intros c [] | lia].
  - destruct sorted as [|current rest]; simpl.
    + repeat split; [constructor | intros c [] | lia].
    + rewrite nms_loop_app. simpl.
      destruct (IH (suppress threshold current rest)) as (Hap & Hin & Hlen).
      repeat split.
      * constructor; [exact Hap|].
        apply Forall_forall. intros c Hc.
        apply Hin, suppress_In in Hc. exact (proj2 Hc).
      * intros c [Hc | Hc]; [now left | right].
        apply Hin, suppress_In in Hc. exact (proj1 Hc).
      * pose proof (suppress_length threshold current rest). lia.
Qed.

(** Whatever the loop drops overlaps something it kept. *)
Lemma nms_loop_covers threshold fuel :
  forall sorted c,
    List.length sorted <= fuel ->
    In c sorted ->
    In c (nms_loop fuel threshold sorted []) \/
    exists k, In k (nms_loop fuel threshold sorted []) /\
              overlaps threshold k c = true.
Proof.
  induction fuel as [|fuel IH]; intros sorted c Hfuel Hc.
  - destruct sorted; [destruct Hc | simpl in Hfuel; lia].
  - destruct sorted as [|current rest]; [destruct Hc|].
    rewrite nms_loop_cons. simpl in Hfuel.
    destruct Hc as [Hc | Hc]; [left; now left|].
    destruct (overlaps threshold current c) eqn:Hov.
    + right. exists current. split; [now left | exact Hov].
    + assert (Hs : In c (suppress threshold current rest))
        by (apply suppress_In; split; assumption).
      pose proof (suppress_length threshold current rest) as Hlen.
      destruct (IH (suppress threshold current rest) c) as [Hk | (k & Hk & Hov')];
        [lia | exact Hs | left; now right |].
      right. exists k. split; [now right | exact Hov'].
Qed.

Lemma nms_kept (boxes : list Candidate) (threshold : F) :
  StronglySorted (apart threshold) (nms boxes threshold) /\
  (forall c, In c (nms boxes threshold) -> In c boxes) /\
  List.length (nms boxes threshold) <= List.length boxes.
Proof.
  unfold nms.
  destruct (nms_loop_kept threshold (List.length (sortBy byScoreDesc boxes))
              (sortBy byScoreDesc boxes)) as (Hap & Hin & Hlen).
  repeat split.
  - exact Hap.
  - intros c Hc. apply Hin in Hc. now apply sortBy_In in Hc.
  - pose proof (sortBy_length byScoreDesc boxes). lia.
Qed.

Lemma StronglySorted_head {A} (R : A -> A -> Prop) x l :
  StronglySorted R (x :: l) -> Forall (R x) l.
Proof. intros Hs. inversion Hs; assumption. Qed.
End NmsOutput.

(** X1. the regions kept by non-maximum suppression are input
    candidates, no more of them than went in, and no kept region
    overlaps an earlier kept one by more than the threshold. *)
Theorem nms_keeps_apart {F : Type} `{JsNum F}
    (boxes : list (@Candidate F)) (threshold : F) :
  StronglySorted (apart threshold) (nms boxes threshold) /\
  incl (nms boxes threshold) boxes /\
  List.length (nms boxes threshold) <= List.length boxes /\
  nms [] threshold = [].
Proof.
  destruct (nms_kept boxes threshold) as (Hap & Hin & Hlen).
  repeat split; [exact Hap | exact Hin | exact Hlen].
Qed.

(** X2. non-maximum suppression drops a candidate only for a reason:
    every input candidate is either kept or overlaps a kept region by
    more than the threshold. *)
Theorem nms_covers {F : Type} `{JsNum F}
    (boxes : list (@Candidate F)) (threshold : F) :
  Forall (fun c =>
            In c (nms boxes threshold) \/
            exists k, In k (nms boxes threshold) /\
                      overlaps threshold k c = true) boxes.
Proof.
  apply Forall_forall. intros c Hc. unfold nms.
  apply nms_loop_covers; [lia | now apply sortBy_In].
Qed.

(** X3. on candidates whose scores the comparator orders consistently,
    whatever engine sorts the array, the kept regions come out by
    descending score, and from a non-empty list the first region kept
    is a candidate that no candidate outscores. *)
Theorem nms_best_first {F : Type} `{JsNum F}
    (sort : list (@Candidate F) -> list (@Candidate F))
    (boxes : list (@Candidate F)) (threshold : F) :
  consistentScores ->
  conformingSort sort ->
  consistentOn boxes ->
  StronglySorted inOrder (nmsWith sort boxes threshold) /\
  (boxes <> [] ->
   exists best rest,
     nmsWith sort boxes threshold = best :: rest /\ In best boxes /\
     Forall (fun c => ltb (lit 0) (sub (score c) (score best)) = false) boxes).
Proof.
  intros Hcons Hsort Hon.
  rewrite (nmsWith_conforming threshold Hsort Hon).
  pose proof (@sortBy_inOrder F _ boxes Hcons) as Hsorted.
  split.
  - unfold nms.
    exact (proj1 (@nms_loop_selected F _ threshold _ _ Hsorted)).
  - intros Hne. unfold nms.
    pose proof (@sortBy_length F _ _ byScoreDesc boxes) as Hlen.
    pose proof (fun z => @sortBy_In F _ _ byScoreDesc boxes z) as Hin.
    destruct (sortBy byScoreDesc boxes) as [|best rest] eqn:Hs.
    + destruct boxes; [now elim Hne | discriminate Hlen].
    + exists best, (nms_loop (List.length rest) threshold
                      (suppress threshold best rest) []).
      split; [simpl; apply nms_loop_cons|].
      split; [apply Hin; now left|].
      apply Forall_forall. intros c Hc. apply Hin in Hc.
      destruct Hc as [<- | Hc].
      * apply (proj1 Hcons).
      * pose proof (StronglySorted_head Hsorted) as Hhead.
        rewrite Forall_forall in Hhead. exact (Hhead c Hc).
Qed.

Lemma nms_best_first_witness :
  StronglySorted inOrder
    (nmsWith (sortBy byScoreDesc) sampleCandidates (lit (2 # 5))) /\
  (sampleCandidates <> [] ->
   exists best rest,
     nmsWith (sortBy byScoreDesc) sampleCandidates (lit (2 # 5))
     = best :: rest /\
     In best sampleCandidates /\
     Forall (fun c => ltb (lit 0) (sub (score c) (score best)) = false)
            sampleCandidates).
Proof.
  refine (nms_best_first (lit (2 # 5)) consistentScores_Q
            sortBy_conforming (consistentOn_finite _)).
  repeat constructor; eexists; reflexivity.
Defined.

(** ** What [parseDetectorOutput] returns *)

Section DetectionFacts.
Context {F : Type} `{JsNum F}.
Local Open Scope js_scope.

Lemma decodeCandidate_wellFormed channels normalized w h t x y bw bh o c l :
  Forall (wellFormedDetection t) l ->
  Forall (wellFormedDetection t)
         (decodeCandidate channels normalized w h t x y bw bh o c l) /\
  (List.length (decodeCandidate channels normalized w h t x y bw bh o c l)
   <= S (List.length l))%nat.
Proof.
  intros Hl. unfold decodeCandidate.
  match goal with |- context [if ?b then l else _] => destruct b eqn:Hlt end.
  - split; [exact Hl | lia].
  - split.
    + apply Forall_app. split; [exact Hl|].
      constructor; [|constructor]. split; [reflexivity | exact Hlt].
    + rewrite length_app. simpl. lia.
Qed.

Lemma fold_candidates (t : F) (f : list Candidate -> nat -> list Candidate)
    (l : list nat) :
  (forall acc i,
      Forall (wellFormedDetection t) acc ->
      Forall (wellFormedDetection t) (f acc i) /\
      (List.length (f acc i) <= S (List.length acc))%nat) ->
  forall acc,
    Forall (wellFormedDetection t) acc ->
    Forall (wellFormedDetection t) (fold_left f l acc) /\
    (List.length (fold_left f l acc) <= List.length l + List.length acc)%nat.
Proof.
  intros Hf. induction l as [|i l IH]; intros acc Hacc; simpl.
  - split; [exact Hacc | lia].
  - destruct (Hf acc i Hacc) as [Hw Hlen].
    destruct (IH (f acc i) Hw) as [Hw' Hlen'].
    split; [exact Hw' | lia].
Qed.

Lemma candidatesBoxesFirst_wellFormed data boxes channels w h t :
  Forall (wellFormedDetection t)
         (candidatesBoxesFirst data boxes channels w h t) /\
  (List.length (candidatesBoxesFirst data boxes channels w h t) <= boxes)%nat.
Proof.
  unfold candidatesBoxesFirst.
  match goal with
  | |- context [fold_left ?f (seq 0 boxes) []] =>
      destruct (@fold_candidates t f (seq 0 boxes)) with (acc := @nil (@Candidate F))
        as [Hw Hlen]
  end.
  - intros acc i Hacc. now apply decodeCandidate_wellFormed.
  - constructor.
  - rewrite length_seq, Nat.add_0_r in Hlen. split; [exact Hw | exact Hlen].
Qed.

Lemma candidatesChannelsFirst_wellFormed data channels boxes w h t :
  Forall (wellFormedDetection t)
         (candidatesChannelsFirst data channels boxes w h t) /\
  (List.length (candidatesChannelsFirst data channels boxes w h t) <= boxes)%nat.
Proof.
  unfold candidatesChannelsFirst.
  match goal with
  | |- context [fold_left ?f (seq 0 boxes) []] =>
      destruct (@fold_candidates t f (seq 0 boxes)) with (acc := @nil (@Candidate F))
        as [Hw Hlen]
  end.
  - intros acc i Hacc. now apply decodeCandidate_wellFormed.
  - constructor.
  - rewrite length_seq, Nat.add_0_r in Hlen. split; [exact Hw | exact Hlen].
Qed.

Lemma nms_wellFormed (P : Candidate -> Prop) l threshold n :
  Forall P l -> (List.length l <= n)%nat ->
  Forall P (nms l threshold) /\ (List.length (nms l threshold) <= n)%nat.
Proof.
  intros Hl Hn. destruct (nms_kept l threshold) as (_ & Hin & Hlen).
  split; [|lia].
  apply Forall_forall. intros c Hc.
  rewrite Forall_forall in Hl. apply Hl, Hin, Hc.
Qed.
End DetectionFacts.

(** X4. [parseDetectorOutput] returns nothing for an output that is not
    of rank 3; otherwise every detection has four coordinates and a
    score that is not below the threshold, there are no more detections
    than the tensor has boxes, and no detection overlaps an earlier one
    by more than 0.4. *)
Theorem parseDetectorOutput_detections {F : Type} `{JsNum F}
    (data : list F) (dims : list nat)
    (inputWidth inputHeight scoreThreshold : F) :
  let out :=
    parseDetectorOutput data dims inputWidth inputHeight scoreThreshold in
  (List.length dims <> 3 -> out = []) /\
  Forall (wellFormedDetection scoreThreshold) out /\
  List.length out
  <= (if nth 2 dims 0 <=? 10 then nth 1 dims 0 else nth 2 dims 0) /\
  StronglySorted (apart (lit (2 # 5))) out.
Proof.
  destruct dims as [|d0 [|d1 [|d2 [|d3 dims]]]]; simpl;
    try (repeat split; [constructor | lia | constructor]).
  destruct (d2 <=? 10).
  - destruct (candidatesBoxesFirst_wellFormed data d1 d2
                inputWidth inputHeight scoreThreshold) as [Hw Hlen].
    destruct (nms_wellFormed (lit (2 # 5)) Hw Hlen) as [Hw' Hlen'].
    repeat split; [congruence | exact Hw' | exact Hlen' | apply nms_kept].
  - destruct (candidatesChannelsFirst_wellFormed data d1 d2
                inputWidth inputHeight scoreThreshold) as [Hw Hlen].
    destruct (nms_wellFormed (lit (2 # 5)) Hw Hlen) as [Hw' Hlen'].
    repeat split; [congruence | exact Hw' | exact Hlen' | apply nms_kept].
Qed.

(** ** Range and symmetry of [iou] *)

Lemma boxArea_nonneg x1 y1 x2 y2 : (0 <= boxArea x1 y1 x2 y2)%Q.
Proof.
  unfold boxArea. apply Qmult_le_0_compat; apply Q.le_max_l.
Qed.

Lemma boxArea_shrink x1 y1 x2 y2 u1 v1 u2 v2 :
  (x1 <= u1)%Q -> (y1 <= v1)%Q -> (u2 <= x2)%Q -> (v2 <= y2)%Q ->
  (boxArea u1 v1 u2 v2 <= boxArea x1 y1 x2 y2)%Q.
Proof.
  intros Hx1 Hy1 Hx2 Hy2. unfold boxArea.
  apply Qmult_le_compat_nonneg.
  - split; [apply Q.le_max_l | apply Q.max_le_compat_l; qlra].
  - split; [apply Q.le_max_l | apply Q.max_le_compat_l; qlra].
Qed.

Lemma overlapArea_le_left a1 b1 a2 b2 c1 d1 c2 d2 :
  (overlapArea a1 b1 a2 b2 c1 d1 c2 d2 <= boxArea a1 b1 a2 b2)%Q.
Proof.
  unfold overlapArea.
  apply boxArea_shrink;
    [apply Q.le_max_l | apply Q.le_max_l | apply Q.le_min_l | apply Q.le_min_l].
Qed.

Lemma overlapArea_le_right a1 b1 a2 b2 c1 d1 c2 d2 :
  (overlapArea a1 b1 a2 b2 c1 d1 c2 d2 <= boxArea c1 d1 c2 d2)%Q.
Proof.
  unfold overlapArea.
  apply boxArea_shrink;
    [apply Q.le_max_r | apply Q.le_max_r | apply Q.le_min_r | apply Q.le_min_r].
Qed.

Lemma overlapArea_comm a1 b1 a2 b2 c1 d1 c2 d2 :
  (overlapArea a1 b1 a2 b2 c1 d1 c2 d2 == overlapArea c1 d1 c2 d2 a1 b1 a2 b2)%Q.
Proof.
  unfold overlapArea, boxArea.
  rewrite (Q.max_comm a1 c1), (Q.max_comm b1 d1),
          (Q.min_comm a2 c2), (Q.min_comm b2 d2).
  reflexivity.
Qed.

(** X5. on boxes with finite corners [iou] is a number between 0 and 1. *)
Theorem iou_bounded (a1 b1 a2 b2 c1 d1 c2 d2 : Q) :
  exists q : Q,
    iou (qbox a1 b1 a2 b2) (qbox c1 d1 c2 d2) = Fin q /\ (0 <= q <= 1)%Q.
Proof.
  rewrite iou_qbox. eexists. split; [reflexivity|].
  pose proof (boxArea_nonneg (Qmax a1 c1) (Qmax b1 d1) (Qmin a2 c2) (Qmin b2 d2))
    as Hov.
  pose proof (overlapArea_le_left a1 b1 a2 b2 c1 d1 c2 d2) as Hl.
  pose proof (overlapArea_le_right a1 b1 a2 b2 c1 d1 c2 d2) as Hr.
  fold (overlapArea a1 b1 a2 b2 c1 d1 c2 d2) in Hov.
  set (ov := overlapArea a1 b1 a2 b2 c1 d1 c2 d2) in *.
  set (A := boxArea a1 b1 a2 b2) in *.
  set (B := boxArea c1 d1 c2 d2) in *.
  pose proof (Q.le_max_l 1 (A + B - ov)) as Hd1.
  pose proof (Q.le_max_r 1 (A + B - ov)) as Hd2.
  set (D := Qmax 1 (A + B - ov)) in *.
  split.
  - apply Qle_shift_div_l; qlra.
  - apply Qle_shift_div_r; qlra.
Qed.

(** X6. [iou] does not depend on the order of its two boxes. *)
Theorem iou_symmetric (a1 b1 a2 b2 c1 d1 c2 d2 : Q) :
  qnum_eq (iou (qbox a1 b1 a2 b2) (qbox c1 d1 c2 d2))
          (iou (qbox c1 d1 c2 d2) (qbox a1 b1 a2 b2)).
Proof.
  rewrite !iou_qbox. unfold qnum_eq.
  rewrite (overlapArea_comm c1 d1 c2 d2 a1 b1 a2 b2).
  set (ov := overlapArea a1 b1 a2 b2 c1 d1 c2 d2).
  assert (Hsum : (boxArea a1 b1 a2 b2 + boxArea c1 d1 c2 d2 - ov
                  == boxArea c1 d1 c2 d2 + boxArea a1 b1 a2 b2 - ov)%Q) by ring.
  rewrite Hsum. reflexivity.
Qed.

(** ** Scores of the detections, over the reals *)

Lemma Rfin_div (a b : R) :
  (0 < b)%R -> div (Fin a) (Fin b) = Fin (a * / b)%R.
Proof.
  intros Hb.
  assert (Hpos : r_ltb (Q2R 0) b = true)
    by (apply r_ltb_lt; rewrite RMicromega.Q2R_0; exact Hb).
  change (div (Fin a) (Fin b))
    with (match (if r_ltb (Q2R 0) b then Gt
                 else if r_ltb b (Q2R 0) then Lt else Eq)
          with
          | Eq => match (if r_ltb (Q2R 0) a then Gt
                         else if r_ltb a (Q2R 0) then Lt else Eq)
                  with Eq => NaN | Gt => PosInf | Lt => NegInf end
          | _ => Fin (a * / b)%R
          end).
  now rewrite Hpos.
Qed.

Lemma sigmoid_real (v : R) :
  sigmoid (Fin v) = Fin (/ (1 + Rtrigo_def.exp (- v)))%R.
Proof.
  unfold sigmoid.
  change (add (lit 1) (exp (neg (Fin v))))
    with (Fin (Q2R 1 + Rtrigo_def.exp (- v))%R : ext R).
  change (lit 1 : ext R) with (Fin (Q2R 1) : ext R).
  pose proof (exp_pos (- v)) as He.
  rewrite RMicromega.Q2R_1.
  rewrite Rfin_div by rlra.
  f_equal. rlra.
Qed.

Lemma sigmoid_range (v : R) :
  (0 < / (1 + Rtrigo_def.exp (- v)) < 1)%R.
Proof.
  pose proof (exp_pos (- v)) as He.
  split.
  - apply Rinv_0_lt_compat. rlra.
  - replace 1%R with (/ 1)%R at 2 by apply Rinv_1.
    apply Rinv_lt_contravar; rlra.
Qed.

Lemma fold_left_Forall {A B} (P : A -> Prop) (f : list A -> B -> list A)
    (l : list B) :
  (forall acc i, In i l -> Forall P acc -> Forall P (f acc i)) ->
  forall acc, Forall P acc -> Forall P (fold_left f l acc).
Proof.
  induction l as [|i l IH]; intros Hf acc Hacc; simpl.
  - exact Hacc.
  - apply IH.
    + intros acc' j Hj. apply Hf. now right.
    + apply Hf; [now left | exact Hacc].
Qed.

Lemma decodeCandidate_unitScore channels normalized w h t x y bw bh
    (o c : ext R) l :
  (4 < channels -> exists v, o = Fin v) ->
  (5 < channels -> exists v, c = Fin v) ->
  Forall unitScore l ->
  Forall unitScore (decodeCandidate channels normalized w h t x y bw bh o c l).
Proof.
  intros Ho Hc Hl. unfold decodeCandidate.
  match goal with |- context [if ?b then l else _] => destruct b end;
    [exact Hl|].
  apply Forall_app. split; [exact Hl|]. constructor; [|constructor].
  unfold unitScore. cbn [score].
  destruct (4 <? channels) eqn:H4; destruct (5 <? channels) eqn:H5.
  - apply Nat.ltb_lt in H4, H5.
    destruct (Ho H4) as [vo ->]. destruct (Hc H5) as [vc ->].
    rewrite !sigmoid_real.
    pose proof (sigmoid_range vo). pose proof (sigmoid_range vc).
    exists (/ (1 + Rtrigo_def.exp (- vo)) * / (1 + Rtrigo_def.exp (- vc)))%R.
    split; [reflexivity|]. split; rnra.
  - apply Nat.ltb_lt in H4. destruct (Ho H4) as [vo ->].
    rewrite sigmoid_real. pose proof (sigmoid_range vo).
    exists (/ (1 + Rtrigo_def.exp (- vo)) * Q2R 1)%R.
    split; [reflexivity|]. rewrite RMicromega.Q2R_1. rlra.
  - apply Nat.ltb_lt in H5. apply Nat.ltb_ge in H4. lia.
  - exists (Q2R 1 * Q2R 1)%R.
    split; [reflexivity|]. rewrite RMicromega.Q2R_1. rlra.
Qed.

(** *** A table whose rows are kept *)

Lemma decodeCandidate_length {F : Type} `{JsNum F} channels normalized
    (w h t x y bw bh o c : F) l :
  List.length l
  <= List.length (decodeCandidate channels normalized w h t x y bw bh o c l).
Proof.
  unfold decodeCandidate.
  destruct (ltb _ t); [lia|].
  rewrite length_app. simpl. lia.
Qed.

Lemma fold_left_grows {A B} (f : list A -> B -> list A) xs :
  (forall l a, List.length l <= List.length (f l a)) ->
  forall l, List.length l <= List.length (fold_left f xs l).
Proof.
  intros Hf. induction xs as [|x xs IH]; intros l; [simpl; lia|].
  simpl. specialize (IH (f l x)). specialize (Hf l x). lia.
Qed.

Lemma nms_nonempty {F : Type} `{JsNum F} (l : list (@Candidate F)) threshold :
  l <> [] -> nms l threshold <> [].
Proof.
  intros Hne. unfold nms.
  pose proof (@sortBy_length F _ _ byScoreDesc l) as Hlen.
  destruct (sortBy byScoreDesc l) as [|current rest].
  - destruct l; [now elim Hne | discriminate Hlen].
  - cbn [List.length]. rewrite nms_loop_cons. discriminate.
Qed.

(** Both sigmoids of a zero row are 1/2, so its score 1/4 passes a
    threshold of 1/5. *)
Lemma decodeCandidate_zero_row normalized (w h x y bw bh : ext R) l :
  List.length
    (decodeCandidate 6 normalized w h (lit (1 # 5)) x y bw bh
                     (Fin 0%R) (Fin 0%R) l)
  = S (List.length l).
Proof.
  unfold decodeCandidate. cbn [Nat.ltb Nat.leb].
  rewrite sigmoid_real.
  change (ltb (mul (Fin (/ (1 + Rtrigo_def.exp (- 0)))%R)
                   (Fin (/ (1 + Rtrigo_def.exp (- 0)))%R))
              (lit (1 # 5)))
    with (r_ltb (/ (1 + Rtrigo_def.exp (- 0)) * / (1 + Rtrigo_def.exp (- 0)))%R
                (Q2R (1 # 5))).
  unfold r_ltb.
  destruct (Rlt_dec _ _) as [Hlt|_].
  - exfalso. rewrite Ropp_0, exp_0 in Hlt.
    unfold Q2R in Hlt. simpl in Hlt. rlra.
  - rewrite length_app. simpl. lia.
Qed.

Lemma zero_rows_kept (w h : ext R) :
  parseDetectorOutput (layoutBoxesFirst (realTable (fun _ _ => 0%R)) 11 6)
                      [1; 11; 6] w h (lit (1 # 5)) <> [] /\
  parseDetectorOutput (layoutChannelsFirst (realTable (fun _ _ => 0%R)) 11 6)
                      [1; 6; 11] w h (lit (1 # 5)) <> [].
Proof.
  unfold parseDetectorOutput.
  change (6 <=? 10) with true. change (11 <=? 10) with false.
  split; apply nms_nonempty; intros Heq;
    apply (f_equal (@List.length _)) in Heq; revert Heq.
  - unfold candidatesBoxesFirst.
    set (normalized := leb _ (lit (3 # 2))).
    change (seq 0 11) with (0 :: seq 1 10). cbn [fold_left].
    rewrite !(@at_layoutBoxesFirst (ext R) _ _ 11 6 0) by lia.
    unfold realTable at 5 6.
    match goal with
    | |- List.length (fold_left ?f ?xs ?first) = _ -> _ =>
        pose proof (@fold_left_grows _ _ f xs
                      (fun acc a =>
                         decodeCandidate_length _ _ _ _ _ _ _ _ _ _ _ acc)
                      first)
          as Hgrow
    end.
    rewrite decodeCandidate_zero_row in Hgrow.
    intros Heq. rewrite Heq in Hgrow. simpl in Hgrow. lia.
  - unfold candidatesChannelsFirst.
    set (normalized := leb _ (lit (3 # 2))).
    change (seq 0 11) with (0 :: seq 1 10). cbn [fold_left].
    rewrite !(@at_layoutChannelsFirst (ext R) _ _ 11 6 0) by lia.
    unfold realTable at 5 6.
    match goal with
    | |- List.length (fold_left ?f ?xs ?first) = _ -> _ =>
        pose proof (@fold_left_grows _ _ f xs
                      (fun acc a =>
                         decodeCandidate_length _ _ _ _ _ _ _ _ _ _ _ acc)
                      first)
          as Hgrow
    end.
    rewrite decodeCandidate_zero_row in Hgrow.
    intros Heq. rewrite Heq in Hgrow. simpl in Hgrow. lia.
Qed.

(** X7. on a table of finite numbers every detection has a score in
    (0, 1], in either layout. *)
Theorem parseDetectorOutput_scores (r : nat -> nat -> R) (N C : nat)
    (inputWidth inputHeight scoreThreshold : ext R) :
  C <= 10 -> 10 < N ->
  Forall unitScore
    (parseDetectorOutput (layoutBoxesFirst (realTable r) N C) [1; N; C]
                         inputWidth inputHeight scoreThreshold) /\
  Forall unitScore
    (parseDetectorOutput (layoutChannelsFirst (realTable r) N C) [1; C; N]
                         inputWidth inputHeight scoreThreshold).
Proof.
  intros HC HN. unfold parseDetectorOutput.
  replace (C <=? 10) with true by (symmetry; apply Nat.leb_le; exact HC).
  replace (N <=? 10) with false by (symmetry; apply Nat.leb_gt; exact HN).
  split.
  - apply (@nms_wellFormed (ext R) _ unitScore _ (lit (2 # 5))
             (List.length (candidatesBoxesFirst
                             (layoutBoxesFirst (realTable r) N C) N C
                             inputWidth inputHeight scoreThreshold)));
      [|lia].
    unfold candidatesBoxesFirst. apply fold_left_Forall; [|constructor].
    intros acc i Hi Hacc. apply in_seq in Hi.
    apply decodeCandidate_unitScore; [| |exact Hacc]; intros Hch.
    + rewrite at_layoutBoxesFirst by lia. now eexists.
    + rewrite at_layoutBoxesFirst by lia. now eexists.
  - apply (@nms_wellFormed (ext R) _ unitScore _ (lit (2 # 5))
             (List.length (candidatesChannelsFirst
                             (layoutChannelsFirst (realTable r) N C) C N
                             inputWidth inputHeight scoreThreshold)));
      [|lia].
    unfold candidatesChannelsFirst. apply fold_left_Forall; [|constructor].
    intros acc i Hi Hacc. apply in_seq in Hi.
    apply decodeCandidate_unitScore; [| |exact Hacc]; intros Hch.
    + rewrite at_layoutChannelsFirst by lia. now eexists.
    + rewrite at_layoutChannelsFirst by lia. now eexists.
Qed.

Lemma parseDetectorOutput_scores_witness :
  (Forall unitScore
     (parseDetectorOutput (layoutBoxesFirst (realTable (fun _ _ => 0%R)) 11 6)
                          [1; 11; 6] (lit 640) (lit 640) (lit (1 # 5))) /\
   Forall unitScore
     (parseDetectorOutput (layoutChannelsFirst (realTable (fun _ _ => 0%R)) 11 6)
                          [1; 6; 11] (lit 640) (lit 640) (lit (1 # 5)))) /\
  parseDetectorOutput (layoutBoxesFirst (realTable (fun _ _ => 0%R)) 11 6)
                      [1; 11; 6] (lit 640) (lit 640) (lit (1 # 5)) <> [] /\
  parseDetectorOutput (layoutChannelsFirst (realTable (fun _ _ => 0%R)) 11 6)
                      [1; 6; 11] (lit 640) (lit 640) (lit (1 # 5)) <> [].
Proof.
  split.
  - apply (parseDetectorOutput_scores (fun _ _ => 0%R)
             (lit 640) (lit 640) (lit (1 # 5))); lia.
  - exact (zero_rows_kept (lit 640) (lit 640)).
Defined.

(* ================================================================== *)
(** * Properties of the frame capture, the crop and the pixel buffers *)
(* ================================================================== *)

(** ** Writes into a typed array *)

Lemma setAt_length {A} (i : nat) (v : A) (a : list A) :
  List.length (setAt i v a) = List.length a.
Proof.
  revert i. induction a as [|x a IH]; intros [|i]; simpl; auto.
Qed.

Lemma nth_setAt {A} (i j : nat) (v d : A) (a : list A) :
  nth j (setAt i v a) d
  = if (j =? i) && (i <? List.length a) then v else nth j a d.
Proof.
  revert i j. induction a as [|x a IH]; intros i j.
  - destruct i, j; simpl; rewrite ?andb_false_r; reflexivity.
  - destruct i as [|i]; destruct j as [|j]; simpl; try reflexivity.
    rewrite IH. reflexivity.
Qed.

Lemma loop_count (n : nat) : (4 * n + 3) / 4 = n.
Proof.
  symmetry. apply (Nat.div_unique (4 * n + 3) 4 n 3); lia.
Qed.

(** ** The detector tensor *)

Section DetectorBufferFacts.
Context {F : Type} `{JsNum F}.
Variable store : F -> F.
Variable useUint8 : bool.
Variables width height : nat.
Variable data : list F.

(** What the loop stores for colour plane [c] of pixel [p]. *)
Let sample (c p : nat) : F :=
  store (if useUint8 then at_ data (4 * p + c)
         else div (at_ data (4 * p + c)) (lit 255)).

Lemma detectorInput_prefix (n : nat) :
  n <= width * height ->
  let buf :=
    fold_left (detectorPixel store useUint8 width height data) (seq 0 n)
              (repeat (lit 0) (3 * width * height)) in
  List.length buf = 3 * width * height /\
  forall c p, c < 3 -> p < width * height ->
    at_ buf (c * (width * height) + p)
    = if p <? n then sample c p else lit 0.
Proof.
  induction n as [|n IH]; intros Hn.
  - cbn [seq fold_left]. split; [apply repeat_length|].
    intros c p Hc Hp. unfold at_. apply nth_repeat_lt.
    rewrite <- Nat.mul_assoc. destruct c as [|[|[|c]]]; lia.
  - rewrite seq_S, fold_left_app. cbn [fold_left Nat.add].
    destruct IH as [Hlen Hcell]; [lia|].
    set (old := fold_left (detectorPixel store useUint8 width height data)
                          (seq 0 n) (repeat (lit 0) (3 * width * height))) in *.
    unfold detectorPixel. split.
    + rewrite !setAt_length. exact Hlen.
    + intros c p Hc Hp. unfold at_.
      rewrite !nth_setAt, !setAt_length, Hlen.
      fold (at_ old (c * (width * height) + p)). rewrite (Hcell c p Hc Hp).
      rewrite <- !Nat.mul_assoc.
      set (P := width * height) in *.
      assert (Hin0 : (n <? 3 * P) = true) by (apply Nat.ltb_lt; lia).
      assert (Hin1 : (n + P <? 3 * P) = true) by (apply Nat.ltb_lt; lia).
      assert (Hin2 : (n + 2 * P <? 3 * P) = true) by (apply Nat.ltb_lt; lia).
      rewrite Hin0, Hin1, Hin2, !andb_true_r.
      destruct (Nat.eq_dec p n) as [-> | Hpn].
      * replace (n <? S n) with true by (symmetry; apply Nat.ltb_lt; lia).
        unfold sample.
        destruct c as [|[|[|c]]]; [| | |lia].
        -- replace (0 * P + n =? n + 2 * P) with false
             by (symmetry; apply Nat.eqb_neq; lia).
           replace (0 * P + n =? n + P) with false
             by (symmetry; apply Nat.eqb_neq; lia).
           replace (0 * P + n =? n) with true
             by (symmetry; apply Nat.eqb_eq; lia).
           now rewrite Nat.add_0_r.
        -- replace (1 * P + n =? n + 2 * P) with false
             by (symmetry; apply Nat.eqb_neq; lia).
           replace (1 * P + n =? n + P) with true
             by (symmetry; apply Nat.eqb_eq; lia).
           reflexivity.
        -- replace (2 * P + n =? n + 2 * P) with true
             by (symmetry; apply Nat.eqb_eq; lia).
           reflexivity.
      * replace (c * P + p =? n + 2 * P) with false
          by (symmetry; apply Nat.eqb_neq; destruct c as [|[|[|c]]]; lia).
        replace (c * P + p =? n + P) with false
          by (symmetry; apply Nat.eqb_neq; destruct c as [|[|[|c]]]; lia).
        replace (c * P + p =? n) with false
          by (symmetry; apply Nat.eqb_neq; destruct c as [|[|[|c]]]; lia).
        destruct (p <? n) eqn:Hlt.
        -- apply Nat.ltb_lt in Hlt.
           now replace (p <? S n) with true by (symmetry; apply Nat.ltb_lt; lia).
        -- apply Nat.ltb_ge in Hlt.
           now replace (p <? S n) with false by (symmetry; apply Nat.ltb_ge; lia).
Qed.

End DetectorBufferFacts.

(** X8. on the RGBA bytes of a [width] x [height] canvas the detector
    buffer has [3 * width * height] entries, laid out plane by plane:
    entry [c * width * height + p] holds colour component [c] of pixel
    [p] (divided by 255 for a float tensor), and the alpha bytes are
    dropped. *)
Theorem prepareDetectorInput_layout {F : Type} `{JsNum F} (store : F -> F)
    (useUint8 : bool) (width height : nat) (data : list F) :
  List.length data = 4 * (width * height) ->
  List.length (prepareDetectorInput_input store useUint8 width height data)
  = 3 * width * height /\
  forall c p, c < 3 -> p < width * height ->
    at_ (prepareDetectorInput_input store useUint8 width height data)
        (c * (width * height) + p)
    = store (if useUint8 then at_ data (4 * p + c)
             else div (at_ data (4 * p + c)) (lit 255)).
Proof.
  intros Hdata. unfold prepareDetectorInput_input.
  rewrite Hdata, loop_count.
  destruct (@detectorInput_prefix F _ store useUint8 width height data
              (width * height) (le_n _)) as [Hlen Hcell].
  split; [exact Hlen|].
  intros c p Hc Hp. rewrite (Hcell c p Hc Hp).
  now replace (p <? width * height) with true
    by (symmetry; apply Nat.ltb_lt; exact Hp).
Qed.

Lemma prepareDetectorInput_layout_witness :
  let data : list (ext Q) :=
    [Fin 10%Q; Fin 20%Q; Fin 30%Q; Fin 255%Q;
     Fin 40%Q; Fin 50%Q; Fin 60%Q; Fin 255%Q] in
  List.length (prepareDetectorInput_input (fun x => x) true 1 2 data) = 3 * 1 * 2 /\
  forall c p, c < 3 -> p < 1 * 2 ->
    at_ (prepareDetectorInput_input (fun x => x) true 1 2 data) (c * (1 * 2) + p)
    = (if true then at_ data (4 * p + c)
       else div (at_ data (4 * p + c)) (lit 255)).
Proof.
  intros data.
  apply (prepareDetectorInput_layout (fun x : ext Q => x) true 1 2 data).
  reflexivity.
Defined.

(** ** The OCR tensor *)

Section OcrBufferFacts.
Context {F : Type} `{JsNum F}.
Variable store : F -> F.
Variable useUint8 : bool.
Variable data : list F.

Lemma ocrInput_prefix (pixels n : nat) :
  n <= pixels ->
  let buf := fold_left (ocrPixel store useUint8 data) (seq 0 n)
                       (repeat (lit 0) pixels) in
  List.length buf = pixels /\
  forall p, p < pixels ->
    at_ buf p
    = if p <? n then at_ (ocrPixel store useUint8 data (repeat (lit 0) pixels) p) p
      else lit 0.
Proof.
  induction n as [|n IH]; intros Hn.
  - cbn [seq fold_left]. split; [apply repeat_length|].
    intros p Hp. unfold at_. now apply nth_repeat_lt.
  - rewrite seq_S, fold_left_app. cbn [fold_left Nat.add].
    destruct IH as [Hlen Hcell]; [lia|].
    set (old := fold_left (ocrPixel store useUint8 data) (seq 0 n)
                          (repeat (lit 0) pixels)) in *.
    split.
    + unfold ocrPixel. rewrite setAt_length. exact Hlen.
    + intros p Hp. unfold ocrPixel at 1, at_ at 1.
      rewrite nth_setAt, Hlen.
      fold (at_ old p). rewrite (Hcell p Hp).
      replace (n <? pixels) with true by (symmetry; apply Nat.ltb_lt; lia).
      rewrite andb_true_r.
      destruct (Nat.eq_dec p n) as [-> | Hpn].
      * rewrite Nat.eqb_refl.
        replace (n <? S n) with true by (symmetry; apply Nat.ltb_lt; lia).
        unfold ocrPixel, at_. rewrite nth_setAt, repeat_length, Nat.eqb_refl.
        now replace (n <? pixels) with true by (symmetry; apply Nat.ltb_lt; lia).
      * replace (p =? n) with false by (symmetry; apply Nat.eqb_neq; lia).
        destruct (p <? n) eqn:Hlt.
        -- apply Nat.ltb_lt in Hlt.
           now replace (p <? S n) with true by (symmetry; apply Nat.ltb_lt; lia).
        -- apply Nat.ltb_ge in Hlt.
           now replace (p <? S n) with false by (symmetry; apply Nat.ltb_ge; lia).
Qed.

Lemma ocrInput_cells (targetWidth targetHeight : nat) :
  List.length data = 4 * (targetWidth * targetHeight) ->
  List.length (prepareOcrInput_input store useUint8 targetWidth targetHeight data)
  = targetWidth * targetHeight /\
  forall p, p < targetWidth * targetHeight ->
    at_ (prepareOcrInput_input store useUint8 targetWidth targetHeight data) p
    = store
        (let gray :=
           add (add (mul (lit (299 # 1000)) (at_ data (4 * p)))
                    (mul (lit (587 # 1000)) (at_ data (4 * p + 1))))
               (mul (lit (114 # 1000)) (at_ data (4 * p + 2))) in
         if useUint8 then gray else div gray (lit 255)).
Proof.
  intros Hdata. unfold prepareOcrInput_input. rewrite Hdata, loop_count, Nat.mul_1_l.
  destruct (@ocrInput_prefix (targetWidth * targetHeight)
              (targetWidth * targetHeight) (le_n _)) as [Hlen Hcell].
  split; [exact Hlen|].
  intros p Hp. rewrite (Hcell p Hp).
  replace (p <? targetWidth * targetHeight) with true
    by (symmetry; apply Nat.ltb_lt; exact Hp).
  unfold ocrPixel, at_ at 1.
  rewrite nth_setAt, repeat_length, Nat.eqb_refl.
  now replace (p <? targetWidth * targetHeight) with true
    by (symmetry; apply Nat.ltb_lt; exact Hp).
Qed.
End OcrBufferFacts.

Lemma isByte_at (data : list (ext Q)) (j : nat) :
  Forall isByte data -> j < List.length data -> isByte (at_ data j).
Proof.
  intros Hall Hj. rewrite Forall_forall in Hall.
  apply Hall. unfold at_. now apply nth_In.
Qed.

(** X9. on the RGBA bytes of the OCR canvas the OCR buffer has one entry
    per pixel, the weighted grey level [0.299 r + 0.587 g + 0.114 b] of
    that pixel; it lies between 0 and 255, and between 0 and 1 once
    divided by 255 for a float tensor. *)
Theorem prepareOcrInput_gray (store : ext Q -> ext Q) (useUint8 : bool)
    (targetWidth targetHeight : nat) (data : list (ext Q)) :
  List.length data = 4 * (targetWidth * targetHeight) ->
  Forall isByte data ->
  List.length (prepareOcrInput_input store useUint8 targetWidth targetHeight data)
  = targetWidth * targetHeight /\
  forall p, p < targetWidth * targetHeight ->
    exists (r g b : Z) (v : Q),
      at_ data (4 * p) = Fin (inject_Z r) /\
      at_ data (4 * p + 1) = Fin (inject_Z g) /\
      at_ data (4 * p + 2) = Fin (inject_Z b) /\
      at_ (prepareOcrInput_input store useUint8 targetWidth targetHeight data) p
      = store (Fin v) /\
      (let gray := (299 # 1000) * inject_Z r + (587 # 1000) * inject_Z g
                   + (114 # 1000) * inject_Z b in
       v = if useUint8 then gray else gray / 255)%Q /\
      (0 <= v <= if useUint8 then 255 else 1)%Q.
Proof.
  intros Hdata Hbytes.
  destruct (@ocrInput_cells (ext Q) _ store useUint8 data
              targetWidth targetHeight Hdata) as [Hlen Hcell].
  split; [exact Hlen|].
  intros p Hp. rewrite (Hcell p Hp).
  destruct (@isByte_at data (4 * p) Hbytes) as (r & Hr & Hr01); [lia|].
  destruct (@isByte_at data (4 * p + 1) Hbytes) as (g & Hg & Hg01); [lia|].
  destruct (@isByte_at data (4 * p + 2) Hbytes) as (b & Hb & Hb01); [lia|].
  rewrite Hr, Hg, Hb.
  exists r, g, b.
  assert (Hrq : (0 <= inject_Z r <= 255)%Q).
  { change 0%Q with (inject_Z 0). change 255%Q with (inject_Z 255).
    rewrite <- !Zle_Qle. exact Hr01. }
  assert (Hgq : (0 <= inject_Z g <= 255)%Q).
  { change 0%Q with (inject_Z 0). change 255%Q with (inject_Z 255).
    rewrite <- !Zle_Qle. exact Hg01. }
  assert (Hbq : (0 <= inject_Z b <= 255)%Q).
  { change 0%Q with (inject_Z 0). change 255%Q with (inject_Z 255).
    rewrite <- !Zle_Qle. exact Hb01. }
  cbv zeta. rewrite !Qfin_lit, !Qfin_mul, !Qfin_add.
  set (gray := ((299 # 1000) * inject_Z r + (587 # 1000) * inject_Z g
                + (114 # 1000) * inject_Z b)%Q).
  assert (Hgray : (0 <= gray <= 255)%Q) by (unfold gray; qlra).
  destruct useUint8.
  - exists gray. repeat split; try reflexivity; apply Hgray.
  - rewrite Qfin_div by reflexivity.
    exists (gray / 255)%Q. repeat split; try reflexivity.
    + apply Qle_shift_div_l; [reflexivity | qlra].
    + apply Qle_shift_div_r; [reflexivity | qlra].
Qed.

Lemma prepareOcrInput_gray_witness :
  let data : list (ext Q) :=
    [Fin (inject_Z 10); Fin (inject_Z 20); Fin (inject_Z 30); Fin (inject_Z 255);
     Fin (inject_Z 40); Fin (inject_Z 50); Fin (inject_Z 60); Fin (inject_Z 255)] in
  List.length (prepareOcrInput_input (fun x => x) false 2 1 data) = 2 * 1 /\
  forall p, p < 2 * 1 ->
    exists (r g b : Z) (v : Q),
      at_ data (4 * p) = Fin (inject_Z r) /\
      at_ data (4 * p + 1) = Fin (inject_Z g) /\
      at_ data (4 * p + 2) = Fin (inject_Z b) /\
      at_ (prepareOcrInput_input (fun x => x) false 2 1 data) p = Fin v /\
      (let gray := (299 # 1000) * inject_Z r + (587 # 1000) * inject_Z g
                   + (114 # 1000) * inject_Z b in
       v = gray / 255)%Q /\
      (0 <= v <= 1)%Q.
Proof.
  intros data.
  apply (prepareOcrInput_gray (fun x => x) false 2 1 (data := data)).
  - reflexivity.
  - repeat constructor;
      (eexists; split; [reflexivity | split; discriminate]).
Defined.

(** ** The size of a captured frame *)

Lemma truthy_Q_pos (x : Q) : (0 < x)%Q -> truthy (Fin x) = true.
Proof.
  intros Hx.
  change (truthy (Fin x))
    with (match (if q_ltb 0 x then Gt else if q_ltb x 0 then Lt else Eq)
          with Eq => false | _ => true end).
  now replace (q_ltb 0 x) with true by (symmetry; apply q_ltb_lt; exact Hx).
Qed.

Lemma orNumber_Q (z d : Z) :
  (0 <= z)%Z ->
  orNumber (of_Z z) (lit (inject_Z d))
  = Fin (inject_Z (if (z =? 0)%Z then d else z)).
Proof.
  intros Hz. unfold orNumber. rewrite Qfin_of_Z, Qfin_lit.
  destruct (Z.eqb_spec z 0) as [-> | Hne].
  - reflexivity.
  - rewrite truthy_Q_pos; [reflexivity|]. apply inject_Z_pos. lia.
Qed.

Lemma Qround_inject_Z (z : Z) : Qfloor (inject_Z z + (1 # 2)) = z.
Proof.
  assert (Hlo : (z <= Qfloor (inject_Z z + (1 # 2)))%Z).
  { rewrite <- (Qfloor_Z z) at 1. apply Qfloor_resp_le. qlra. }
  assert (Hhi : (Qfloor (inject_Z z + (1 # 2)) < z + 1)%Z).
  { pose proof (Qfloor_le (inject_Z z + (1 # 2))) as Hf.
    rewrite Zlt_Qlt, inject_Z_plus. change (inject_Z 1) with 1%Q.
    qlra. }
  lia.
Qed.

Lemma Qround_eq_Z (x : Q) (z : Z) :
  (x == inject_Z z)%Q -> Qfloor (x + (1 # 2)) = z.
Proof.
  intros Hx. rewrite <- (Qround_inject_Z z).
  apply Qfloor_comp. rewrite Hx. reflexivity.
Qed.

Section CaptureFacts.
Variables vw vh : Z.
Hypothesis vw_nonneg : (0 <= vw)%Z.
Hypothesis vh_nonneg : (0 <= vh)%Z.

Let sw : Z := if (vw =? 0)%Z then 1280%Z else vw.
Let sh : Z := if (vh =? 0)%Z then 720%Z else vh.
Let s : Q := Qmin (Qmin (960 / inject_Z sw) (540 / inject_Z sh)) 1.

Lemma capture_source_pos : (0 < sw)%Z /\ (0 < sh)%Z.
Proof.
  unfold sw, sh.
  destruct (Z.eqb_spec vw 0); destruct (Z.eqb_spec vh 0); lia.
Qed.

Lemma capture_scale_pos : (0 < s)%Q.
Proof.
  destruct capture_source_pos as [Hw Hh].
  unfold s. apply Q.min_glb_lt; [apply Q.min_glb_lt|reflexivity];
    apply Qdiv_pos; try reflexivity; now apply inject_Z_pos.
Qed.

Lemma captureFrameSize_Q :
  captureFrameSize (F := ext Q) (mkVideo vw vh)
  = (Fin (inject_Z (Qfloor (inject_Z sw * s + (1 # 2)))),
     Fin (inject_Z (Qfloor (inject_Z sh * s + (1 # 2))))).
Proof.
  destruct capture_source_pos as [Hw Hh].
  unfold captureFrameSize. cbn [videoWidth videoHeight].
  change (lit 1280 : ext Q) with (lit (inject_Z 1280) : ext Q).
  change (lit 720 : ext Q) with (lit (inject_Z 720) : ext Q).
  rewrite !orNumber_Q by assumption.
  fold sw sh. rewrite !Qfin_lit.
  rewrite !Qfin_div by (now apply inject_Z_pos).
  rewrite !Qfin_min. fold s.
  rewrite !Qfin_mul, !Qfin_round. reflexivity.
Qed.

Lemma capture_scale_le :
  (s <= 1)%Q /\ (inject_Z sw * s <= 960)%Q /\ (inject_Z sh * s <= 540)%Q.
Proof.
  destruct capture_source_pos as [Hw Hh].
  apply inject_Z_pos in Hw, Hh.
  pose proof capture_scale_pos as Hs.
  assert (H1 : (s <= 1)%Q) by apply Q.le_min_r.
  assert (H2 : (s <= 960 / inject_Z sw)%Q).
  { unfold s. eapply Qle_trans; [apply Q.le_min_l | apply Q.le_min_l]. }
  assert (H3 : (s <= 540 / inject_Z sh)%Q).
  { unfold s. eapply Qle_trans; [apply Q.le_min_l | apply Q.le_min_r]. }
  repeat split; [exact H1 | |].
  - setoid_replace 960%Q with (inject_Z sw * (960 / inject_Z sw))%Q
      by (field; intros E; rewrite E in Hw; discriminate Hw).
    apply Qmult_le_l; assumption.
  - setoid_replace 540%Q with (inject_Z sh * (540 / inject_Z sh))%Q
      by (field; intros E; rewrite E in Hh; discriminate Hh).
    apply Qmult_le_l; assumption.
Qed.
End CaptureFacts.

Lemma Qdiv_cancel_l (a b : Q) : (0 < b)%Q -> (b * (a / b) == a)%Q.
Proof. intros Hb. field. intros E. rewrite E in Hb. discriminate Hb. Qed.

(** X10. [captureFrame] sizes the frame to fit 960 x 540 without ever
    enlarging it: a frame within those bounds keeps its size, a larger
    one is scaled until its width is 960 or its height 540, and a video
    that reports no size counts as 1280 x 720.  Without a video, a
    canvas, a context or an encoded image there is no frame. *)
Theorem captureFrame_fits (vw vh : Z) :
  (0 <= vw)%Z -> (0 <= vh)%Z ->
  let sw := if (vw =? 0)%Z then 1280%Z else vw in
  let sh := if (vh =? 0)%Z then 720%Z else vh in
  (exists w h : Z,
     captureFrame (F := ext Q) (Some (mkVideo vw vh)) true true true
     = Some (Fin (inject_Z w), Fin (inject_Z h)) /\
     (0 <= w <= 960)%Z /\ (0 <= h <= 540)%Z /\
     (w <= sw)%Z /\ (h <= sh)%Z /\
     ((sw <= 960)%Z -> (sh <= 540)%Z -> w = sw /\ h = sh) /\
     ((960 < sw)%Z \/ (540 < sh)%Z -> w = 960%Z \/ h = 540%Z)) /\
  (forall video canvas context blob,
     captureFrame (F := ext Q) video canvas context blob <> None ->
     video <> None /\ canvas = true /\ context = true /\ blob = true).
Proof.
  intros Hvw Hvh sw sh. split.
  2:{ intros [video|] [|] [|] [|]; cbn; intros Hsome;
        try (now elim Hsome); repeat split; discriminate. }
  unfold captureFrame. cbn [negb].
  destruct (capture_source_pos Hvw Hvh) as [Hsw Hsh]. fold sw sh in Hsw, Hsh.
  pose proof (capture_scale_pos Hvw Hvh) as Hs.
  destruct (capture_scale_le Hvw Hvh) as (Hs1 & Hfw & Hfh).
  rewrite (captureFrameSize_Q Hvw Hvh).
  fold sw sh in Hs, Hs1, Hfw, Hfh |- *.
  set (a := (960 / inject_Z sw)%Q) in *.
  set (b := (540 / inject_Z sh)%Q) in *.
  set (s := Qmin (Qmin a b) 1) in *.
  pose proof (inject_Z_pos Hsw) as Hqw. pose proof (inject_Z_pos Hsh) as Hqh.
  assert (Hsa : (a <= b)%Q -> (a <= 1)%Q -> (inject_Z sw * s == inject_Z 960)%Q).
  { intros Hab Ha1. unfold s. rewrite (Q.min_l a b Hab), (Q.min_l a 1 Ha1).
    unfold a. now apply Qdiv_cancel_l. }
  assert (Hsb : (b <= a)%Q -> (b <= 1)%Q -> (inject_Z sh * s == inject_Z 540)%Q).
  { intros Hba Hb1. unfold s. rewrite (Q.min_r a b Hba), (Q.min_l b 1 Hb1).
    unfold b. now apply Qdiv_cancel_l. }
  assert (Hs_one : (1 <= a)%Q -> (1 <= b)%Q -> (s == 1)%Q).
  { intros Ha Hb. unfold s. apply Q.min_r. now apply Q.min_glb. }
  assert (Ha_lt : (960 < sw)%Z -> (a < 1)%Q).
  { intros Hlt. unfold a. apply Qlt_shift_div_r; [exact Hqw|].
    rewrite Qmult_1_l. change 960%Q with (inject_Z 960).
    now rewrite <- Zlt_Qlt. }
  assert (Ha_ge : (sw <= 960)%Z -> (1 <= a)%Q).
  { intros Hle. unfold a. apply Qle_shift_div_l; [exact Hqw|].
    rewrite Qmult_1_l. change 960%Q with (inject_Z 960).
    now rewrite <- Zle_Qle. }
  assert (Hb_lt : (540 < sh)%Z -> (b < 1)%Q).
  { intros Hlt. unfold b. apply Qlt_shift_div_r; [exact Hqh|].
    rewrite Qmult_1_l. change 540%Q with (inject_Z 540).
    now rewrite <- Zlt_Qlt. }
  assert (Hb_ge : (sh <= 540)%Z -> (1 <= b)%Q).
  { intros Hle. unfold b. apply Qle_shift_div_l; [exact Hqh|].
    rewrite Qmult_1_l. change 540%Q with (inject_Z 540).
    now rewrite <- Zle_Qle. }
  assert (Hmw : (inject_Z sw * s <= inject_Z sw)%Q).
  { rewrite <- (Qmult_1_r (inject_Z sw)) at 2. now apply Qmult_le_l. }
  assert (Hmh : (inject_Z sh * s <= inject_Z sh)%Q).
  { rewrite <- (Qmult_1_r (inject_Z sh)) at 2. now apply Qmult_le_l. }
  assert (Hpw : (0 <= inject_Z sw * s)%Q)
    by (apply Qmult_le_0_compat; qlra).
  assert (Hph : (0 <= inject_Z sh * s)%Q)
    by (apply Qmult_le_0_compat; qlra).
  eexists. eexists. split; [reflexivity|].
  split; [split; [apply Qfloor_nonneg; qlra | now apply Qround_le_Z]|].
  split; [split; [apply Qfloor_nonneg; qlra | now apply Qround_le_Z]|].
  split; [now apply Qround_le_Z|].
  split; [now apply Qround_le_Z|].
  split.
  - intros Hw Hh.
    pose proof (Hs_one (Ha_ge Hw) (Hb_ge Hh)) as E.
    split; apply Qround_eq_Z; rewrite E; apply Qmult_1_r.
  - intros Hbig.
    destruct (Z_lt_le_dec 960 sw) as [Hw | Hw];
      destruct (Z_lt_le_dec 540 sh) as [Hh | Hh].
    + destruct (Qlt_le_dec b a) as [Hba | Hab].
      * right. apply Qround_eq_Z, Hsb; [qlra | specialize (Hb_lt Hh); qlra].
      * left. apply Qround_eq_Z, Hsa; [qlra | specialize (Ha_lt Hw); qlra].
    + left. specialize (Ha_lt Hw). specialize (Hb_ge Hh).
      apply Qround_eq_Z, Hsa; qlra.
    + right. specialize (Hb_lt Hh). specialize (Ha_ge Hw).
      apply Qround_eq_Z, Hsb; qlra.
    + lia.
Qed.

Lemma captureFrame_fits_witness :
  exists w h : Z,
    captureFrame (F := ext Q) (Some (mkVideo 1920 1440)) true true true
    = Some (Fin (inject_Z w), Fin (inject_Z h)) /\
    (0 <= w <= 960)%Z /\ (0 <= h <= 540)%Z /\
    (w <= 1920)%Z /\ (h <= 1440)%Z /\
    ((1920 <= 960)%Z -> (1440 <= 540)%Z -> w = 1920%Z /\ h = 1440%Z) /\
    ((960 < 1920)%Z \/ (540 < 1440)%Z -> w = 960%Z \/ h = 540%Z).
Proof.
  apply (proj1 (@captureFrame_fits 1920%Z 1440%Z ltac:(lia) ltac:(lia))).
Defined.

(** ** The crop rectangle and its canvas *)

Lemma clamps_ordered (b0 b2 p s w : Q) :
  (0 < s)%Q -> (0 <= w)%Q ->
  (b0 <= b2)%Q -> (p <= b2)%Q -> (b0 <= p + w * s)%Q ->
  (Qmax 0 ((b0 - p) / s) <= Qmin w ((b2 - p) / s))%Q.
Proof.
  intros Hs Hw H02 Hp Hb0.
  assert (Hlo : ((b0 - p) / s <= (b2 - p) / s)%Q).
  { unfold Qdiv. apply Qmult_le_compat_r; [qlra|].
    apply Qlt_le_weak, Qinv_lt_0_compat, Hs. }
  assert (Hnn : (0 <= (b2 - p) / s)%Q).
  { apply Qle_shift_div_l; [exact Hs | qlra]. }
  assert (Hup : ((b0 - p) / s <= w)%Q).
  { apply Qle_shift_div_r; [exact Hs | qlra]. }
  apply Q.max_lub; apply Q.min_glb; qlra.
Qed.

(** X11. with the transform record that [prepareDetectorInput] made for
    the image, the crop rectangle never starts left of or above the
    image and never ends right of or below it; for a detection box
    that is not inverted and meets the letterboxed image area it is a
    proper rectangle, [x1 <= x2] and [y1 <= y2]. *)
Theorem cropBox_inside_image (iw ih tw th : Z)
    (prepared : Prepared (F := ext Q)) (b0 b1 b2 b3 : Q) :
  (0 < iw)%Z -> (0 < ih)%Z -> (0 < tw)%Z -> (0 < th)%Z ->
  prepareDetectorInput true (mkImage iw ih) tw th = Some prepared ->
  exists s px py x1 y1 x2 y2 : Q,
    scale prepared = Fin s /\ padX prepared = Fin px /\
    padY prepared = Fin py /\
    cropBox (mkImage iw ih) prepared (qbox b0 b1 b2 b3) = qbox x1 y1 x2 y2 /\
    (0 <= x1)%Q /\ (0 <= y1)%Q /\
    (x2 <= inject_Z iw)%Q /\ (y2 <= inject_Z ih)%Q /\
    ((b0 <= b2)%Q -> (px <= b2)%Q -> (b0 <= px + inject_Z iw * s)%Q ->
     (x1 <= x2)%Q) /\
    ((b1 <= b3)%Q -> (py <= b3)%Q -> (b1 <= py + inject_Z ih * s)%Q ->
     (y1 <= y2)%Q).
Proof.
  intros Hiw Hih Htw Hth Hprep.
  pose proof (@prepareDetectorInput_Q iw ih tw th Hiw Hih) as Hprep'.
  cbv zeta in Hprep'.
  rewrite Hprep' in Hprep. injection Hprep as <-.
  pose proof (@letterbox_scale_pos iw ih tw th Hiw Hih Htw Hth) as Hs.
  cbv zeta in Hs.
  pose proof (inject_Z_pos Hiw) as Hqw. pose proof (inject_Z_pos Hih) as Hqh.
  eexists _, _, _. cbn [scale padX padY].
  unfold cropBox, qbox, at_.
  cbn [nth scale padX padY image_width image_height].
  rewrite !Qfin_of_Z, !Qfin_lit, !Qfin_sub.
  rewrite !Qfin_div by exact Hs.
  rewrite !Qfin_max, !Qfin_min.
  eexists _, _, _, _.
  split; [reflexivity|]. split; [reflexivity|]. split; [reflexivity|].
  split; [reflexivity|].
  split; [apply Q.le_max_l|]. split; [apply Q.le_max_l|].
  split; [apply Q.le_min_l|]. split; [apply Q.le_min_l|].
  split; intros H02 Hp Hb; apply clamps_ordered; try assumption; qlra.
Qed.

Lemma cropBox_inside_image_witness :
  exists s px py x1 y1 x2 y2 : Q,
    scale squarePrepared = Fin s /\ padX squarePrepared = Fin px /\
    padY squarePrepared = Fin py /\
    cropBox (mkImage 100 100) squarePrepared (qbox 64 64 320 128)
    = qbox x1 y1 x2 y2 /\
    (0 <= x1)%Q /\ (0 <= y1)%Q /\
    (x2 <= inject_Z 100)%Q /\ (y2 <= inject_Z 100)%Q /\
    ((64 <= 320)%Q -> (px <= 320)%Q -> (64 <= px + inject_Z 100 * s)%Q ->
     (x1 <= x2)%Q) /\
    ((64 <= 128)%Q -> (py <= 128)%Q -> (64 <= py + inject_Z 100 * s)%Q ->
     (y1 <= y2)%Q).
Proof.
  apply (@cropBox_inside_image 100 100 640 640 squarePrepared
           64 64 320 128); try lia.
  reflexivity.
Defined.

Lemma Qround_ge_1 (x : Q) : (1 <= x)%Q -> (1 <= Qfloor (x + (1 # 2)))%Z.
Proof.
  intros Hx. rewrite <- (Qfloor_Z 1) at 1. apply Qfloor_resp_le.
  change (inject_Z 1) with 1%Q. qlra.
Qed.

(** X12. in any arithmetic [cropPlate] draws from the source rectangle
    that starts at the first corner of the box and is
    [max(1, x2 - x1)] wide and [max(1, y2 - y1)] high, onto a canvas
    whose sides are these two numbers rounded and stored in the canvas
    attributes, and without a canvas context or an encoded image it
    returns nothing.  For a box with finite corners whose sides stay
    below 2^31 pixels, a size the canvas attributes store unchanged,
    the source rectangle is at least one pixel wide and high and the
    sides of the canvas are whole numbers of at least one pixel, each
    within half a pixel of the source side. *)
Theorem cropPlate_canvas (unsignedLong : ext Q -> ext Q) (x1 y1 x2 y2 : Q) :
  (forall z : Z, (0 <= z <= 2147483647)%Z ->
                 unsignedLong (Fin (inject_Z z)) = Fin (inject_Z z)) ->
  (x2 - x1 <= 2147483647)%Q -> (y2 - y1 <= 2147483647)%Q ->
  (forall (F : Type) (N : JsNum F) (toAttribute : F -> F) (box : list F),
     cropPlate toAttribute true true box
     = Some {| crop_x := at_ box 0; crop_y := at_ box 1;
               crop_width := max (lit 1) (sub (at_ box 2) (at_ box 0));
               crop_height := max (lit 1) (sub (at_ box 3) (at_ box 1));
               canvas_width :=
                 toAttribute
                   (round (max (lit 1) (sub (at_ box 2) (at_ box 0))));
               canvas_height :=
                 toAttribute
                   (round (max (lit 1) (sub (at_ box 3) (at_ box 1)))) |} /\
     (forall blob, cropPlate toAttribute false blob box = None) /\
     (forall ctx, cropPlate toAttribute ctx false box = None)) /\
  exists (cw ch : Q) (w h : Z),
    cropPlate unsignedLong true true (qbox x1 y1 x2 y2)
    = Some {| crop_x := Fin x1; crop_y := Fin y1;
              crop_width := Fin cw; crop_height := Fin ch;
              canvas_width := Fin (inject_Z w);
              canvas_height := Fin (inject_Z h) |} /\
    (1 <= cw)%Q /\ (1 <= ch)%Q /\
    (1 <= w <= 2147483647)%Z /\ (1 <= h <= 2147483647)%Z /\
    (Qabs (inject_Z w - cw) <= 1 # 2)%Q /\
    (Qabs (inject_Z h - ch) <= 1 # 2)%Q.
Proof.
  intros Hul Hw Hh.
  split.
  - intros F N toAttribute box.
    split; [reflexivity|].
    split; [reflexivity | intros []; reflexivity].
  - unfold cropPlate, qbox, at_. cbn [nth negb].
    rewrite !Qfin_lit, !Qfin_sub, !Qfin_max, !Qfin_round.
    assert (Hbw : (1 <= Qfloor (Qmax 1 (x2 - x1) + (1 # 2)) <= 2147483647)%Z).
    { split; [apply Qround_ge_1, Q.le_max_l|].
      apply Qround_le_Z. apply Q.max_lub; [discriminate | exact Hw]. }
    assert (Hbh : (1 <= Qfloor (Qmax 1 (y2 - y1) + (1 # 2)) <= 2147483647)%Z).
    { split; [apply Qround_ge_1, Q.le_max_l|].
      apply Qround_le_Z. apply Q.max_lub; [discriminate | exact Hh]. }
    rewrite !Hul by lia.
    eexists _, _, _, _. split; [reflexivity|].
    split; [apply Q.le_max_l|]. split; [apply Q.le_max_l|].
    split; [exact Hbw|]. split; [exact Hbh|].
    split; apply Qround_half.
Qed.

Lemma cropPlate_canvas_witness :
  exists (cw ch : Q) (w h : Z),
    cropPlate (fun n : ext Q => n) true true (qbox 10 20 (125 # 2) 40)
    = Some {| crop_x := Fin 10%Q; crop_y := Fin 20%Q;
              crop_width := Fin cw; crop_height := Fin ch;
              canvas_width := Fin (inject_Z w);
              canvas_height := Fin (inject_Z h) |} /\
    (1 <= cw)%Q /\ (1 <= ch)%Q /\
    (1 <= w <= 2147483647)%Z /\ (1 <= h <= 2147483647)%Z /\
    (Qabs (inject_Z w - cw) <= 1 # 2)%Q /\
    (Qabs (inject_Z h - ch) <= 1 # 2)%Q.
Proof.
  refine (proj2 (@cropPlate_canvas (fun n : ext Q => n)
                   10 20 (125 # 2) 40 _ _ _)).
  - intros z _. reflexivity.
  - vm_compute. discriminate.
  - vm_compute. discriminate.
Defined.

(* ================================================================== *)
(** * Further properties of the OCR decoder *)
(* ================================================================== *)

(** ** The two layouts of an OCR output *)

Section OcrLayoutFacts.
Context {F : Type} `{JsNum F}.
Variables data1 data2 : list F.
Variables layout1 layout2 : Layout.
Variables slots classes : nat.
Hypothesis same_cells :
  forall slot cls, slot < slots -> cls < classes ->
    at_ data1 (ocrIndex layout1 slots classes slot cls)
    = at_ data2 (ocrIndex layout2 slots classes slot cls).

Lemma slotArgmax_same slot :
  slot < slots ->
  slotArgmax data1 layout1 slots classes slot
  = slotArgmax data2 layout2 slots classes slot.
Proof.
  intros Hslot. unfold slotArgmax. apply fold_left_ext_in.
  intros acc cls Hcls. apply in_seq in Hcls.
  rewrite same_cells by lia. reflexivity.
Qed.

Lemma slotExpSum_same slot maxVal :
  slot < slots ->
  slotExpSum data1 layout1 slots classes slot maxVal
  = slotExpSum data2 layout2 slots classes slot maxVal.
Proof.
  intros Hslot. unfold slotExpSum. apply fold_left_ext_in.
  intros acc cls Hcls. apply in_seq in Hcls.
  rewrite same_cells by lia. reflexivity.
Qed.

Lemma decodeSlots_same :
  decodeSlots data1 layout1 slots classes
  = decodeSlots data2 layout2 slots classes.
Proof.
  unfold decodeSlots.
  rewrite (@fold_left_ext_in _ _
             (decodeSlot data1 layout1 slots classes)
             (decodeSlot data2 layout2 slots classes)); [reflexivity|].
  intros acc slot Hslot. apply in_seq in Hslot.
  unfold decodeSlot, slotConfidence.
  rewrite slotArgmax_same by lia.
  rewrite slotExpSum_same by lia. reflexivity.
Qed.
End OcrLayoutFacts.

Lemma ocrShape_slotsFirst (batch S : nat) :
  ocrShape [batch; S; 37] = (S, SlotsFirst).
Proof. reflexivity. Qed.

Lemma ocrShape_classesFirst (batch S : nat) :
  S <> 37 -> ocrShape [batch; 37; S] = (S, ClassesFirst).
Proof.
  intros HS. unfold ocrShape.
  change (List.length OCR_ALPHABET) with 37.
  replace (S =? 37) with false by (symmetry; apply Nat.eqb_neq; exact HS).
  reflexivity.
Qed.

Lemma decodeSlots_layouts {F : Type} `{JsNum F}
    (m : nat -> nat -> F) (S classes : nat) :
  decodeSlots (layoutBoxesFirst m S classes) SlotsFirst S classes
  = decodeSlots (layoutChannelsFirst m S classes) ClassesFirst S classes.
Proof.
  apply decodeSlots_same.
  intros slot cls Hslot Hcls. unfold ocrIndex.
  rewrite at_layoutBoxesFirst by assumption.
  rewrite (Nat.add_comm (cls * S) slot).
  rewrite at_layoutChannelsFirst by assumption. reflexivity.
Qed.

(** X13. an OCR grid decodes to the same text and confidence whether the
    model emits it slot by slot, [1, S, 37], or class by class,
    [1, 37, S], as long as the slot count is not itself 37. *)
Theorem decodeOcrOutput_layouts {F : Type} `{JsNum F}
    (m : nat -> nat -> F) (S : nat) :
  S <> 37 ->
  decodeOcrOutput (layoutBoxesFirst m S 37) [1; S; 37]
  = decodeOcrOutput (layoutChannelsFirst m S 37) [1; 37; S].
Proof.
  intros HS. unfold decodeOcrOutput.
  rewrite ocrShape_slotsFirst, (ocrShape_classesFirst 1 HS).
  exact (decodeSlots_layouts m S 37).
Qed.

Lemma decodeOcrOutput_layouts_witness :
  decodeOcrOutput (layoutBoxesFirst sampleTable 9 37) [1; 9; 37]
  = decodeOcrOutput (layoutChannelsFirst sampleTable 9 37) [1; 37; 9].
Proof. apply (decodeOcrOutput_layouts sampleTable (S := 9)). discriminate. Defined.

(** ** The decoded text *)

Lemma alphabet_alnum_or_pad :
  forall c, In c OCR_ALPHABET -> c = 95%N \/ isAlnum c = true.
Proof.
  assert (Hall : forallb (fun c => (c =? 95)%N || isAlnum c) OCR_ALPHABET = true)
    by reflexivity.
  intros c Hc. rewrite forallb_forall in Hall.
  apply Hall, orb_true_iff in Hc.
  destruct Hc as [Hc | Hc]; [left; now apply N.eqb_eq | now right].
Qed.

Lemma alphabetChar_alnum (i : nat) :
  jsstring_eqb (alphabetChar i) OCR_PAD = false ->
  Forall (fun c => isAlnum c = true) (alphabetChar i).
Proof.
  unfold alphabetChar.
  destruct (nth_error OCR_ALPHABET i) as [c|] eqn:E; [|constructor].
  apply nth_error_In in E.
  destruct (@alphabet_alnum_or_pad c E) as [-> | Hc].
  - discriminate.
  - intros _. constructor; [exact Hc | constructor].
Qed.

Lemma emitted_alnum {F : Type} `{JsNum F} (data : list F) layout
    slots classes (l : list nat) :
  Forall (fun c => isAlnum c = true)
         (List.concat (List.map (emitted data layout slots classes) l)).
Proof.
  induction l as [|slot l IH]; [constructor|].
  cbn [List.map List.concat]. apply Forall_app. split; [|exact IH].
  unfold emitted, isPadSlot, slotChar.
  destruct (jsstring_eqb _ OCR_PAD) eqn:E; [constructor|].
  now apply alphabetChar_alnum.
Qed.

Lemma decodeSlots_alnum {F : Type} `{JsNum F} (data : list F) layout
    slots classes :
  Forall (fun c => isAlnum c = true)
         (fst (decodeSlots data layout slots classes)).
Proof. rewrite decodeSlots_spec. apply emitted_alnum. Qed.

(** X14. the decoded text holds only digits and capital letters, never
    the padding symbol, and has at most one character per slot. *)
Theorem decodeOcrOutput_text {F : Type} `{JsNum F}
    (data : list F) (dims : list nat) :
  Forall (fun c => isAlnum c = true) (fst (decodeOcrOutput data dims)) /\
  List.length (fst (decodeOcrOutput data dims)) <= fst (ocrShape dims).
Proof.
  unfold decodeOcrOutput. destruct (ocrShape dims) as [slots layout].
  generalize (List.length OCR_ALPHABET) as classes. intros classes.
  split; [apply decodeSlots_alnum|].
  rewrite decodeSlots_spec. cbn [fst].
  pose proof (emitted_length data layout slots classes (seq 0 slots)) as Hl.
  rewrite length_seq in Hl. exact Hl.
Qed.

(** ** The confidence, over the reals *)

Section OcrConfidenceFacts.
Variable data : list (ext R).
Variable layout : Layout.
Variables slots classes : nat.
Hypothesis classes_pos : 0 < classes.
Hypothesis finite : finiteCells data layout slots classes.

Lemma cellValue_scores slot :
  slot < slots ->
  slotScores data layout slots classes slot
             (cellValue data layout slots classes slot).
Proof.
  intros Hslot cls Hcls. unfold cellValue.
  destruct (finite Hslot Hcls) as [v ->]. reflexivity.
Qed.

Lemma slotConfidence_unit slot :
  slot < slots ->
  exists c : R,
    slotConfidence data layout slots classes slot = Fin c /\ (0 < c <= 1)%R.
Proof.
  intros Hslot.
  destruct (slotConfidence_real (cellValue_scores Hslot) classes_pos)
    as (top & _ & Htop & _ & Hconf).
  destruct (@expTotal_bounds classes
              (cellValue data layout slots classes slot) top Htop) as [Hone _].
  eexists. split; [exact Hconf|].
  split.
  - apply Rinv_0_lt_compat. rlra.
  - apply Rle_trans with (/ 1)%R;
      [apply Rinv_le_contravar; rlra | rewrite Rinv_1; rlra].
Qed.

Lemma confidenceTotal_sum (l : list nat) (a : R) :
  (forall slot, In slot l -> slot < slots) ->
  exists t : R,
    fold_left
      (fun sum slot => add sum (slotConfidence data layout slots classes slot))
      l (Fin a)
    = Fin (a + t)%R /\
    (0 <= t <= INR (List.length l))%R /\ (l <> [] -> 0 < t)%R.
Proof.
  revert a. induction l as [|slot l IH]; intros a Hl.
  - exists 0%R. cbn [fold_left List.length INR].
    split; [f_equal; rlra|]. split; [rlra | congruence].
  - cbn [fold_left].
    destruct (@slotConfidence_unit slot) as (c & Hc & Hc01);
      [apply Hl; now left|].
    rewrite Hc.
    change (add (Fin a) (Fin c)) with (Fin (a + c)%R : ext R).
    destruct (IH (a + c)%R) as (t & Ht & Ht01 & _);
      [intros s Hs; apply Hl; now right|].
    exists (c + t)%R. rewrite Ht.
    split; [f_equal; rlra|].
    change (List.length (slot :: l)) with (S (List.length l)).
    rewrite S_INR. split; [rlra | intros _; rlra].
Qed.
End OcrConfidenceFacts.

Lemma Q2R_inject_Z (z : Z) : Q2R (inject_Z z) = IZR z.
Proof. unfold Q2R, inject_Z. cbn [Qnum Qden]. rewrite Rinv_1. rlra. Qed.

Lemma Q2R_100 : Q2R 100 = 100%R.
Proof. exact (Q2R_inject_Z 100). Qed.

Lemma decodeSlots_confidence (data : list (ext R)) layout slots classes :
  0 < classes -> 0 < slots ->
  finiteCells data layout slots classes ->
  exists c : R,
    snd (decodeSlots data layout slots classes) = Some (Fin c) /\
    (0 < c <= 100)%R.
Proof.
  intros Hclasses Hslots Hfin.
  rewrite decodeSlots_spec. cbn [snd].
  replace (slots =? 0) with false by (symmetry; apply Nat.eqb_neq; lia).
  unfold confidenceTotal.
  change (lit 0 : ext R) with (Fin (Q2R 0) : ext R).
  destruct (@confidenceTotal_sum data layout slots classes Hclasses Hfin
              (seq 0 slots) (Q2R 0)) as (t & Ht & Ht01 & Htpos).
  { intros slot Hin. apply in_seq in Hin. lia. }
  rewrite Ht, RMicromega.Q2R_0, Rplus_0_l.
  rewrite length_seq in Ht01.
  assert (Hn : (0 < INR slots)%R) by (apply lt_0_INR; exact Hslots).
  assert (Ht0 : (0 < t)%R).
  { apply Htpos. destruct slots; [lia | discriminate]. }
  unfold of_nat, of_Z.
  change (lit (inject_Z (Z.of_nat slots)) : ext R)
    with (Fin (Q2R (inject_Z (Z.of_nat slots))) : ext R).
  rewrite Q2R_inject_Z, <- INR_IZR_INZ.
  rewrite Rfin_div by exact Hn.
  change (mul (Fin (t * / INR slots)%R) (lit 100))
    with (Fin (t * / INR slots * Q2R 100)%R : ext R).
  rewrite Q2R_100.
  eexists. split; [reflexivity|].
  assert (Hinv : (0 < / INR slots)%R) by (apply Rinv_0_lt_compat; exact Hn).
  assert (Hq : (0 < t * / INR slots <= 1)%R).
  { split; [apply Rmult_lt_0_compat; assumption|].
    apply (Rmult_le_reg_r (INR slots)); [exact Hn|].
    rewrite Rmult_assoc, Rinv_l by rlra. rlra. }
  rlra.
Qed.

(** X15. when every cell of the grid that is read is a finite number and
    there is at least one slot, the reported confidence is a number
    above 0 and at most 100. *)
Theorem decodeOcrOutput_confidence (data : list (ext R)) (dims : list nat) :
  0 < fst (ocrShape dims) ->
  finiteCells data (snd (ocrShape dims)) (fst (ocrShape dims)) 37 ->
  exists c : R,
    snd (decodeOcrOutput data dims) = Some (Fin c) /\ (0 < c <= 100)%R.
Proof.
  unfold decodeOcrOutput. destruct (ocrShape dims) as [slots layout].
  cbn [fst snd]. intros Hslots Hfin.
  apply decodeSlots_confidence; [|exact Hslots | exact Hfin].
  change (List.length OCR_ALPHABET) with 37. lia.
Qed.

Lemma flatSlot_finite : finiteCells flatSlot SlotsFirst 1 37.
Proof.
  intros slot cls Hslot Hcls. exists 0%R.
  unfold at_, flatSlot, ocrIndex. apply nth_repeat_lt. lia.
Qed.

Lemma decodeOcrOutput_confidence_witness :
  exists c : R,
    snd (decodeOcrOutput flatSlot [1; 1; 37]) = Some (Fin c) /\
    (0 < c <= 100)%R.
Proof.
  apply (@decodeOcrOutput_confidence flatSlot [1; 1; 37]).
  - apply Nat.lt_0_1.
  - exact flatSlot_finite.
Defined.

(* ================================================================== *)
(** * Further properties of the plate text functions *)
(* ================================================================== *)

(** ** [normalizePlate] *)

Lemma concat_keep_filter (p : N -> bool) (s : jsstring) :
  List.concat (List.map (fun c => if p c then [c] else []) s) = filter p s.
Proof.
  induction s as [|c s IH]; [reflexivity|].
  cbn [List.map List.concat filter]. rewrite IH.
  destruct (p c); reflexivity.
Qed.

Lemma normalizePlate_filter (toUpperCase : jsstring -> jsstring) value :
  normalizePlate toUpperCase value = filter isAlnum (toUpperCase value).
Proof.
  unfold normalizePlate. rewrite replaceAll_nonAlnum.
  apply concat_keep_filter.
Qed.

Lemma filter_all {A} (p : A -> bool) (l : list A) :
  Forall (fun x => p x = true) l -> filter p l = l.
Proof.
  induction 1 as [|x l Hx _ IH]; [reflexivity|].
  cbn [filter]. now rewrite Hx, IH.
Qed.

Lemma filter_Forall {A} (p : A -> bool) (l : list A) :
  Forall (fun x => p x = true) (filter p l).
Proof.
  apply Forall_forall. intros x Hx. now apply filter_In in Hx.
Qed.

Lemma filter_length_le {A} (p : A -> bool) (l : list A) :
  List.length (filter p l) <= List.length l.
Proof.
  induction l as [|x l IH]; [apply le_n|].
  cbn [filter]. destruct (p x); cbn [List.length]; lia.
Qed.

(** X16. [normalizePlate] keeps exactly the characters of the uppercased
    value that are digits or capital letters, in their order; it never
    fails and never lengthens the uppercased text. *)
Theorem normalizePlate_alnum (toUpperCase : jsstring -> jsstring)
    (value : jsstring) :
  normalizePlate toUpperCase value = filter isAlnum (toUpperCase value) /\
  Forall (fun c => isAlnum c = true) (normalizePlate toUpperCase value) /\
  List.length (normalizePlate toUpperCase value)
  <= List.length (toUpperCase value).
Proof.
  rewrite normalizePlate_filter.
  split; [reflexivity|]. split; [apply filter_Forall | apply filter_length_le].
Qed.

Lemma asciiUpper_alnum (s : jsstring) :
  Forall (fun c => isAlnum c = true) s -> asciiUpper s = s.
Proof.
  induction 1 as [|c s Hc _ IH]; [reflexivity|].
  unfold asciiUpper in *. cbn [List.map]. rewrite IH. f_equal.
  unfold isAlnum, isUpperAZ, isDigit in Hc.
  destruct ((97 <=? c) && (c <=? 122))%N eqn:E; [|reflexivity].
  apply andb_true_iff in E. destruct E as [E1 E2].
  apply N.leb_le in E1, E2.
  apply orb_true_iff in Hc.
  destruct Hc as [Hc | Hc]; apply andb_true_iff in Hc; destruct Hc as [H1 H2];
    apply N.leb_le in H1, H2; lia.
Qed.

(** ** The shape of an extracted plate *)

Lemma strictShape_loose m : strictShape m -> looseShape m.
Proof.
  intros (a & b & c & d & e & f & g & -> & Ha & Hb & Hc & Hd & He & Hf & Hg).
  split; [cbn [List.length]; lia|].
  repeat constructor; unfold isAlnum;
    rewrite ?Ha, ?Hb, ?Hc, ?Hd, ?He, ?Hf, ?Hg; auto using orb_true_r.
Qed.

Lemma occursAt_piece (P : jsstring -> Prop) s i m :
  occursAt P s i m -> P m /\ exists pre post, s = pre ++ m ++ post.
Proof.
  intros (post & Hs & _ & HP). split; [exact HP|].
  exists (firstn i s), post. exact Hs.
Qed.

Section ExtractedShape.
Variable toUpperCase : jsstring -> jsstring.

Lemma extractPlate_cases (rawText : jsstring) :
  let condensed := filter isAlnum (toUpperCase rawText) in
  let result := extractPlate toUpperCase rawText in
  match search strictRe condensed with
  | Some strict => result = strict /\ firstMatch strictShape condensed strict
  | None =>
      match search looseRe condensed with
      | Some loose => result = loose /\ firstMatch looseShape condensed loose
      | None => result = [] /\ noMatch looseShape condensed
      end
  end.
Proof.
  intros condensed result.
  pose proof (search_first strictRe_recognises condensed) as Hstrict.
  pose proof (search_first looseRe_recognises condensed) as Hloose.
  pose proof (extractPlate_nothing toUpperCase rawText) as Hnone.
  fold condensed in Hnone.
  subst result. unfold extractPlate in *.
  rewrite condensedText_filter in *. fold condensed in Hnone |- *.
  destruct (search strictRe condensed) as [strict|].
  - split; [reflexivity | exact Hstrict].
  - destruct (search looseRe condensed) as [loose|].
    + split; [reflexivity | exact Hloose].
    + split; [now apply Hnone | exact Hloose].
Qed.
End ExtractedShape.

Lemma extractPlate_result_alnum (toUpperCase : jsstring -> jsstring)
    (rawText : jsstring) :
  Forall (fun c => isAlnum c = true) (extractPlate toUpperCase rawText).
Proof.
  pose proof (extractPlate_cases toUpperCase rawText) as Hcases.
  cbv zeta in Hcases.
  destruct (search strictRe (filter isAlnum (toUpperCase rawText)))
    as [strict|];
    [|destruct (search looseRe (filter isAlnum (toUpperCase rawText)))
        as [loose|]].
  - destruct Hcases as [-> (i & Hocc & _)].
    apply occursAt_piece in Hocc. now apply strictShape_loose.
  - destruct Hcases as [-> (i & Hocc & _)].
    apply occursAt_piece in Hocc. apply Hocc.
  - rewrite (proj1 Hcases). constructor.
Qed.

(** X17. whatever the text, [extractPlate] returns either the empty
    string or five to eight digits and capital letters that stand
    together in the condensed text. *)
Theorem extractPlate_shape (toUpperCase : jsstring -> jsstring)
    (rawText : jsstring) :
  let result := extractPlate toUpperCase rawText in
  result = [] \/
  (looseShape result /\
   exists pre post,
     filter isAlnum (toUpperCase rawText) = pre ++ result ++ post).
Proof.
  intros result. subst result.
  pose proof (extractPlate_cases toUpperCase rawText) as Hcases.
  cbv zeta in Hcases.
  destruct (search strictRe (filter isAlnum (toUpperCase rawText)))
    as [strict|].
  - destruct Hcases as [-> (i & Hocc & _)].
    apply occursAt_piece in Hocc. destruct Hocc as [Hshape Hpiece].
    right. split; [now apply strictShape_loose | exact Hpiece].
  - destruct (search looseRe (filter isAlnum (toUpperCase rawText)))
      as [loose|].
    + destruct Hcases as [-> (i & Hocc & _)].
      apply occursAt_piece in Hocc. right. exact Hocc.
    + left. exact (proj1 Hcases).
Qed.

Lemma short_text_no_match (P : jsstring -> Prop) (s : jsstring) :
  List.length s < 5 ->
  (forall x, P x -> 5 <= List.length x) ->
  noMatch P s.
Proof.
  intros Hshort HP i m Hocc. apply occursAt_piece in Hocc.
  destruct Hocc as (Hm & pre & post & E).
  apply HP in Hm. rewrite E, !length_app in Hshort. lia.
Qed.

Lemma strictShape_five x : strictShape x -> 5 <= List.length x.
Proof. intros Hx. rewrite (strictShape_length Hx). lia. Qed.

Lemma looseShape_five x : looseShape x -> 5 <= List.length x.
Proof. intros [Hx _]. lia. Qed.

(** X18. a text with fewer than five digits and capital letters, once
    uppercased, never yields a plate. *)
Theorem extractPlate_too_short (toUpperCase : jsstring -> jsstring)
    (rawText : jsstring) :
  List.length (filter isAlnum (toUpperCase rawText)) < 5 ->
  extractPlate toUpperCase rawText = [].
Proof.
  intros Hshort. apply extractPlate_nothing.
  - exact (short_text_no_match Hshort strictShape_five).
  - exact (short_text_no_match Hshort looseShape_five).
Qed.

Lemma extractPlate_too_short_witness :
  extractPlate asciiUpper (js "ab-12 ?") = [].
Proof.
  apply (@extractPlate_too_short asciiUpper (js "ab-12 ?")).
  vm_compute. lia.
Defined.

(** ** The plate read off an OCR text *)

Lemma classRun_all (p : N -> bool) (budget : nat) (s : jsstring) :
  Forall (fun c => p c = true) s ->
  classRun p budget s = Nat.min budget (List.length s).
Proof.
  intros Hall. revert budget.
  induction Hall as [|c s Hc _ IH]; intros [|budget]; try reflexivity.
  cbn [classRun List.length Nat.min]. now rewrite Hc, IH.
Qed.

Lemma search_here (r : Regex) (s : jsstring) (n : nat) :
  matchHere r s = Some n -> search r s = Some (firstn n s).
Proof.
  intros Hm. destruct s; cbn [search]; rewrite Hm; reflexivity.
Qed.

Lemma firstn_min {A} (n : nat) (l : list A) :
  firstn (Nat.min n (List.length l)) l = firstn n l.
Proof.
  destruct (Nat.le_ge_cases n (List.length l)) as [Hle | Hge].
  - now rewrite Nat.min_l.
  - rewrite Nat.min_r by exact Hge.
    now rewrite firstn_all, firstn_all2.
Qed.

Section OcrTextFacts.
Variable toUpperCase : jsstring -> jsstring.
Hypothesis toUpperCase_alnum :
  forall s, Forall (fun c => isAlnum c = true) s -> toUpperCase s = s.

Lemma normalizePlate_fixes s :
  Forall (fun c => isAlnum c = true) s -> normalizePlate toUpperCase s = s.
Proof.
  intros Hs. rewrite normalizePlate_filter, (toUpperCase_alnum Hs).
  now apply filter_all.
Qed.

Lemma extractPlate_normalized rawText :
  normalizePlate toUpperCase (extractPlate toUpperCase rawText)
  = extractPlate toUpperCase rawText.
Proof.
  apply normalizePlate_fixes.
  apply extractPlate_result_alnum.
Qed.

Lemma extractPlate_alnum_text text :
  Forall (fun c => isAlnum c = true) text ->
  (extractPlate toUpperCase text = [] <-> List.length text < 5) /\
  (5 <= List.length text -> noMatch strictShape text ->
   extractPlate toUpperCase text = firstn 8 text).
Proof.
  intros Htext.
  assert (Hcond : filter isAlnum (toUpperCase text) = text)
    by (rewrite (toUpperCase_alnum Htext); now apply filter_all).
  pose proof (extractPlate_cases toUpperCase text) as Hcases.
  cbv zeta in Hcases. rewrite Hcond in Hcases.
  assert (Hloose : 5 <= List.length text ->
                   search looseRe text = Some (firstn 8 text)).
  { intros Hlen. rewrite <- (firstn_min 8 text). apply search_here.
    unfold matchHere, looseRe.
    cbn [matchK cls lo hi]. rewrite repeatClass_greedy.
    rewrite (@classRun_all isAlnum 8 text Htext).
    now replace (5 <=? Nat.min 8 (List.length text)) with true
      by (symmetry; apply Nat.leb_le; lia). }
  split; [split|].
  - intros Hempty.
    destruct (Nat.lt_ge_cases (List.length text) 5) as [Hlt | Hge];
      [exact Hlt | exfalso].
    rewrite (Hloose Hge) in Hcases.
    destruct (search strictRe text) as [strict|].
    + destruct Hcases as [E (i & Hocc & _)].
      apply occursAt_piece in Hocc. destruct Hocc as [Hshape _].
      apply strictShape_length in Hshape.
      rewrite <- E, Hempty in Hshape. discriminate.
    + destruct Hcases as [E _]. rewrite Hempty in E.
      destruct text as [|c text]; [cbn in Hge; lia | discriminate].
  - intros Hlt. rewrite <- Hcond in Hlt. apply extractPlate_nothing.
    + exact (short_text_no_match Hlt strictShape_five).
    + exact (short_text_no_match Hlt looseShape_five).
  - intros Hge Hno.
    rewrite (search_none strictRe_recognises Hno), (Hloose Hge) in Hcases.
    exact (proj1 Hcases).
Qed.
End OcrTextFacts.

(** X19. when uppercasing leaves strings of digits and capital letters
    alone, [normalizePlate] is idempotent and leaves every result of
    [extractPlate] as it is. *)
Theorem normalizePlate_idempotent (toUpperCase : jsstring -> jsstring) :
  (forall s, Forall (fun c => isAlnum c = true) s -> toUpperCase s = s) ->
  forall value rawText : jsstring,
    normalizePlate toUpperCase (normalizePlate toUpperCase value)
    = normalizePlate toUpperCase value /\
    normalizePlate toUpperCase (extractPlate toUpperCase rawText)
    = extractPlate toUpperCase rawText.
Proof.
  intros Hup value rawText. split.
  - apply (@normalizePlate_fixes toUpperCase Hup).
    rewrite normalizePlate_filter. apply filter_Forall.
  - apply (@extractPlate_normalized toUpperCase Hup).
Qed.

Lemma normalizePlate_idempotent_witness :
  normalizePlate asciiUpper (normalizePlate asciiUpper (js "lm22 xpt"))
  = normalizePlate asciiUpper (js "lm22 xpt") /\
  normalizePlate asciiUpper (extractPlate asciiUpper (js "reg: lm22 xpt"))
  = extractPlate asciiUpper (js "reg: lm22 xpt").
Proof.
  exact (@normalizePlate_idempotent asciiUpper asciiUpper_alnum
           (js "lm22 xpt") (js "reg: lm22 xpt")).
Defined.

(** X20. in [runOcr] the plate is read off the decoded text: it is empty,
    and the scan reports that no plate was detected, exactly when fewer
    than five characters were decoded; a decoded text of five or more
    characters without the strict pattern gives its first eight
    characters; and the later [normalizePlate] leaves the plate as it
    is. *)
Theorem runOcr_plate {F : Type} `{JsNum F}
    (toUpperCase : jsstring -> jsstring)
    (data : list F) (dims : list nat) :
  (forall s, Forall (fun c => isAlnum c = true) s -> toUpperCase s = s) ->
  let text := fst (decodeOcrOutput data dims) in
  let plate := extractPlate toUpperCase text in
  (plate = [] <-> List.length text < 5) /\
  (5 <= List.length text -> noMatch strictShape text ->
   plate = firstn 8 text) /\
  normalizePlate toUpperCase plate = plate.
Proof.
  intros Hup text plate.
  assert (Htext : Forall (fun c => isAlnum c = true) text).
  { subst text. unfold decodeOcrOutput.
    destruct (ocrShape dims) as [slots layout]. apply decodeSlots_alnum. }
  destruct (@extractPlate_alnum_text toUpperCase Hup text Htext)
    as [Hempty Hfirst].
  split; [exact Hempty|]. split; [exact Hfirst|].
  apply (@extractPlate_normalized toUpperCase Hup).
Qed.

Lemma runOcr_plate_witness :
  let text := fst (decodeOcrOutput (F := ext Q) [Fin 1%Q; Fin 2%Q] [1; 5; 20]) in
  let plate := extractPlate asciiUpper text in
  (plate = [] <-> List.length text < 5) /\
  (5 <= List.length text -> noMatch strictShape text ->
   plate = firstn 8 text) /\
  normalizePlate asciiUpper plate = plate.
Proof.
  exact (@runOcr_plate (ext Q) _ asciiUpper [Fin 1%Q; Fin 2%Q] [1; 5; 20]
           asciiUpper_alnum).
Defined.

(* ================================================================== *)
(** * Further properties of the scan attempt *)
(* ================================================================== *)

(** X21. from a page without pending timeouts, however the invocations
    of [handleDetectPlate] overlap, at most one scan timeout is ever
    pending, it is the one whose handle the page holds, and it is
    pending only while a scan is suspended; on every page reached with
    no scan suspended no timeout is left, so a finished scan can no
    longer be reported as timed out. *)
Theorem scan_timer_tracked (toUpperCase : jsstring -> jsstring)
    (p0 : Page) (es : list Event) (ps : list Page) :
  timerTracked p0 ->
  run toUpperCase p0 es = Some ps ->
  Forall (fun p =>
            timerTracked p /\
            (~ running p ->
             timers p = [] /\ noTimeoutAhead toUpperCase p)) ps.
Proof.
  intros Htr Hrun.
  pose proof (@run_tracked toUpperCase es p0 ps Htr Hrun) as Hall.
  rewrite Forall_forall in Hall |- *.
  intros p Hp. split; [exact (Hall p Hp)|].
  intros Hidle.
  pose proof (@tracked_idle p (Hall p Hp) Hidle) as Ht.
  split; [exact Ht | now apply no_timer_no_fire].
Qed.

Lemma scan_timer_tracked_witness :
  exists ps,
    run asciiUpper (idlePage 0) twoScans = Some ps /\
    List.length ps = 7 /\
    Forall (fun p =>
              timerTracked p /\
              (~ running p ->
               timers p = [] /\ noTimeoutAhead asciiUpper p)) ps.
Proof.
  destruct (run asciiUpper (idlePage 0) twoScans) as [ps|] eqn:Hrun;
    [|vm_compute in Hrun; discriminate].
  exists ps. split; [reflexivity|].
  split.
  - revert Hrun. vm_compute. intros [= <-]. reflexivity.
  - apply (@scan_timer_tracked asciiUpper (idlePage 0) twoScans ps);
      [exact I | exact Hrun].
Defined.

(** X22. [handleResumeCamera] stops the camera, puts the detection state
    back to idle and leaves no timeout that could fire, but it does not
    stop a scan that is under way: every invocation stays where it was
    suspended, and a recognition that was suspended still delivers its
    plate to the reset page. *)
Theorem handleResumeCamera_resets (toUpperCase : jsstring -> jsstring)
    (p : Page) :
  timerTracked p ->
  let p' := handleResumeCamera p in
  ocrStatus p' = Idle /\ ocrError p' = None /\ ocrConfidence p' = None /\
  detectedPlate p' = None /\ plateInput p' = [] /\
  timers p' = [] /\ ocrTimeoutRef p' = None /\
  noTimeoutAhead toUpperCase p' /\
  cameraReady p' = false /\
  attempts p' = attempts p /\
  (forall attempt t plate confidence,
      phaseOf p attempt = Recognising -> (clock p <= t)%N ->
      exists p'',
        step toUpperCase p' (mkEvent t (OcrSuccess attempt plate confidence))
        = Some p'' /\
        ocrStatus p'' = Success /\
        (nonEmpty (normalizePlate toUpperCase plate) = true ->
         detectedPlate p'' = Some (normalizePlate toUpperCase plate))).
Proof.
  intros Htr p'.
  destruct (@clearOcrTimeout_tracked (stopCamera p)) as [Ht Href].
  { now apply timerTracked_camera. }
  destruct (clearOcrTimeout_fields (stopCamera p))
    as (Hc & Ha & Hcam & _).
  cbn [clock attempts cameraReady stopCamera setCamera] in Hc, Ha, Hcam.
  subst p'. unfold handleResumeCamera.
  cbn [ocrStatus ocrError ocrConfidence detectedPlate plateInput timers
       ocrTimeoutRef cameraReady attempts].
  repeat (split; [first [reflexivity | assumption]|]).
  split; [apply no_timer_no_fire; exact Ht|].
  split; [exact Hcam|]. split; [exact Ha|].
  intros attempt t plate confidence Hrec Hclock.
  match goal with
  | |- exists p'', step _ ?q _ = _ /\ _ =>
      destruct (@step_OcrSuccess toUpperCase q attempt t plate confidence)
        as (p'' & Hstep & Hst & _ & _ & _ & Hplate)
  end.
  - rewrite (@phaseOf_attempts p); [exact Hrec | exact Ha].
  - cbn [clock]. rewrite Hc. exact Hclock.
  - exists p''. split; [exact Hstep|]. split; [exact Hst|].
    intros Hne. exact (proj1 (Hplate Hne)).
Qed.

Lemma handleResumeCamera_resets_witness :
  let p' := handleResumeCamera recognisingPage in
  ocrStatus p' = Idle /\ ocrError p' = None /\ ocrConfidence p' = None /\
  detectedPlate p' = None /\ plateInput p' = [] /\
  timers p' = [] /\ ocrTimeoutRef p' = None /\
  noTimeoutAhead asciiUpper p' /\
  cameraReady p' = false /\
  attempts p' = attempts recognisingPage /\
  (forall attempt t plate confidence,
      phaseOf recognisingPage attempt = Recognising ->
      (clock recognisingPage <= t)%N ->
      exists p'',
        step asciiUpper p' (mkEvent t (OcrSuccess attempt plate confidence))
        = Some p'' /\
        ocrStatus p'' = Success /\
        (nonEmpty (normalizePlate asciiUpper plate) = true ->
         detectedPlate p'' = Some (normalizePlate asciiUpper plate))).
Proof.
  apply (@handleResumeCamera_resets asciiUpper recognisingPage).
  split; [reflexivity|]. exists 0. right. reflexivity.
Defined.

(* ================================================================== *)
(** * Properties of the vehicle lookup *)
(* ================================================================== *)

Lemma nonEmpty_false (s : jsstring) : nonEmpty s = false <-> s = [].
Proof. destruct s; cbn; split; congruence. Qed.

Lemma configured_nonempty value s :
  configured value = Some s -> value = Some s /\ s <> ""%string.
Proof.
  unfold configured. destruct value as [v|]; [|discriminate].
  destruct (String.eqb_spec v ""); [discriminate|].
  intros [= <-]. split; [reflexivity | assumption].
Qed.

Section RouteFacts.
Variable toUpperCase : jsstring -> jsstring.
Variable J : Type.
Variable jsonAccepts : nat -> bool.
Variable upstream : DvlaCall -> option (nat * option J).
Variables DVLA_API_URL DVLA_API_KEY : option string.

Lemma POST_cases (body : RequestBody) :
  POST toUpperCase jsonAccepts upstream DVLA_API_URL DVLA_API_KEY body
  = match rawRegistrationOf body with
    | Some raw =>
        (fst (respond toUpperCase jsonAccepts upstream
                      DVLA_API_URL DVLA_API_KEY raw),
         Some (snd (respond toUpperCase jsonAccepts upstream
                            DVLA_API_URL DVLA_API_KEY raw)))
    | None => ([], None)
    end.
Proof. destruct body as [| |[|r|]]; reflexivity. Qed.

Lemma respond_calls (raw : jsstring) :
  let result :=
    respond toUpperCase jsonAccepts upstream DVLA_API_URL DVLA_API_KEY raw in
  List.length (fst result) <= 1 /\
  Forall (fun call =>
            registrationNumber call = normalizePlate toUpperCase raw /\
            registrationNumber call <> [] /\
            Forall (fun c => isAlnum c = true) (registrationNumber call) /\
            DVLA_API_KEY = Some (call_key call) /\
            call_key call <> ""%string /\
            exists url, DVLA_API_URL = Some url /\ url <> ""%string /\
                        call_url call = (url ++ "/vehicles")%string)
         (fst result) /\
  (normalizePlate toUpperCase raw = [] ->
   result = ([], mkDvlaResponse 400 (ErrorBody "Registration is required."))) /\
  (normalizePlate toUpperCase raw <> [] ->
   configured DVLA_API_URL = None \/ configured DVLA_API_KEY = None ->
   result
   = ([], mkDvlaResponse 501 (ErrorBody "DVLA VES API is not configured."))) /\
  (forall call, In call (fst result) ->
     snd result
     = match upstream call with
       | Some (status, data) =>
           if jsonAccepts status
           then mkDvlaResponse status (Forwarded data)
           else mkDvlaResponse 502 (ErrorBody "Unable to reach DVLA VES API.")
       | None => mkDvlaResponse 502 (ErrorBody "Unable to reach DVLA VES API.")
       end).
Proof.
  intros result. subst result. unfold respond.
  change (replaceAll nonAlnumRe [] 0 (toUpperCase raw))
    with (normalizePlate toUpperCase raw).
  pose proof (normalizePlate_filter toUpperCase raw) as Hfilter.
  destruct (nonEmpty (normalizePlate toUpperCase raw)) eqn:Hne; cbn [negb].
  - assert (Hnn : normalizePlate toUpperCase raw <> []).
    { intros E. rewrite E in Hne. discriminate. }
    destruct (configured DVLA_API_URL) as [url|] eqn:Hurl;
      [destruct (configured DVLA_API_KEY) as [key|] eqn:Hkey|].
    + apply configured_nonempty in Hurl, Hkey.
      destruct Hurl as [Eurl Hurl]. destruct Hkey as [Ekey Hkey].
      cbn [fst snd List.length].
      split; [apply le_n|]. split.
      * constructor; [|constructor].
        cbn [registrationNumber call_key call_url].
        split; [reflexivity|]. split; [exact Hnn|].
        split; [rewrite Hfilter; apply filter_Forall|].
        split; [exact Ekey|]. split; [exact Hkey|].
        exists url. repeat split; assumption.
      * split; [intros E; now elim Hnn|].
        split; [intros _ [E | E]; discriminate|].
        intros call [<- | []]. reflexivity.
    + cbn [fst snd List.length].
      split; [lia|]. split; [constructor|].
      split; [intros E; now elim Hnn|].
      split; [reflexivity | intros call []].
    + cbn [fst snd List.length].
      split; [lia|]. split; [constructor|].
      split; [intros E; now elim Hnn|].
      split; [reflexivity | intros call []].
  - apply nonEmpty_false in Hne. cbn [fst snd List.length].
    split; [lia|]. split; [constructor|].
    split; [reflexivity|].
    split; [intros Hnn; now elim Hnn | intros call []].
Qed.
End RouteFacts.

(** X23. the route throws, giving no answer of its own and asking
    nothing upstream, exactly when the request body is the JSON value
    [null] or its member [registration] is neither missing nor a
    string.  In every other case it answers, taking a body that is not
    JSON or has no such member for an empty registration: it asks the
    VES API at most once, and only with a registration that is not
    empty and made of digits and capital letters, with the configured
    key and the configured address; a request without such a
    registration is answered 400 whether or not the route is
    configured, an unconfigured route answers 501, and in both cases
    nothing is sent upstream. *)
Theorem POST_upstream_calls (toUpperCase : jsstring -> jsstring) (J : Type)
    (jsonAccepts : nat -> bool) (upstream : DvlaCall -> option (nat * option J))
    (DVLA_API_URL DVLA_API_KEY : option string)
    (body : RequestBody) :
  let result :=
    POST toUpperCase jsonAccepts upstream DVLA_API_URL DVLA_API_KEY body in
  (snd result = None <-> body = JsonNull \/ body = Json NotText) /\
  (snd result = None -> fst result = []) /\
  List.length (fst result) <= 1 /\
  forall raw, rawRegistrationOf body = Some raw ->
    (raw = [] <-> body = NotJson \/ body = Json Missing \/ body = Json (Text [])) /\
    Forall (fun call =>
              registrationNumber call = normalizePlate toUpperCase raw /\
              registrationNumber call <> [] /\
              Forall (fun c => isAlnum c = true) (registrationNumber call) /\
              DVLA_API_KEY = Some (call_key call) /\
              call_key call <> ""%string /\
              exists url, DVLA_API_URL = Some url /\ url <> ""%string /\
                          call_url call = (url ++ "/vehicles")%string)
           (fst result) /\
    (normalizePlate toUpperCase raw = [] ->
     result
     = ([], Some (mkDvlaResponse 400 (ErrorBody "Registration is required.")))) /\
    (normalizePlate toUpperCase raw <> [] ->
     configured DVLA_API_URL = None \/ configured DVLA_API_KEY = None ->
     result
     = ([], Some (mkDvlaResponse 501
                    (ErrorBody "DVLA VES API is not configured.")))) /\
    (forall call, In call (fst result) ->
       snd result
       = Some
           match upstream call with
           | Some (status, data) =>
               if jsonAccepts status
               then mkDvlaResponse status (Forwarded data)
               else mkDvlaResponse 502
                      (ErrorBody "Unable to reach DVLA VES API.")
           | None =>
               mkDvlaResponse 502 (ErrorBody "Unable to reach DVLA VES API.")
           end).
Proof.
  intros result. subst result. rewrite POST_cases.
  destruct (rawRegistrationOf body) as [raw|] eqn:Hraw.
  - destruct (respond_calls toUpperCase jsonAccepts upstream
                DVLA_API_URL DVLA_API_KEY raw)
      as (Hlen & Hcalls & H400 & H501 & Hans).
    cbn [fst snd].
    split.
    { split; [discriminate|].
      intros [-> | ->]; discriminate Hraw. }
    split; [discriminate|].
    split; [exact Hlen|].
    intros raw' [= <-].
    split.
    { destruct body as [| |[|r|]]; cbn in Hraw; try discriminate Hraw;
        injection Hraw as <-.
      - split; [intros _; now left | reflexivity].
      - split; [intros _; right; now left | reflexivity].
      - split; [intros ->; right; right; reflexivity|].
        intros [E | [E | E]]; [discriminate E | discriminate E |].
        now injection E. }
    split; [exact Hcalls|].
    split; [intros E; now rewrite (surjective_pairing (respond _ _ _ _ _ raw)),
                          (H400 E)|].
    split; [intros E Hcfg;
            now rewrite (surjective_pairing (respond _ _ _ _ _ raw)),
                        (H501 E Hcfg)|].
    intros call Hin. now rewrite (Hans call Hin).
  - cbn [fst snd List.length].
    split.
    { split; [intros _|reflexivity].
      destruct body as [| |[|r|]]; cbn in Hraw; try discriminate Hraw;
        [now left | now right]. }
    split; [reflexivity|]. split; [lia|].
    intros raw E. discriminate E.
Qed.

Section LookupFacts.
Variable toUpperCase : jsstring -> jsstring.
Variable V : Type.
Variable fetchDvla : jsstring -> LookupOutcome V.

Lemma handleLookup_sent detectedPlate plateInput (s : Lookup V) :
  let registration :=
    normalizePlate toUpperCase (orElse detectedPlate plateInput) in
  fst (handleLookup toUpperCase fetchDvla detectedPlate plateInput s)
  = if nonEmpty registration then [registration] else [].
Proof.
  cbv zeta. unfold handleLookup.
  destruct (nonEmpty _); reflexivity.
Qed.
End LookupFacts.

(** X24. [handleLookup] sends at most one request, for the normalized
    detected plate or, failing that, the typed one, and only if that
    registration is not empty; otherwise it reports that a registration
    is missing and keeps the vehicle data it had.  Afterwards the
    status is success exactly when there is no error message, which is
    when the route answered with the vehicle record now shown; a
    request that failed leaves no vehicle data. *)
Theorem handleLookup_request (toUpperCase : jsstring -> jsstring) (V : Type)
    (fetchDvla : jsstring -> LookupOutcome V)
    (detectedPlate : option jsstring) (plateInput : jsstring)
    (s : Lookup V) :
  let registration :=
    normalizePlate toUpperCase (orElse detectedPlate plateInput) in
  let result :=
    handleLookup toUpperCase fetchDvla detectedPlate plateInput s in
  (registration = [] ->
   result = ([], mkLookup Failed (Some noRegistrationMessage) (vehicleData s))) /\
  (registration <> [] ->
   fst result = [registration] /\
   Forall (fun c => isAlnum c = true) registration /\
   (lookupStatus (snd result) = Success \/
    lookupStatus (snd result) = Failed /\ vehicleData (snd result) = None)) /\
  (lookupStatus (snd result) = Success <-> lookupError (snd result) = None) /\
  (lookupStatus (snd result) = Success ->
   exists payload,
     fetchDvla registration = OkPayload payload /\
     vehicleData (snd result) = Some payload) /\
  (lookupStatus (snd result) = Success \/ lookupStatus (snd result) = Failed).
Proof.
  intros registration result. subst result. unfold handleLookup.
  fold registration.
  pose proof (normalizePlate_filter toUpperCase
                (orElse detectedPlate plateInput)) as Hfilter.
  fold registration in Hfilter.
  destruct (nonEmpty registration) eqn:Hne; cbn [negb fst snd].
  - assert (Hnn : registration <> []).
    { intros E. rewrite E in Hne. discriminate. }
    split; [intros E; now elim Hnn|].
    destruct (fetchDvla registration) as [message|error|payload|message];
      cbn [lookupStatus lookupError vehicleData].
    + split; [intros _; split; [reflexivity|];
              split; [rewrite Hfilter; apply filter_Forall | right; now split]|].
      split; [split; discriminate|]. split; [discriminate | now right].
    + split; [intros _; split; [reflexivity|];
              split; [rewrite Hfilter; apply filter_Forall | right; now split]|].
      split; [split; discriminate|]. split; [discriminate | now right].
    + split; [intros _; split; [reflexivity|];
              split; [rewrite Hfilter; apply filter_Forall | now left]|].
      split; [split; reflexivity|].
      split; [intros _; now exists payload | now left].
    + split; [intros _; split; [reflexivity|];
              split; [rewrite Hfilter; apply filter_Forall | right; now split]|].
      split; [split; discriminate|]. split; [discriminate | now right].
  - apply nonEmpty_false in Hne.
    split; [reflexivity|]. split; [intros Hnn; now elim Hnn|].
    cbn [lookupStatus lookupError].
    split; [split; discriminate|]. split; [discriminate | now right].
Qed.

(** X25. after [handleLookup] the page shows a vehicle record exactly
    when a registration was sent, the route answered it with that
    record and the record is truthy; vehicle data left over from an
    earlier lookup are never shown after a lookup that failed. *)
Theorem infoData_after_lookup (toUpperCase : jsstring -> jsstring) (V : Type)
    (truthyV : V -> bool)
    (fetchDvla : jsstring -> LookupOutcome V)
    (detectedPlate : option jsstring) (plateInput : jsstring)
    (s : Lookup V) (payload : V) :
  let registration :=
    normalizePlate toUpperCase (orElse detectedPlate plateInput) in
  let result :=
    handleLookup toUpperCase fetchDvla detectedPlate plateInput s in
  (infoData truthyV (snd result) = Some payload <->
   registration <> [] /\ fetchDvla registration = OkPayload payload /\
   truthyV payload = true) /\
  (lookupStatus (snd result) <> Success ->
   infoData truthyV (snd result) = None).
Proof.
  intros registration result. subst result. unfold handleLookup, infoData.
  fold registration.
  destruct (nonEmpty registration) eqn:Hne; cbn [negb snd].
  - assert (Hnn : registration <> []).
    { intros E. rewrite E in Hne. discriminate. }
    destruct (fetchDvla registration) as [message|error|found|message];
      cbn [lookupStatus vehicleData].
    + split; [split; [discriminate | intros (_ & E & _); discriminate E]
             | reflexivity].
    + split; [split; [discriminate | intros (_ & E & _); discriminate E]
             | reflexivity].
    + split; [|intros Hs; now elim Hs].
      destruct (truthyV found) eqn:Ht; split.
      * intros [= ->]. repeat split; assumption.
      * intros (_ & [= ->] & _). reflexivity.
      * discriminate.
      * intros (_ & [= ->] & Hp). congruence.
    + split; [split; [discriminate | intros (_ & E & _); discriminate E]
             | reflexivity].
  - apply nonEmpty_false in Hne. cbn [lookupStatus]. split.
    + split; [discriminate | intros [Hnn _]; now elim Hnn].
    + reflexivity.
Qed.

(** X26. when uppercasing leaves strings of digits and capital letters
    alone, every registration that [handleLookup] sends passes the
    check of the route: the route answers it, never with "Registration
    is required.", and, if it asks the VES API, asks for exactly that
    registration. *)
Theorem handleLookup_route (toUpperCase : jsstring -> jsstring)
    (V J : Type) (fetchDvla : jsstring -> LookupOutcome V)
    (jsonAccepts : nat -> bool) (upstream : DvlaCall -> option (nat * option J))
    (DVLA_API_URL DVLA_API_KEY : option string)
    (detectedPlate : option jsstring) (plateInput : jsstring)
    (s : Lookup V) :
  (forall x, Forall (fun c => isAlnum c = true) x -> toUpperCase x = x) ->
  Forall (fun registration =>
            let answer :=
              POST toUpperCase jsonAccepts upstream DVLA_API_URL DVLA_API_KEY
                   (Json (Text registration)) in
            (exists response,
               snd answer = Some response /\
               dvla_body response <> ErrorBody "Registration is required.") /\
            Forall (fun call => registrationNumber call = registration)
                   (fst answer))
         (fst (handleLookup toUpperCase fetchDvla detectedPlate plateInput s)).
Proof.
  intros Hup. rewrite handleLookup_sent.
  set (registration :=
         normalizePlate toUpperCase (orElse detectedPlate plateInput)).
  destruct (nonEmpty registration) eqn:Hne; [|constructor].
  constructor; [|constructor]. cbv zeta.
  assert (Hfix : normalizePlate toUpperCase registration = registration).
  { apply (@normalizePlate_fixes toUpperCase Hup).
    unfold registration. rewrite normalizePlate_filter. apply filter_Forall. }
  unfold POST, respond.
  change (replaceAll nonAlnumRe [] 0 (toUpperCase registration))
    with (normalizePlate toUpperCase registration).
  rewrite Hfix, Hne. cbn [negb].
  destruct (configured DVLA_API_URL) as [url|];
    [destruct (configured DVLA_API_KEY) as [key|]|]; cbn [fst snd].
  - split; [|repeat constructor].
    eexists. split; [reflexivity|].
    destruct (upstream _) as [[status data]|]; [destruct (jsonAccepts status)|];
      cbn [dvla_body]; discriminate.
  - split; [|constructor].
    eexists. split; [reflexivity | discriminate].
  - split; [|constructor].
    eexists. split; [reflexivity | discriminate].
Qed.

Lemma handleLookup_route_witness :
  Forall (fun registration =>
            let answer :=
              POST asciiUpper (fun status => (200 <=? status) && (status <=? 599))
                   (fun _ : DvlaCall => Some (404, @None unit))
                   (Some "https://ves.example"%string) (Some "key"%string)
                   (Json (Text registration)) in
            (exists response,
               snd answer = Some response /\
               dvla_body response <> ErrorBody "Registration is required.") /\
            Forall (fun call => registrationNumber call = registration)
                   (fst answer))
         (fst (handleLookup asciiUpper
                 (fun _ => NotOk (V := unit) None)
                 (Some (js "lm22 xpt")) [] (mkLookup Idle None None))).
Proof.
  apply (@handleLookup_route asciiUpper unit unit).
  exact asciiUpper_alnum.
Defined.

(* ================================================================== *)
(** * Further properties of the letterbox transform *)
(* ================================================================== *)

Lemma Qfloor_half (d : Z) : Qfloor (inject_Z d / 2) = (d / 2)%Z.
Proof.
  change 2%Q with (inject_Z 2). symmetry. apply Zdiv_Qdiv.
Qed.

Lemma inject_Z_sub (a b : Z) : (inject_Z a - inject_Z b == inject_Z (a - b))%Q.
Proof.
  unfold Z.sub. rewrite inject_Z_plus, inject_Z_opp. reflexivity.
Qed.

Lemma pad_centres (t w : Z) :
  (0 <= w <= t)%Z ->
  let p := Qfloor ((inject_Z t - inject_Z w) / 2) in
  (0 <= p)%Z /\ (p + w <= t)%Z /\ (0 <= t - w - 2 * p <= 1)%Z.
Proof.
  intros Hw p.
  assert (Hp : p = ((t - w) / 2)%Z).
  { unfold p. rewrite <- Qfloor_half. apply Qfloor_comp.
    rewrite inject_Z_sub. reflexivity. }
  pose proof (Z.div_mod (t - w) 2 ltac:(lia)) as Hdm.
  pose proof (Z.mod_pos_bound (t - w) 2 ltac:(lia)) as Hm.
  rewrite <- Hp in Hdm. lia.
Qed.

(** X27. the letterbox puts the scaled image inside the target and in
    its middle: the scaled width and height do not exceed the target,
    one of them equals it, the padded image ends within the target, and
    the padding left and right (above and below) differs by at most one
    pixel. *)
Theorem letterbox_inside_target (iw ih tw th : Z) :
  (0 < iw)%Z -> (0 < ih)%Z -> (0 < tw)%Z -> (0 < th)%Z ->
  exists sw sh px py : Z,
    scaledWidth (letterbox (F := ext Q) (mkImage iw ih) tw th)
    = Fin (inject_Z sw) /\
    scaledHeight (letterbox (F := ext Q) (mkImage iw ih) tw th)
    = Fin (inject_Z sh) /\
    lb_padX (letterbox (F := ext Q) (mkImage iw ih) tw th)
    = Fin (inject_Z px) /\
    lb_padY (letterbox (F := ext Q) (mkImage iw ih) tw th)
    = Fin (inject_Z py) /\
    (0 <= sw <= tw)%Z /\ (0 <= sh <= th)%Z /\ (sw = tw \/ sh = th) /\
    (0 <= px)%Z /\ (px + sw <= tw)%Z /\ (0 <= tw - sw - 2 * px <= 1)%Z /\
    (0 <= py)%Z /\ (py + sh <= th)%Z /\ (0 <= th - sh - 2 * py <= 1)%Z.
Proof.
  intros Hiw Hih Htw Hth.
  rewrite (@letterbox_Q iw ih tw th Hiw Hih).
  cbn [scaledWidth scaledHeight lb_padX lb_padY].
  pose proof (@letterbox_scale_pos iw ih tw th Hiw Hih Htw Hth) as Hs.
  pose proof (@letterbox_fits_width iw ih tw th Hiw) as Hfw.
  pose proof (@letterbox_fits_height iw ih tw th Hih) as Hfh.
  pose proof (inject_Z_pos Hiw) as Hqw. pose proof (inject_Z_pos Hih) as Hqh.
  set (a := (inject_Z tw / inject_Z iw)%Q) in *.
  set (b := (inject_Z th / inject_Z ih)%Q) in *.
  set (s := Qmin a b) in *.
  set (sw := Qfloor (inject_Z iw * s + (1 # 2))).
  set (sh := Qfloor (inject_Z ih * s + (1 # 2))).
  assert (Hsw : (0 <= sw <= tw)%Z).
  { split; [|now apply Qround_le_Z].
    apply Qfloor_nonneg.
    assert (0 <= inject_Z iw * s)%Q by (apply Qmult_le_0_compat; qlra).
    qlra. }
  assert (Hsh : (0 <= sh <= th)%Z).
  { split; [|now apply Qround_le_Z].
    apply Qfloor_nonneg.
    assert (0 <= inject_Z ih * s)%Q by (apply Qmult_le_0_compat; qlra).
    qlra. }
  destruct (pad_centres Hsw) as (Hpx & Hpx' & Hpx'').
  destruct (pad_centres Hsh) as (Hpy & Hpy' & Hpy'').
  exists sw, sh, (Qfloor ((inject_Z tw - inject_Z sw) / 2)),
         (Qfloor ((inject_Z th - inject_Z sh) / 2)).
  do 4 (split; [reflexivity|]).
  split; [exact Hsw|]. split; [exact Hsh|].
  split.
  - destruct (Q.min_spec_le a b) as [[_ E] | [_ E]].
    + left. apply Qround_eq_Z. fold s in E. rewrite E.
      unfold a. now apply Qdiv_cancel_l.
    + right. apply Qround_eq_Z. fold s in E. rewrite E.
      unfold b. now apply Qdiv_cancel_l.
  - split; [exact Hpx|]. split; [exact Hpx'|]. split; [exact Hpx''|].
    split; [exact Hpy|]. split; [exact Hpy'|]. exact Hpy''.
Qed.

Lemma letterbox_inside_target_witness :
  exists sw sh px py : Z,
    scaledWidth (letterbox (F := ext Q) (mkImage 1920 1080) 640 640)
    = Fin (inject_Z sw) /\
    scaledHeight (letterbox (F := ext Q) (mkImage 1920 1080) 640 640)
    = Fin (inject_Z sh) /\
    lb_padX (letterbox (F := ext Q) (mkImage 1920 1080) 640 640)
    = Fin (inject_Z px) /\
    lb_padY (letterbox (F := ext Q) (mkImage 1920 1080) 640 640)
    = Fin (inject_Z py) /\
    (0 <= sw <= 640)%Z /\ (0 <= sh <= 640)%Z /\ (sw = 640%Z \/ sh = 640%Z) /\
    (0 <= px)%Z /\ (px + sw <= 640)%Z /\ (0 <= 640 - sw - 2 * px <= 1)%Z /\
    (0 <= py)%Z /\ (py + sh <= 640)%Z /\ (0 <= 640 - sh - 2 * py <= 1)%Z.
Proof.
  apply (@letterbox_inside_target 1920 1080 640 640); lia.
Defined.

(* ================================================================== *)
(** * Tensors of missing values *)
(* ================================================================== *)

Lemma ltb_nan_r (a : ext Q) : ltb a NaN = false.
Proof. destruct a; reflexivity. Qed.

Lemma add_nan_r (a : ext Q) : add a NaN = NaN.
Proof. destruct a; reflexivity. Qed.

Lemma mul_nan_l (a : ext Q) : mul NaN a = NaN.
Proof. reflexivity. Qed.

Lemma sub_nan_l (a : ext Q) : sub NaN a = NaN.
Proof. reflexivity. Qed.

Lemma StronglySorted_repeat {A} (R : A -> A -> Prop) (x : A) (n : nat) :
  R x x -> StronglySorted R (repeat x n).
Proof.
  intros Hx. induction n as [|n IH]; cbn [repeat]; constructor; [exact IH|].
  apply Forall_forall. intros y Hy. apply repeat_spec in Hy. now subst y.
Qed.

Lemma repeat_snoc {A} (x : A) (n : nat) : repeat x n ++ [x] = repeat x (S n).
Proof.
  induction n as [|n IH]; [reflexivity|].
  cbn [repeat app]. now rewrite IH.
Qed.

Lemma fold_left_snoc {A} (f : list A -> nat -> list A) (x : A) (l : list nat) :
  (forall acc i, f acc i = acc ++ [x]) ->
  forall n, fold_left f l (repeat x n) = repeat x (n + List.length l).
Proof.
  intros Hf. induction l as [|i l IH]; intros n; cbn [fold_left List.length].
  - now rewrite Nat.add_0_r.
  - rewrite Hf, repeat_snoc, IH. f_equal. lia.
Qed.

(** ** The detector *)

Lemma sigmoid_nan : sigmoid (NaN : ext Q) = NaN.
Proof. reflexivity. Qed.

Lemma decodeCandidate_nan channels normalized (w h t : ext Q) l :
  4 < channels ->
  decodeCandidate channels normalized w h t NaN NaN NaN NaN NaN NaN l
  = l ++ [nanCandidate].
Proof.
  intros Hch. unfold decodeCandidate.
  replace (4 <? channels) with true by (symmetry; apply Nat.ltb_lt; exact Hch).
  rewrite sigmoid_nan. reflexivity.
Qed.

Lemma nms_nan (n : nat) (threshold : ext Q) :
  nms (repeat nanCandidate n) threshold = repeat nanCandidate n.
Proof.
  unfold nms.
  rewrite sortBy_inOrder_id
    by (apply StronglySorted_repeat; reflexivity).
  apply nms_loop_apart. apply StronglySorted_repeat.
  unfold apart, overlaps. apply ltb_nan_r.
Qed.

(** X29. the score threshold and the suppression let missing values
    through: when every entry of the detector tensor that is read is
    missing or NaN, [parseDetectorOutput] returns one detection per box
    of the tensor, each with a NaN score and NaN coordinates, so the
    list is not empty and the scan goes on. *)
Theorem parseDetectorOutput_nan (data : list (ext Q)) (N C : nat)
    (inputWidth inputHeight scoreThreshold : ext Q) :
  allNaN data -> 4 < C <= 10 -> 10 < N ->
  parseDetectorOutput data [1; N; C] inputWidth inputHeight scoreThreshold
  = repeat nanCandidate N /\
  parseDetectorOutput data [1; C; N] inputWidth inputHeight scoreThreshold
  = repeat nanCandidate N /\
  parseDetectorOutput data [1; N; C] inputWidth inputHeight scoreThreshold
  <> [].
Proof.
  intros Hnan HC HN. unfold parseDetectorOutput.
  replace (C <=? 10) with true by (symmetry; apply Nat.leb_le; lia).
  replace (N <=? 10) with false by (symmetry; apply Nat.leb_gt; lia).
  assert (Hbf : candidatesBoxesFirst data N C
                  inputWidth inputHeight scoreThreshold
                = repeat nanCandidate N).
  { unfold candidatesBoxesFirst.
    change (@nil (@Candidate (ext Q))) with (repeat nanCandidate 0).
    rewrite (@fold_left_snoc _ _ nanCandidate).
    - now rewrite length_seq.
    - intros acc i. rewrite !Hnan. apply decodeCandidate_nan. lia. }
  assert (Hcf : candidatesChannelsFirst data C N
                  inputWidth inputHeight scoreThreshold
                = repeat nanCandidate N).
  { unfold candidatesChannelsFirst.
    change (@nil (@Candidate (ext Q))) with (repeat nanCandidate 0).
    rewrite (@fold_left_snoc _ _ nanCandidate).
    - now rewrite length_seq.
    - intros acc i. rewrite !Hnan. apply decodeCandidate_nan. lia. }
  rewrite Hbf, Hcf, nms_nan.
  split; [reflexivity|]. split; [reflexivity|].
  destruct N; [lia | discriminate].
Qed.

Lemma parseDetectorOutput_nan_witness :
  parseDetectorOutput (F := ext Q) [] [1; 11; 6]
                      (lit 640) (lit 640) (lit (3 # 10))
  = repeat nanCandidate 11 /\
  parseDetectorOutput (F := ext Q) [] [1; 6; 11]
                      (lit 640) (lit 640) (lit (3 # 10))
  = repeat nanCandidate 11 /\
  parseDetectorOutput (F := ext Q) [] [1; 11; 6]
                      (lit 640) (lit 640) (lit (3 # 10))
  <> [].
Proof.
  apply (@parseDetectorOutput_nan [] 11 6 (lit 640) (lit 640) (lit (3 # 10))).
  - intros [|i]; reflexivity.
  - lia.
  - lia.
Defined.

(** ** The OCR decoder *)

Section OcrNaNFacts.
Variable data : list (ext Q).
Variable layout : Layout.
Variables slots classes : nat.
Hypothesis missing : allNaN data.
Hypothesis classes_pos : 0 < classes.

Lemma slotArgmax_nan slot :
  slotArgmax data layout slots classes slot = (NegInf, 0).
Proof.
  unfold slotArgmax.
  change (neg infinity : ext Q) with (NegInf : ext Q).
  generalize (seq 0 classes) as l. intros l.
  induction l as [|cls l IH]; [reflexivity|].
  cbn [fold_left]. rewrite missing. cbn [fst].
  change (ltb NegInf NaN) with false. exact IH.
Qed.

Lemma slotExpSum_nan slot maxVal :
  slotExpSum data layout slots classes slot maxVal = NaN.
Proof.
  unfold slotExpSum.
  assert (Hfold : forall l acc,
             l <> [] ->
             fold_left
               (fun expSum cls =>
                  add expSum
                      (exp (sub (at_ data
                                     (ocrIndex layout slots classes slot cls))
                                maxVal)))
               l acc = NaN).
  { induction l as [|cls l IH]; intros acc Hne; [now elim Hne|].
    cbn [fold_left]. rewrite missing.
    change (exp (sub NaN maxVal)) with (NaN : ext Q).
    rewrite add_nan_r.
    destruct l as [|cls' l]; [reflexivity|].
    apply IH. discriminate. }
  apply Hfold. destruct classes; [lia | discriminate].
Qed.

Lemma slotConfidence_nan slot :
  slotConfidence data layout slots classes slot = Fin 0%Q.
Proof.
  unfold slotConfidence. rewrite slotExpSum_nan. reflexivity.
Qed.

Lemma emitted_nan slot :
  emitted data layout slots classes slot = [48%N].
Proof.
  unfold emitted, isPadSlot, slotChar. rewrite slotArgmax_nan.
  reflexivity.
Qed.

Lemma confidenceTotal_nan (l : list nat) :
  confidenceTotal data layout slots classes l = Fin 0%Q.
Proof.
  unfold confidenceTotal. change (lit 0 : ext Q) with (Fin 0%Q : ext Q).
  induction l as [|slot l IH]; [reflexivity|].
  cbn [fold_left]. rewrite slotConfidence_nan.
  change (add (Fin 0%Q) (Fin 0%Q)) with (Fin 0%Q : ext Q). exact IH.
Qed.

Lemma decodeSlots_nan :
  0 < slots ->
  fst (decodeSlots data layout slots classes) = repeat 48%N slots /\
  exists c : Q,
    snd (decodeSlots data layout slots classes) = Some (Fin c) /\ (c == 0)%Q.
Proof.
  intros Hslots. rewrite decodeSlots_spec. cbn [fst snd]. split.
  - assert (Hl : forall l,
               List.concat (List.map (emitted data layout slots classes) l)
               = repeat 48%N (List.length l)).
    { induction l as [|slot l IH]; [reflexivity|].
      cbn [List.map List.concat List.length repeat].
      now rewrite emitted_nan, IH. }
    now rewrite Hl, length_seq.
  - replace (slots =? 0) with false by (symmetry; apply Nat.eqb_neq; lia).
    rewrite confidenceTotal_nan. unfold of_nat.
    rewrite Qfin_of_Z, Qfin_lit.
    rewrite Qfin_div by (apply inject_Z_pos; lia).
    rewrite Qfin_mul.
    eexists. split; [reflexivity|]. unfold Qdiv. ring.
Qed.
End OcrNaNFacts.

Lemma firstn_repeat_min {A} (x : A) (n k : nat) :
  firstn k (repeat x n) = repeat x (Nat.min k n).
Proof.
  revert k. induction n as [|n IH]; intros [|k]; try reflexivity.
  cbn [repeat firstn Nat.min]. now rewrite IH.
Qed.

Lemma zeros_not_strict (n : nat) : noMatch strictShape (repeat 48%N n).
Proof.
  intros i m Hocc. apply occursAt_piece in Hocc.
  destruct Hocc as [(a & b & c & d & e & f & g & -> & Ha & _) (pre & post & E)].
  assert (Hin : In a (repeat 48%N n)).
  { rewrite E. apply in_or_app. right. now left. }
  apply repeat_spec in Hin. subst a. discriminate Ha.
Qed.

Lemma zeros_alnum (n : nat) :
  Forall (fun c => isAlnum c = true) (repeat 48%N n).
Proof.
  apply Forall_forall. intros c Hc. apply repeat_spec in Hc. now subst c.
Qed.

(** X30. missing values read as the digit 0: when every entry of the OCR
    tensor that is read is missing or NaN, [decodeOcrOutput] returns
    one "0" per slot with confidence 0, and with five slots or more
    [extractPlate] turns that text into a plate of up to eight zeros,
    so [runOcr] reports a success. *)
Theorem decodeOcrOutput_nan (toUpperCase : jsstring -> jsstring)
    (data : list (ext Q)) (dims : list nat) :
  (forall s, Forall (fun c => isAlnum c = true) s -> toUpperCase s = s) ->
  allNaN data ->
  0 < fst (ocrShape dims) ->
  let slots := fst (ocrShape dims) in
  fst (decodeOcrOutput data dims) = repeat 48%N slots /\
  (exists c : Q,
     snd (decodeOcrOutput data dims) = Some (Fin c) /\ (c == 0)%Q) /\
  (5 <= slots ->
   extractPlate toUpperCase (fst (decodeOcrOutput data dims))
   = repeat 48%N (Nat.min 8 slots)).
Proof.
  intros Hup Hnan Hslots slots. subst slots.
  unfold decodeOcrOutput in *.
  destruct (ocrShape dims) as [slots layout]. cbn [fst] in Hslots |- *.
  assert (Hclasses : 0 < List.length OCR_ALPHABET)
    by (change (List.length OCR_ALPHABET) with 37; lia).
  destruct (@decodeSlots_nan data layout slots (List.length OCR_ALPHABET)
              Hnan Hclasses Hslots) as [Htext Hconf].
  split; [exact Htext|]. split; [exact Hconf|].
  intros Hfive. rewrite Htext, <- firstn_repeat_min.
  apply (@extractPlate_alnum_text toUpperCase Hup (repeat 48%N slots)
           (zeros_alnum slots)).
  - rewrite repeat_length. exact Hfive.
  - apply zeros_not_strict.
Qed.

Lemma decodeOcrOutput_nan_witness :
  fst (decodeOcrOutput (F := ext Q) [] [1; 9; 37]) = repeat 48%N 9 /\
  (exists c : Q,
     snd (decodeOcrOutput (F := ext Q) [] [1; 9; 37]) = Some (Fin c) /\
     (c == 0)%Q) /\
  (5 <= 9 ->
   extractPlate asciiUpper (fst (decodeOcrOutput (F := ext Q) [] [1; 9; 37]))
   = repeat 48%N (Nat.min 8 9)).
Proof.
  apply (@decodeOcrOutput_nan asciiUpper [] [1; 9; 37] asciiUpper_alnum).
  - intros [|i]; reflexivity.
  - cbn. lia.
Defined.
